(** * Gram Panchayat portal: applications, validators and the buffered logger

    A shallow embedding of the JavaScript modules of the portal
    (applications.js, services.js, logger.js) together with the
    properties their specification states about them, and further
    properties of the code: what its methods do when they fail, what
    they keep invariant, and what its reports count.

    Conventions of the embedding.
    - A JavaScript string is a Rocq [string]; the characters are 7-bit
      ASCII, and the case mappings leave every other character alone.
    - A Firestore collection is a finite map from document ids to
      records ([gmap string _]); the collection of notifications, which
      is only ever appended to with server-assigned ids, is a list.
    - An [async] method is a computation in a state-and-exception monad
      over the [world] it talks to.  Each call to the document store
      consumes one flag of the [faults] script of the world: [true] makes
      the call reject, [false] (or an exhausted script) lets it succeed.
    - [FieldValue.serverTimestamp()] is resolved with the clock [now] of
      the world at the time of the write.
    - A number that holds an integer is that integer ([Z] or [nat]);
      where a value can leave the integers that a double holds exactly,
      the rounding is written out ([JsDate.toDouble]).
    - A [Date] is its time value in milliseconds, or [None] for an
      Invalid Date; the local time zone of the host is a parameter that
      gives the offset from UTC at every instant and for every local
      time.
    - What a call does to the console, the store and the window is
      returned as a list of effects. *)

From stdpp Require Import gmap strings list.
From Stdlib Require Import ZArith QArith Ascii String List Lia Sorting.Sorted Permutation DecimalString.
Import ListNotations.

Local Close Scope Q_scope.
Local Open Scope string_scope.
Local Open Scope list_scope.

(** ** JavaScript strings *)

(** [Array.prototype.includes] on an array of strings. *)
Definition includes (xs : list string) (x : string) : bool :=
  existsb (String.eqb x) xs.

(** [Array.prototype.join]. *)
Fixpoint join (sep : string) (xs : list string) : string :=
  match xs with
  | [] => ""
  | [x] => x
  | x :: rest => x ++ sep ++ join sep rest
  end.

(** Truthiness of a string: only the empty string is falsy. *)
Definition truthy (s : string) : bool := negb (String.eqb s "").

(** [a || b] on strings. *)
Definition orElse (a b : string) : string := if truthy a then a else b.

(** [[0-9]] *)
Definition isDigit (c : ascii) : bool :=
  let n := nat_of_ascii c in (48 <=? n)%nat && (n <=? 57)%nat.

Definition digitValue (c : ascii) : Z := (Z.of_nat (nat_of_ascii c) - 48)%Z.

(** The mathematical value of a string of decimal digits, continuing
    from the value [acc] of the digits already read. *)
Fixpoint decimalValue (acc : Z) (s : string) : Z :=
  match s with
  | EmptyString => acc
  | String c s' => decimalValue (10 * acc + digitValue c)%Z s'
  end.

(** ** Exceptions and the monad of asynchronous methods *)

Inductive error : Type :=
| Error (message : string)   (* [new Error(message)] *)
| TypeError                  (* a property read on [null] *)
| StorageError.              (* a rejection of the document store *)

Inductive result (A : Type) : Type :=
| Ok (a : A)
| Throw (e : error).
Arguments Ok {A} a.
Arguments Throw {A} e.

(** ** JavaScript values and plain objects

    A plain object is the list of its own enumerable string-keyed
    properties in the order in which [Object.entries], [for...in] and the
    spread syntax enumerate them: first the keys that are array indices
    (canonical decimal numerals below 2^32 - 1) in ascending numeric
    order, then every other key in the order of its creation. *)
Module Js.

Definition props (A : Type) : Type := list (string * A).

Fixpoint allDigits (s : string) : bool :=
  match s with
  | EmptyString => true
  | String c s' => isDigit c && allDigits s'
  end.

(** The array index a property key denotes, if any: the key is "0" or
    a numeral without a leading zero, and its value is at most
    2^32 - 2. *)
Definition arrayIndex (k : string) : option Z :=
  match k with
  | EmptyString => None
  | String c rest =>
      if allDigits k
         && (negb (Ascii.eqb c "0") || String.eqb rest "")
         && (decimalValue 0 k <? 4294967295)%Z
      then Some (decimalValue 0 k)
      else None
  end.

Section Props.
Context {A : Type}.

(** [Object.prototype.hasOwnProperty] *)
Fixpoint hasOwn (k : string) (o : props A) : bool :=
  match o with
  | [] => false
  | (k', _) :: rest => String.eqb k' k || hasOwn k rest
  end.

(** The value of an own property. *)
Fixpoint getOwn (k : string) (o : props A) : option A :=
  match o with
  | [] => None
  | (k', v) :: rest => if String.eqb k' k then Some v else getOwn k rest
  end.

Fixpoint replaceOwn (k : string) (v : A) (o : props A) : props A :=
  match o with
  | [] => []
  | (k', v') :: rest =>
      if String.eqb k' k then (k', v) :: rest
      else (k', v') :: replaceOwn k v rest
  end.

(** A new array-index key goes before the first key that is a larger
    index or not an index at all. *)
Fixpoint insertIndex (n : Z) (k : string) (v : A) (o : props A) : props A :=
  match o with
  | [] => [(k, v)]
  | (k', v') :: rest =>
      match arrayIndex k' with
      | Some n' =>
          if (n' <? n)%Z then (k', v') :: insertIndex n k v rest
          else (k, v) :: o
      | None => (k, v) :: o
      end
  end.

(** [CreateDataProperty]: what an object literal, the spread syntax
    and an assignment to a key without an inherited setter do. *)
Definition define (k : string) (v : A) (o : props A) : props A :=
  if hasOwn k o then replaceOwn k v o
  else match arrayIndex k with
       | Some n => insertIndex n k v o
       | None => o ++ [(k, v)]
       end.

(** [o[k] = v] on an object whose prototype is [Object.prototype]:
    the key ["__proto__"], unless it is an own property, is the
    inherited accessor, which creates no property (it changes the
    prototype of [o] when [v] is an object or [null], which this
    model does not record). *)
Definition assign (k : string) (v : A) (o : props A) : props A :=
  if hasOwn k o then replaceOwn k v o
  else if String.eqb k "__proto__" then o
  else define k v o.

(** [{ ...o }] *)
Definition spreadProps (o : props A) : props A :=
  fold_left (fun acc kv => define (fst kv) (snd kv) acc) o [].
End Props.

(** The members of [Object.prototype], which every plain object
    inherits. *)
Definition prototypeMembers : list string :=
  ["constructor"; "__proto__"; "hasOwnProperty"; "isPrototypeOf";
   "propertyIsEnumerable"; "toLocaleString"; "toString"; "valueOf";
   "__defineGetter__"; "__defineSetter__";
   "__lookupGetter__"; "__lookupSetter__"].

Definition inherited (k : string) : bool := includes prototypeMembers k.

(** The keys [ks] continue the keys [pre] in enumeration order: no key
    occurs twice, and an array index comes after smaller array indices
    only. *)
Fixpoint enumerationOrder (pre ks : list string) : bool :=
  match ks with
  | [] => true
  | k :: rest =>
      negb (includes pre k)
      && match arrayIndex k with
         | Some n =>
             forallb (fun k' => match arrayIndex k' with
                                | Some n' => (n' <? n)%Z
                                | None => false
                                end) pre
         | None => true
         end
      && enumerationOrder (pre ++ [k]) rest
  end.

(** A key that is neither an array index nor the name of a member of
    [Object.prototype]. *)
Definition ordinaryKey (k : string) : bool :=
  negb (inherited k)
  && match arrayIndex k with
     | Some _ => false
     | None => true
     end.

#[local] Unset Elimination Schemes.
Inductive value : Type :=
| Undefined
| Null
| Bool (b : bool)
| Num (n : Z)          (* an integer-valued number *)
| Str (s : string)
| Arr (items : list value)
| Obj (o : list (string * value)).
#[local] Set Elimination Schemes.

(** [!v] is false *)
Definition truthyValue (v : value) : bool :=
  match v with
  | Undefined | Null => false
  | Bool b => b
  | Num n => negb (n =? 0)%Z
  | Str s => truthy s
  | Arr _ | Obj _ => true
  end.

(** [typeof v === 'object'] *)
Definition isObjectType (v : value) : bool :=
  match v with
  | Null | Arr _ | Obj _ => true
  | _ => false
  end.

Definition decimal (n : nat) : string :=
  NilZero.string_of_uint (Nat.to_uint n).

(** The own enumerable properties of an array: its elements under
    their indices. *)
Fixpoint indexed (i : nat) (items : list value) : list (string * value) :=
  match items with
  | [] => []
  | x :: rest => (decimal i, x) :: indexed (S i) rest
  end.

(** [{ ...v }] for a [v] whose [typeof] is ['object'] and that is not
    [null]. *)
Definition spread (v : value) : list (string * value) :=
  match v with
  | Obj o => spreadProps o
  | Arr items => spreadProps (indexed 0 items)
  | _ => []
  end.

Definition lowerChar (c : ascii) : ascii :=
  let n := nat_of_ascii c in
  if (65 <=? n)%nat && (n <=? 90)%nat then ascii_of_nat (n + 32) else c.

Definition upperChar (c : ascii) : ascii :=
  let n := nat_of_ascii c in
  if (97 <=? n)%nat && (n <=? 122)%nat then ascii_of_nat (n - 32) else c.

Fixpoint mapString (f : ascii -> ascii) (s : string) : string :=
  match s with
  | EmptyString => EmptyString
  | String c s' => String (f c) (mapString f s')
  end.

Definition toLowerCase : string -> string := mapString lowerChar.
Definition toUpperCase : string -> string := mapString upperChar.

(** [s.includes(t)] *)
Fixpoint stringIncludes (s t : string) : bool :=
  String.prefix t s ||
  match s with
  | EmptyString => false
  | String _ s' => stringIncludes s' t
  end.

(** [Array.prototype.sort(compare)]: the sort is stable, so for a
    consistent comparator its result is the one of an insertion sort
    that keeps equal elements in their original order. *)
Section Sort.
Context {A : Type} (compare : A -> A -> Z).

Fixpoint insertSorted (x : A) (l : list A) : list A :=
  match l with
  | [] => [x]
  | y :: rest =>
      if (compare x y <=? 0)%Z then x :: l
      else y :: insertSorted x rest
  end.

Definition sort (l : list A) : list A := fold_right insertSorted [] l.
End Sort.

End Js.

(** ** Regular expressions

    The regular-expression literals of the sources, as terms, and their
    matcher by Brzozowski derivatives.  [test] is [RegExp.prototype.test]
    for a literal anchored by [^] and [$]; [exec] is the match of an
    unanchored literal: the leftmost start, and there the longest match
    (which is what the greedy quantifier of [\d+] selects). *)
Module Regex.

Inductive regex : Type :=
| Never
| Eps
| Class (p : ascii -> bool)
| Seq (r1 r2 : regex)
| Alt (r1 r2 : regex)
| Star (r : regex).

(** [r+] *)
Definition Plus (r : regex) : regex := Seq r (Star r).

(** [r{n}] *)
Fixpoint Repeat (n : nat) (r : regex) : regex :=
  match n with
  | O => Eps
  | S n' => Seq r (Repeat n' r)
  end.

(** [r{0,n}] *)
Fixpoint UpTo (n : nat) (r : regex) : regex :=
  match n with
  | O => Eps
  | S n' => Alt Eps (Seq r (UpTo n' r))
  end.

(** [r{lo,hi}] *)
Definition Range (lo hi : nat) (r : regex) : regex :=
  Seq (Repeat lo r) (UpTo (hi - lo) r).

Fixpoint nullable (r : regex) : bool :=
  match r with
  | Never => false
  | Eps => true
  | Class _ => false
  | Seq r1 r2 => nullable r1 && nullable r2
  | Alt r1 r2 => nullable r1 || nullable r2
  | Star _ => true
  end.

Fixpoint deriv (c : ascii) (r : regex) : regex :=
  match r with
  | Never => Never
  | Eps => Never
  | Class p => if p c then Eps else Never
  | Seq r1 r2 =>
      if nullable r1
      then Alt (Seq (deriv c r1) r2) (deriv c r2)
      else Seq (deriv c r1) r2
  | Alt r1 r2 => Alt (deriv c r1) (deriv c r2)
  | Star r1 => Seq (deriv c r1) (Star r1)
  end.

(** [/^r$/.test(s)] *)
Fixpoint test (r : regex) (s : string) : bool :=
  match s with
  | EmptyString => nullable r
  | String c s' => test (deriv c r) s'
  end.

(** Length of the longest prefix of [s] that [r] matches. *)
Fixpoint longest (r : regex) (s : string) : option nat :=
  match s with
  | EmptyString => if nullable r then Some O else None
  | String c s' =>
      match longest (deriv c r) s' with
      | Some n => Some (S n)
      | None => if nullable r then Some O else None
      end
  end.

(** [s.match(/(r)/)]: the text of the leftmost match, [None] for [null]. *)
Fixpoint exec (r : regex) (s : string) : option string :=
  match longest r s with
  | Some n => Some (substring 0 n s)
  | None =>
      match s with
      | EmptyString => None
      | String _ s' => exec r s'
      end
  end.

(** The language of a regular expression. *)
Inductive denotes : regex -> string -> Prop :=
| DEps : denotes Eps ""
| DClass p c : p c = true -> denotes (Class p) (String c "")
| DSeq r1 r2 s1 s2 : denotes r1 s1 -> denotes r2 s2 -> denotes (Seq r1 r2) (s1 ++ s2)
| DAltL r1 r2 s : denotes r1 s -> denotes (Alt r1 r2) s
| DAltR r1 r2 s : denotes r2 s -> denotes (Alt r1 r2) s
| DStarNil r : denotes (Star r) ""
| DStarCons r s1 s2 : denotes r s1 -> denotes (Star r) s2 -> denotes (Star r) (s1 ++ s2).

(** Character classes; [\d] is [isDigit].

    [\s] on ASCII: tab, line feed, vertical tab, form feed, carriage
    return and space. *)
Definition isSpace (c : ascii) : bool :=
  let n := nat_of_ascii c in
  ((9 <=? n)%nat && (n <=? 13)%nat) || (n =? 32)%nat.

Definition isChar (a c : ascii) : bool := Ascii.eqb a c.

(** [[^\s@]] *)
Definition notSpaceAt (c : ascii) : bool :=
  negb (isSpace c || isChar "@" c).

(** [s.replace(/\D/g, '')] *)
Fixpoint stripNonDigits (s : string) : string :=
  match s with
  | EmptyString => EmptyString
  | String c s' =>
      if isDigit c then String c (stripNonDigits s') else stripNonDigits s'
  end.

(** Every character of the string is in the class. *)
Fixpoint allChars (p : ascii -> bool) (s : string) : bool :=
  match s with
  | EmptyString => true
  | String c s' => p c && allChars p s'
  end.

(** The number of decimal digits in a string. *)
Fixpoint digitCount (s : string) : nat :=
  match s with
  | EmptyString => 0
  | String c s' => (if isDigit c then 1 else 0) + digitCount s'
  end.

End Regex.

(** ** Numbers and dates

    A JavaScript number that holds a non-negative integer is either that
    integer, when a double represents it, or [+Infinity].  [toDouble] is
    the rounding to the nearest double (ties to even) that [parseInt]
    applies to the mathematical value of its digits.

    A [Date] holds a time value in milliseconds since the epoch, or NaN
    ("Invalid Date", [None]).  Local time is UTC shifted by the offset
    that the time zone of the host has at that instant; the offset
    changes at a daylight-saving transition. *)
Module JsDate.

Local Open Scope Z_scope.

Inductive number : Type :=
| Fin (n : Z)
| Inf.

Definition toDouble (n : Z) : number :=
  if n <? 2 ^ 53 then Fin n
  else
    let sh := Z.log2 n - 52 in
    let q := n / 2 ^ sh in
    let r := n mod 2 ^ sh in
    let half := 2 ^ (sh - 1) in
    let q' := if (half <? r) || ((r =? half) && Z.odd q) then q + 1 else q in
    let v := q' * 2 ^ sh in
    if 2 ^ 1024 <=? v then Inf else Fin v.

(** [parseInt(s)] for a string of decimal digits.  (For a numeral of
    more than 20 significant digits ECMAScript lets an implementation
    read the digits after the 20th as zeros; the value is rounded here
    as it stands.) *)
Definition parseInt (s : string) : number := toDouble (decimalValue 0 s).

Definition msPerDay : Z := 86400000.

Definition Day (t : Z) : Z := t / msPerDay.
Definition TimeWithinDay (t : Z) : Z := t mod msPerDay.

(** Year, month (0..11) and day of the month (1..31) of a day number
    counted from 1970-01-01, in the proleptic Gregorian calendar. *)
Definition civil (day : Z) : Z * Z * Z :=
  let z := day + 719468 in
  let era := z / 146097 in
  let doe := z - era * 146097 in
  let yoe := (doe - doe / 1460 + doe / 36524 - doe / 146096) / 365 in
  let doy := doe - (365 * yoe + yoe / 4 - yoe / 100) in
  let mp := (5 * doy + 2) / 153 in
  let d := doy - (153 * mp + 2) / 5 + 1 in
  let m := if mp <? 10 then mp + 3 else mp - 9 in
  let y := yoe + era * 400 + (if m <=? 2 then 1 else 0) in
  (y, m - 1, d).

Definition YearFromTime (t : Z) : Z := fst (fst (civil (Day t))).
Definition MonthFromTime (t : Z) : Z := snd (fst (civil (Day t))).
Definition DateFromTime (t : Z) : Z := snd (civil (Day t)).

(** [MakeDay(YearFromTime(t), MonthFromTime(t), dt)]: the day number of
    the first of the month of [t], plus [dt - 1]. *)
Definition MakeDayInMonthOf (t dt : Z) : Z :=
  (Day t - (DateFromTime t - 1)) + dt - 1.

Definition MakeDate (day time : Z) : Z := day * msPerDay + time.

Definition TimeClip (t : Z) : option Z :=
  if 8640000000000000 <? Z.abs t then None else Some t.

(** The time zone of the host: [offsetAt t] is [LocalTZA(t, true)],
    local time minus UTC in ms at the instant [t]; [offsetOfLocal l] is
    [LocalTZA(l, false)], the offset by which the local time [l] is
    read (for a local time that a transition skips or repeats, the
    offset before the transition). *)
Record TimeZone : Type := mkTimeZone {
  offsetAt : Z -> Z;
  offsetOfLocal : Z -> Z
}.

(** A zone whose offset never changes. *)
Definition fixedZone (tza : Z) : TimeZone :=
  mkTimeZone (fun _ => tza) (fun _ => tza).


Section LocalTime.
Variable zone : TimeZone.

Definition LocalTime (t : Z) : Z := t + offsetAt zone t.
Definition UTC (t : Z) : Z := t - offsetOfLocal zone t.

(** [date.getDate()] on a valid date. *)
Definition getDate (t : Z) : Z := DateFromTime (LocalTime t).

(** [date.setDate(dt)] on a valid date; the result is the new time
    value of the date. *)
Definition setDate (t : Z) (dt : number) : option Z :=
  match dt with
  | Inf => None
  | Fin d =>
      let l := LocalTime t in
      TimeClip (UTC (MakeDate (MakeDayInMonthOf l d) (TimeWithinDay l)))
  end.

(** [date.getDate() + days] *)
Definition addToDate (t : Z) (days : number) : number :=
  match days with
  | Inf => Inf
  | Fin n => Fin (getDate t + n)
  end.
End LocalTime.

End JsDate.

Module Applications.

Definition timestamp := Z.

Record StatusEntry : Type := mkStatusEntry {
  se_status : string;
  se_timestamp : timestamp;
  se_updatedBy : string;
  se_comments : string
}.

Record ApplicantDetails : Type := mkApplicantDetails {
  ad_name : string;
  ad_email : string;
  ad_phone : string;
  ad_address : option string
}.

(** An application document.  [statusHistory] is optional because the
    code reads it as [currentData.statusHistory || []]; the free-form
    payloads [applicationData] and [documents] are carried along
    unchanged by every operation below and are left out. *)
Record Application : Type := mkApplication {
  applicationId : string;
  serviceId : string;
  serviceName : string;
  userId : string;
  applicantDetails : ApplicantDetails;
  status : string;
  priority : string;
  statusHistory : option (list StatusEntry);
  appliedAt : timestamp;
  estimatedCompletionDate : option Z;   (* [None]: an Invalid Date *)
  updatedAt : option timestamp;
  lastUpdatedBy : option string;
  completedAt : option timestamp
}.

Record Notification : Type := mkNotification {
  n_userId : string;
  n_type : string;
  n_title : string;
  n_message : string;
  n_applicationId : string;
  n_newStatus : string;
  n_comments : string;
  n_isRead : bool;
  n_createdAt : timestamp
}.

Record Service : Type := mkService {
  s_name : string;
  s_processingTime : option string
}.

(** A call on the injected logger: the method and the message. *)
Inductive LoggerCall : Type :=
| LogInfo (message : string)
| LogError (message : string).

Record world : Type := mkWorld {
  applications : gmap string Application;
  notifications : list Notification;
  services : gmap string Service;
  currentUser : option string;         (* [auth.currentUser.uid] *)
  loggerCalls : list LoggerCall;
  faults : list bool;                  (* script of store rejections *)
  idSupply : list string;              (* ids the store assigns to added documents *)
  now : timestamp;                     (* the clock, in ms since the epoch *)
  timeZone : JsDate.TimeZone           (* the time zone of the host *)
}.

Definition M (A : Type) : Type := world -> result A * world.

Definition ret {A} (a : A) : M A := fun w => (Ok a, w).
Definition throw {A} (e : error) : M A := fun w => (Throw e, w).
Definition bind {A B} (m : M A) (k : A -> M B) : M B :=
  fun w => match m w with
           | (Ok a, w') => k a w'
           | (Throw e, w') => (Throw e, w')
           end.
Definition tryCatch {A} (body : M A) (handler : error -> M A) : M A :=
  fun w => match body w with
           | (Ok a, w') => (Ok a, w')
           | (Throw e, w') => handler e w'
           end.
Definition lift {A} (r : result A) : M A := fun w => (r, w).

Declare Scope js_scope.
Delimit Scope js_scope with js.
Notation "x <- m ;; k" := (bind m (fun x => k))
  (at level 100, m at next level, right associativity) : js_scope.
Notation "m ;;; k" := (bind m (fun _ => k))
  (at level 100, right associativity) : js_scope.
Local Open Scope js_scope.

Definition setApplications (a : gmap string Application) (w : world) : world :=
  mkWorld a (notifications w) (services w) (currentUser w)
          (loggerCalls w) (faults w) (idSupply w) (now w) (timeZone w).
Definition setNotifications (n : list Notification) (w : world) : world :=
  mkWorld (applications w) n (services w) (currentUser w)
          (loggerCalls w) (faults w) (idSupply w) (now w) (timeZone w).
Definition setLoggerCalls (l : list LoggerCall) (w : world) : world :=
  mkWorld (applications w) (notifications w) (services w) (currentUser w)
          l (faults w) (idSupply w) (now w) (timeZone w).
Definition setFaults (f : list bool) (w : world) : world :=
  mkWorld (applications w) (notifications w) (services w) (currentUser w)
          (loggerCalls w) f (idSupply w) (now w) (timeZone w).
Definition setIdSupply (ids : list string) (w : world) : world :=
  mkWorld (applications w) (notifications w) (services w) (currentUser w)
          (loggerCalls w) (faults w) ids (now w) (timeZone w).

(** One round trip to the document store: rejects when the next flag of
    the script says so. *)
Definition storeCall : M unit :=
  fun w => match faults w with
           | true :: rest => (Throw StorageError, setFaults rest w)
           | false :: rest => (Ok tt, setFaults rest w)
           | [] => (Ok tt, w)
           end.

Definition logger_info (message : string) : M unit :=
  fun w => (Ok tt, setLoggerCalls (loggerCalls w ++ [LogInfo message]) w).
Definition logger_error (message : string) : M unit :=
  fun w => (Ok tt, setLoggerCalls (loggerCalls w ++ [LogError message]) w).

(** [this.auth.currentUser.uid]: a TypeError when nobody is signed in. *)
Definition currentUid : M string :=
  fun w => match currentUser w with
           | Some uid => (Ok uid, w)
           | None => (Throw TypeError, w)
           end.

Definition serverTimestamp : M timestamp := fun w => (Ok (now w), w).

(** [db.collection('applications').doc(id).get()]. *)
Definition getApplication (id : string) : M (option Application) :=
  storeCall ;;; (fun w => (Ok (applications w !! id), w)).

(** [db.collection('services').doc(id).get()]. *)
Definition getService (id : string) : M (option Service) :=
  storeCall ;;; (fun w => (Ok (services w !! id), w)).

(** The fields written by [applicationRef.update(updateData)]. *)
Record UpdateData : Type := mkUpdateData {
  u_status : string;
  u_updatedAt : timestamp;
  u_lastUpdatedBy : string;
  u_statusHistory : list StatusEntry;
  u_completedAt : option timestamp      (* [None]: the key is not in [updateData] *)
}.

Definition applyUpdate (u : UpdateData) (a : Application) : Application :=
  mkApplication (applicationId a) (serviceId a) (serviceName a) (userId a)
    (applicantDetails a)
    (u_status u) (priority a) (Some (u_statusHistory u)) (appliedAt a)
    (estimatedCompletionDate a)
    (Some (u_updatedAt u)) (Some (u_lastUpdatedBy u))
    (match u_completedAt u with
     | Some t => Some t
     | None => completedAt a
     end).

(** [applicationRef.update(updateData)]: merges the written fields into
    the stored document; rejects when the document is gone. *)
Definition updateApplication (id : string) (u : UpdateData) : M unit :=
  storeCall ;;;
  (fun w => match applications w !! id with
            | Some a => (Ok tt, setApplications (<[id := applyUpdate u a]> (applications w)) w)
            | None => (Throw StorageError, w)
            end).

(** [db.collection('applications').add(a)]: the store assigns the next
    id of its supply and returns it. *)
Definition addApplication (a : Application) : M string :=
  storeCall ;;;
  (fun w => match idSupply w with
            | id :: rest =>
                match applications w !! id with
                | None =>
                    (Ok id, setIdSupply rest
                              (setApplications (<[id := a]> (applications w)) w))
                | Some _ => (Throw StorageError, w)
                end
            | [] => (Throw StorageError, w)
            end).

(** [db.collection('notifications').add(n)]. *)
Definition addNotification (n : Notification) : M unit :=
  storeCall ;;;
  (fun w => (Ok tt, setNotifications (notifications w ++ [n]) w)).

Definition createNotification (userId type title message applicationId
                               newStatus comments : string) : M unit :=
  tryCatch
    (t <- serverTimestamp ;;
     addNotification
       (mkNotification userId type title message applicationId
                       newStatus comments false t))
    (fun _ => logger_error "Failed to create notification").

Definition validStatuses : list string :=
  ["pending"; "under_review"; "approved"; "rejected"; "completed"].

Definition updateApplicationStatus (applicationId newStatus comments : string)
  : M unit :=
  tryCatch
    (if negb (includes validStatuses newStatus)
     then throw (Error "Invalid status")
     else
       applicationDoc <- getApplication applicationId ;;
       match applicationDoc with
       | None => throw (Error "Application not found")
       | Some currentData =>
         let statusHistory :=
           match statusHistory currentData with
           | Some h => h
           | None => []
           end in
         t <- serverTimestamp ;;
         uid <- currentUid ;;
         let statusHistory :=
           statusHistory ++
           [mkStatusEntry newStatus t uid
              (orElse comments ("Status changed to " ++ newStatus))] in
         let updateData :=
           mkUpdateData newStatus t uid statusHistory
             (if String.eqb newStatus "approved" || String.eqb newStatus "completed"
              then Some t else None) in
         updateApplication applicationId updateData ;;;
         logger_info "Application status updated" ;;;
         createNotification (userId currentData)
           "status_update" "Application Status Updated"
           ("Your application for " ++ serviceName currentData
              ++ " has been " ++ newStatus)
           applicationId newStatus comments
       end)
    (fun e =>
       logger_error "Failed to update application status" ;;;
       throw e).

Definition cancelApplication (applicationId reason : string) : M unit :=
  tryCatch
    (applicationDoc <- getApplication applicationId ;;
     match applicationDoc with
     | None => throw (Error "Application not found")
     | Some applicationData =>
       uid <- currentUid ;;
       if negb (String.eqb (userId applicationData) uid)
       then throw (Error "Unauthorized to cancel this application")
       else if negb (String.eqb (status applicationData) "pending")
       then throw (Error "Application cannot be cancelled at this stage")
       else
         updateApplicationStatus applicationId "cancelled"
           (orElse reason "Cancelled by user") ;;;
         logger_info "Application cancelled by user"
     end)
    (fun e =>
       logger_error "Failed to cancel application" ;;;
       throw e).

(** *** Observations on documents and worlds *)

(** [a.statusHistory || []] *)
Definition history (a : Application) : list StatusEntry :=
  match statusHistory a with
  | Some h => h
  | None => []
  end.

(** The status of [statusHistory[statusHistory.length - 1]]. *)
Definition lastStatus (h : list StatusEntry) : option string :=
  match rev h with
  | e :: _ => Some (se_status e)
  | [] => None
  end.

(** The call fails with [new Error(msg)] and leaves the applications and
    the notifications as they were. *)
Definition failsWith (msg : string) (m : M unit) (w : world) : Prop :=
  exists w',
    m w = (Throw (Error msg), w') /\
    applications w' = applications w /\
    notifications w' = notifications w.

(** The store accepts the next [n] calls. *)
Definition storeAccepts (n : nat) (w : world) : bool :=
  forallb negb (firstn n (faults w)).

(** The store rejects its call number [i] (from 0). *)
Definition storeRejects (i : nat) (w : world) : bool :=
  nth i (faults w) false.

(** A pending application of user1, as [submitApplication] leaves it,
    and a world that holds it under the id app1. *)
Definition sampleApplication : Application :=
  mkApplication "APP20240115000001" "svc1" "Birth Certificate" "user1"
    (mkApplicantDetails "Asha" "asha@example.com" "9876543210" None)
    "pending" "normal"
    (Some [mkStatusEntry "pending" 1705300000000%Z "user1" "Application submitted"])
    1705300000000%Z (Some 1705904800000%Z) None None None.

Definition sampleWorld : world :=
  mkWorld {[ "app1" := sampleApplication ]} [] 
          {[ "svc1" := mkService "Birth Certificate" (Some "7-10 days") ]}
          (Some "user1") [] [] ["app2"] 1705400000000%Z
          (JsDate.fixedZone 19800000).


(** *** Processing time and the estimated completion date *)

(** [/(\d+)/] *)
Definition digitsRegex : Regex.regex := Regex.Plus (Regex.Class isDigit).

(** [processingTime] is [None] when the service document has no such
    field. *)
Definition parseProcessingTime (processingTime : option string) : JsDate.number :=
  match processingTime with
  | None => JsDate.Fin 7
  | Some s =>
      if negb (truthy s) then JsDate.Fin 7
      else match Regex.exec digitsRegex s with
           | Some digits => JsDate.parseInt digits
           | None => JsDate.Fin 7
           end
  end.



(** The result is the time value of the returned [Date]. *)
Definition calculateEstimatedDate (processingTime : option string) (w : world)
  : option Z :=
  let days := parseProcessingTime processingTime in
  let date := now w in
  JsDate.setDate (timeZone w) date (JsDate.addToDate (timeZone w) date days).

(** *** The application validator *)

(** The object literal a form sends: field names to strings. *)
Definition FormData : Type := gmap string string.

(** [!data[field]]: the field is absent or the empty string. *)
Definition falsyField (data : FormData) (field : string) : bool :=
  match data !! field with
  | Some v => negb (truthy v)
  | None => true
  end.

(** [data[field]] once the field is known to be truthy. *)
Definition field (data : FormData) (name : string) : string :=
  match data !! name with
  | Some v => v
  | None => ""
  end.

(** [/^[^\s@]+@[^\s@]+\.[^\s@]+$/] *)
Definition emailRegex : Regex.regex :=
  Regex.Seq (Regex.Plus (Regex.Class Regex.notSpaceAt))
    (Regex.Seq (Regex.Class (Regex.isChar "@"))
       (Regex.Seq (Regex.Plus (Regex.Class Regex.notSpaceAt))
          (Regex.Seq (Regex.Class (Regex.isChar "."))
             (Regex.Plus (Regex.Class Regex.notSpaceAt))))).

(** [/^\d{10,15}$/] *)
Definition phoneRegex : Regex.regex := Regex.Range 10 15 (Regex.Class isDigit).

(** The conventional shape local@domain.tld, in words: three
    non-empty parts without white space or at-sign, the first two
    separated by an at-sign and the last two by a dot. *)
Definition emailPart (s : string) : Prop :=
  s <> "" /\ Regex.allChars Regex.notSpaceAt s = true.

Definition conventionalEmail (s : string) : Prop :=
  exists l d t : string,
    s = (l ++ "@" ++ d ++ "." ++ t)%string /\ emailPart l /\ emailPart d /\ emailPart t.

Definition requiredApplicationFields : list string :=
  ["serviceId"; "applicantName"; "applicantEmail"; "applicantPhone"].

Definition validateApplicationData (applicationData : FormData) : result unit :=
  let missing := List.filter (falsyField applicationData) requiredApplicationFields in
  if (0 <? length missing)%nat
  then Throw (Error ("Missing required fields: " ++ join ", " missing))
  else if negb (Regex.test emailRegex (field applicationData "applicantEmail"))
  then Throw (Error "Invalid email format")
  else if negb (Regex.test phoneRegex
                  (Regex.stripNonDigits (field applicationData "applicantPhone")))
  then Throw (Error "Invalid phone number format")
  else Ok tt.

(** A form with every required field filled in. *)
Definition sampleForm : FormData :=
  <["serviceId" := "svc1"]>
    (<["applicantName" := "Asha"]>
       (<["applicantEmail" := "asha@example.com"]>
          {[ "applicantPhone" := "+91 98765-43210" ]})).

(** *** Submission *)

Definition decimal (z : Z) : string :=
  NilZero.string_of_int (Z.to_int z).

(** [s.padStart(2, '0')] *)
Definition padStart2 (s : string) : string :=
  match String.length s with
  | O => "00"
  | S O => "0" ++ s
  | _ => s
  end.

(** [s.slice(-6)] *)
Definition lastSix (s : string) : string :=
  substring (String.length s - 6) 6 s.

Definition generateApplicationId (w : world) : string :=
  let l := JsDate.LocalTime (timeZone w) (now w) in
  "APP" ++ decimal (JsDate.YearFromTime l)
        ++ padStart2 (decimal (JsDate.MonthFromTime l + 1))
        ++ padStart2 (decimal (JsDate.DateFromTime l))
        ++ lastSix (decimal (now w)).

Definition submitApplication (applicationData : FormData) : M string :=
  tryCatch
    (lift (validateApplicationData applicationData) ;;;
     serviceDoc <- getService (field applicationData "serviceId") ;;
     match serviceDoc with
     | None => throw (Error "Service not found")
     | Some service =>
       applicationId <- (fun w => (Ok (generateApplicationId w), w)) ;;
       uid <- currentUid ;;
       t <- serverTimestamp ;;
       estimated <- (fun w => (Ok (calculateEstimatedDate (s_processingTime service) w), w)) ;;
       docId <- addApplication
         (mkApplication applicationId
            (field applicationData "serviceId")
            (s_name service)
            uid
            (mkApplicantDetails
               (field applicationData "applicantName")
               (field applicationData "applicantEmail")
               (field applicationData "applicantPhone")
               (applicationData !! "applicantAddress"))
            "pending"
            (orElse (field applicationData "priority") "normal")
            (Some [mkStatusEntry "pending" t uid "Application submitted"])
            t estimated None None None) ;;
       logger_info "Application submitted successfully" ;;;
       ret docId
     end)
    (fun e =>
       logger_error "Failed to submit application" ;;;
       throw e).

(** *** Reading one application *)

(** The result is the document with its id. *)
Definition getApplicationById (applicationId : string) : M (string * Application) :=
  tryCatch
    (doc <- getApplication applicationId ;;
     match doc with
     | None => throw (Error "Application not found")
     | Some applicationData => ret (applicationId, applicationData)
     end)
    (fun e =>
       logger_error "Failed to get application by ID" ;;;
       throw e).

(** *** Bulk update *)

(** An element of [results.errors]: the text
    "Application <id> not found" or "Failed to update <id>: <message>". *)
Inductive BulkError : Type :=
| NotFound (applicationId : string)
| FailedToUpdate (applicationId : string) (e : error).

Record BulkResults : Type := mkBulkResults {
  success : nat;
  failed : nat;
  errors : list BulkError
}.

(** The updates queued on a write batch, oldest first. *)
Definition WriteBatch : Type := list (string * UpdateData).

(** The body of the [for] loop of [bulkUpdateStatus], run over the ids
    in turn; [batch] and [results] are the two local objects it
    mutates. *)
Fixpoint bulkLoop (applicationIds : list string) (newStatus comments : string)
         (batch : WriteBatch) (results : BulkResults)
  : M (WriteBatch * BulkResults) :=
  match applicationIds with
  | [] => ret (batch, results)
  | applicationId :: rest =>
      state <-
        tryCatch
          (applicationDoc <- getApplication applicationId ;;
           match applicationDoc with
           | Some currentData =>
               let statusHistory :=
                 match statusHistory currentData with
                 | Some h => h
                 | None => []
                 end in
               t <- serverTimestamp ;;
               uid <- currentUid ;;
               let statusHistory :=
                 statusHistory ++
                 [mkStatusEntry newStatus t uid
                    (orElse comments ("Bulk update to " ++ newStatus))] in
               ret (batch ++ [(applicationId,
                               mkUpdateData newStatus t uid statusHistory None)],
                    mkBulkResults (S (success results)) (failed results)
                                  (errors results))
           | None =>
               ret (batch,
                    mkBulkResults (success results) (S (failed results))
                                  (errors results ++ [NotFound applicationId]))
           end)
          (fun e =>
             ret (batch,
                  mkBulkResults (success results) (S (failed results))
                                (errors results ++ [FailedToUpdate applicationId e]))) ;;
      bulkLoop rest newStatus comments (fst state) (snd state)
  end.

(** The queued updates applied in order, or [None] when one of them is
    for a document that does not exist. *)
Fixpoint applyBatch (batch : WriteBatch) (apps : gmap string Application)
  : option (gmap string Application) :=
  match batch with
  | [] => Some apps
  | (id, u) :: rest =>
      match apps !! id with
      | Some a => applyBatch rest (<[id := applyUpdate u a]> apps)
      | None => None
      end
  end.

(** [batch.commit()]: all of the updates or none; a batch without
    updates resolves without a call to the store. *)
Definition commitBatch (batch : WriteBatch) : M unit :=
  match batch with
  | [] => ret tt
  | _ :: _ =>
      storeCall ;;;
      (fun w => match applyBatch batch (applications w) with
                | Some apps => (Ok tt, setApplications apps w)
                | None => (Throw StorageError, w)
                end)
  end.

Definition bulkUpdateStatus (applicationIds : list string)
           (newStatus comments : string) : M BulkResults :=
  tryCatch
    (state <- bulkLoop applicationIds newStatus comments []
                (mkBulkResults 0 0 []) ;;
     commitBatch (fst state) ;;;
     logger_info "Bulk status update completed" ;;;
     ret (snd state))
    (fun e =>
       logger_error "Failed to bulk update application status" ;;;
       throw e).

(** The fields a bulk update writes into the document [a]. *)
Definition bulkUpdateOf (newStatus comments : string) (w : world) (uid : string)
           (a : Application) : UpdateData :=
  mkUpdateData newStatus (now w) uid
    (history a ++ [mkStatusEntry newStatus (now w) uid
                     (orElse comments ("Bulk update to " ++ newStatus))])
    None.

(** *** Operations on the result of a query

    [getAllApplications(filters)] is a query of the store; what follows
    is stated for whatever computation stands for it. *)
Section Fetched.
Variable getAllApplications : M (list Application).

(** The predicate of [applications.filter] in [searchApplications]. *)
Definition matchesSearch (searchTerm : string) (app : Application) : bool :=
  Js.stringIncludes (Js.toLowerCase (applicationId app)) (Js.toLowerCase searchTerm)
  || Js.stringIncludes (Js.toLowerCase (serviceName app)) (Js.toLowerCase searchTerm)
  || Js.stringIncludes (Js.toLowerCase (ad_name (applicantDetails app)))
       (Js.toLowerCase searchTerm)
  || Js.stringIncludes (Js.toLowerCase (ad_email (applicantDetails app)))
       (Js.toLowerCase searchTerm).

Definition searchApplications (searchTerm : string) : M (list Application) :=
  tryCatch
    (applications <- getAllApplications ;;
     if negb (truthy searchTerm) then ret applications
     else
       let filtered := List.filter (matchesSearch searchTerm) applications in
       logger_info "Applications searched" ;;;
       ret filtered)
    (fun e =>
       logger_error "Failed to search applications" ;;;
       throw e).
End Fetched.

(** Every stored application has the status of the last entry of its
    history. *)
Definition consistent (w : world) : Prop :=
  forall id a, applications w !! id = Some a ->
               lastStatus (history a) = Some (status a).

(** *** Observations for the properties of submission, bulk update
    and search *)

(** The document that [submitApplication] stores for a form. *)
Definition newApplication (data : FormData) (w : world) (uid : string)
           (service : Service) : Application :=
  mkApplication (generateApplicationId w) (field data "serviceId")
    (s_name service) uid
    (mkApplicantDetails (field data "applicantName")
       (field data "applicantEmail") (field data "applicantPhone")
       (data !! "applicantAddress"))
    "pending" (orElse (field data "priority") "normal")
    (Some [mkStatusEntry "pending" (now w) uid "Application submitted"])
    (now w) (calculateEstimatedDate (s_processingTime service) w)
    None None None.

(** The second world differs from the first in the fault script, the
    id supply and the logger calls at most. *)
Definition untouched (w w' : world) : Prop :=
  applications w' = applications w /\
  notifications w' = notifications w /\
  services w' = services w /\
  currentUser w' = currentUser w /\
  now w' = now w /\
  timeZone w' = timeZone w.

(** The updates that a bulk update queues for the ids, one for each id
    that has a document. *)
Definition queued (newStatus comments : string) (w : world) (uid : string)
           (ids : list string) : WriteBatch :=
  flat_map (fun id => match applications w !! id with
                      | Some a => [(id, bulkUpdateOf newStatus comments w uid a)]
                      | None => []
                      end) ids.

(** The ids without a document, in the order of the list. *)
Definition absentIds (w : world) (ids : list string) : list string :=
  List.filter (fun id => match applications w !! id with
                         | Some _ => false
                         | None => true
                         end) ids.

(** The document [a] after a bulk update. *)
Definition bulkUpdated (newStatus comments : string) (w : world) (uid : string)
           (a : Application) : Application :=
  applyUpdate (bulkUpdateOf newStatus comments w uid a) a.

(** Every character of the string is an ASCII character, on which
    [toLowerCase] and [toUpperCase] change the 26 letters only. *)
Definition asciiOnly (s : string) : bool :=
  Regex.allChars (fun c => (nat_of_ascii c <? 128)%nat) s.

(** Every stored application has one of the statuses that
    [updateApplicationStatus] lists. *)
Definition validStored (w : world) : Prop :=
  forall id a, applications w !! id = Some a ->
               includes validStatuses (status a) = true.

End Applications.

Module Services.

Definition requiredServiceFields : list string :=
  ["name"; "description"; "category"].

Definition validCategories : list string :=
  ["certificate"; "license"; "welfare"; "other"].

Definition validateServiceData (serviceData : Applications.FormData) : result unit :=
  let missing := List.filter (Applications.falsyField serviceData) requiredServiceFields in
  if (0 <? length missing)%nat
  then Throw (Error ("Missing required fields: " ++ join ", " missing))
  else if negb (includes validCategories (Applications.field serviceData "category"))
  then Throw (Error "Invalid service category")
  else Ok tt.

Definition sampleService : Applications.FormData :=
  <["name" := "Birth Certificate"]>
    (<["description" := "Issue of a birth certificate"]>
       {[ "category" := "certificate" ]}).

End Services.

(** ** The validators in the words of their specification

    What follows does not come from the code: it says with lookups,
    lists of characters and literal texts what the specification means
    by an absent field, a conventional e-mail address and the digits of
    a phone number. *)
Module ValidatorSpec.
Import Applications.

(** A field is absent when the form has no such key or holds the empty
    string under it, and present when it holds a non-empty string. *)
Definition absent (data : FormData) (f : string) : Prop :=
  data !! f = None \/ data !! f = Some "".

Definition present (data : FormData) (f : string) : Prop :=
  exists v, data !! f = Some v /\ v <> "".

(** The white-space characters: tab, line feed, vertical tab, form
    feed, carriage return and space. *)
Definition whiteSpace : list ascii :=
  List.map ascii_of_nat [9; 10; 11; 12; 13; 32].

(** A character of a part of an address: neither white space nor the
    at-sign. *)
Definition addressChar (c : ascii) : bool :=
  negb (existsb (Ascii.eqb c) whiteSpace) && negb (Ascii.eqb c "@").

(** A part of an address: at least one character, all of them address
    characters. *)
Definition addressPart (s : string) : Prop :=
  s <> "" /\ forallb addressChar (list_ascii_of_string s) = true.

(** local@domain.tld *)
Definition localAtDomainTld (s : string) : Prop :=
  exists l d t : string,
    s = (l ++ "@" ++ d ++ "." ++ t)%string /\
    addressPart l /\ addressPart d /\ addressPart t.

Definition decimalDigits : list ascii :=
  ["0"; "1"; "2"; "3"; "4"; "5"; "6"; "7"; "8"; "9"]%char.

(** The number of digits that are left when every other character is
    stripped. *)
Definition digitsIn (s : string) : nat :=
  length (List.filter (fun c => existsb (Ascii.eqb c) decimalDigits)
            (list_ascii_of_string s)).

End ValidatorSpec.

(** ** The buffered logger (logger.js) *)
Module Logger.

Record LogEntry : Type := mkLogEntry {
  timestamp : Z;                       (* the instant [toISOString] renders *)
  level : string;
  message : string;
  data : Js.value;
  context : list (string * Js.value);
  id : string
}.

(** What the host supplies to one call of [log]: the clock, the random
    suffix of the id, and the globals [navigator] and [window]. *)
Record Env : Type := mkEnv {
  clock : Z;
  random : string;
  navigatorUserAgent : option string;  (* [None]: [navigator] is undefined *)
  windowHref : option string           (* [None]: [window] is undefined *)
}.

Record Logger : Type := mkLogger {
  db : bool;                           (* a Firestore handle was supplied *)
  enableConsole : bool;
  enableFirestore : bool;
  sessionId : string;
  logBuffer : list LogEntry;
  maxBufferSize : nat
}.

(** [new Logger(firestore, enableConsole, enableFirestore)] *)
Definition newLogger (firestore enableConsole enableFirestore : bool)
           (sessionId : string) : Logger :=
  mkLogger firestore enableConsole enableFirestore sessionId [] 100.

Definition setLogBuffer (b : list LogEntry) (l : Logger) : Logger :=
  mkLogger (db l) (enableConsole l) (enableFirestore l) (sessionId l)
           b (maxBufferSize l).

(** What a call does to the outside. *)
Inductive effect : Type :=
| ConsoleLog (e : LogEntry)            (* [logToConsole(e)] *)
| ConsoleFlushed (n : nat)             (* "[LOGGER] Flushed n logs to Firestore" *)
| ConsoleError                         (* "Failed to flush logs to Firestore:" *)
| Commit (batch : list LogEntry)       (* [batch.commit()] of these entries *)
| Dispatch (e : LogEntry).             (* [window.dispatchEvent] of the 'log' event *)

Definition sensitiveFields : list string :=
  ["password"; "token"; "secret"; "key"; "auth"; "credential"].

Definition isSensitive (key : string) : bool :=
  let lowerKey := Js.toLowerCase key in
  existsb (fun field => Js.stringIncludes lowerKey field) sensitiveFields.

Definition REDACTED : Js.value := Js.Str "[REDACTED]".

Fixpoint sanitizeObject (obj : Js.value) : Js.value :=
  match obj with
  | Js.Arr items => Js.Arr (List.map sanitizeObject items)
  | Js.Obj o =>
      Js.Obj
        (fold_left
           (fun sanitizedObj entry =>
              let key := fst entry in
              if isSensitive key
              then Js.assign key REDACTED sanitizedObj
              else Js.assign key (sanitizeObject (snd entry)) sanitizedObj)
           o [])
  | _ => obj
  end.

Definition sanitizeData (data : Js.value) : Js.value :=
  if negb (Js.truthyValue data) || negb (Js.isObjectType data) then data
  else
    let sanitized := Js.spread data in
    sanitizeObject (Js.Obj sanitized).

(** A value as a JSON text denotes it: every object lists its keys in
    enumeration order and has no own key ["__proto__"]. *)
Fixpoint plain (v : Js.value) : bool :=
  match v with
  | Js.Arr items => forallb plain items
  | Js.Obj o =>
      Js.enumerationOrder [] (List.map fst o)
      && negb (includes (List.map fst o) "__proto__")
      && forallb (fun kv => plain (snd kv)) o
  | _ => true
  end.

(** The sanitizer in the words of the specification: the value under a
    sensitive key is replaced by the marker, every other value is
    sanitized in turn, and nothing else changes. *)
Fixpoint redact (v : Js.value) : Js.value :=
  match v with
  | Js.Arr items => Js.Arr (List.map redact items)
  | Js.Obj o =>
      Js.Obj (List.map (fun kv => (fst kv,
                                   if isSensitive (fst kv) then REDACTED
                                   else redact (snd kv))) o)
  | _ => v
  end.

(** No key anywhere in the value is sensitive. *)
Fixpoint denyFree (v : Js.value) : bool :=
  match v with
  | Js.Arr items => forallb denyFree items
  | Js.Obj o =>
      forallb (fun kv => negb (isSensitive (fst kv)) && denyFree (snd kv)) o
  | _ => true
  end.

Definition optionValue (o : option string) : Js.value :=
  match o with
  | Some s => Js.Str s
  | None => Js.Null
  end.

(** [{ sessionId, userAgent, url, ...context }] *)
Definition makeContext (env : Env) (l : Logger)
           (context : list (string * Js.value)) : list (string * Js.value) :=
  fold_left (fun acc kv => Js.define (fst kv) (snd kv) acc) context
    [("sessionId", Js.Str (sessionId l));
     ("userAgent", optionValue (navigatorUserAgent env));
     ("url", optionValue (windowHref env))].

Definition generateLogId (env : Env) : string :=
  "log_" ++ NilZero.string_of_int (Z.to_int (clock env)) ++ "_" ++ random env.

(** [flushLogs] up to its [await]: the guard, the swap of the buffer
    and the submission of the batch.  The third component is the local
    [logsToFlush] when a commit is now pending. *)
Definition flushLogs_begin (l : Logger)
  : Logger * list effect * option (list LogEntry) :=
  if negb (db l) || (length (logBuffer l) =? 0)%nat then (l, [], None)
  else
    let logsToFlush := logBuffer l in
    (setLogBuffer [] l, [Commit logsToFlush], Some logsToFlush).

(** [flushLogs] after its [await]: [committed] tells whether
    [batch.commit()] resolved or rejected. *)
Definition flushLogs_resume (committed : bool) (logsToFlush : list LogEntry)
           (l : Logger) : Logger * list effect :=
  if committed
  then (l, if enableConsole l then [ConsoleFlushed (length logsToFlush)] else [])
  else
    (* [this.logBuffer.unshift(...this.logBuffer)] *)
    (setLogBuffer (logBuffer l ++ logBuffer l) l, [ConsoleError]).

(** The object literal [logEntry] of [log]. *)
Definition makeLogEntry (env : Env) (level message : string) (data : Js.value)
           (context : list (string * Js.value)) (l : Logger) : LogEntry :=
  mkLogEntry (clock env) (Js.toUpperCase level) message
    (if Js.truthyValue data then sanitizeData data else Js.Null)
    (makeContext env l context)
    (generateLogId env).

(** The result is the logger after the call, what the call did to the
    outside, and the batch whose commit the call left pending, if it
    started a flush. *)
Definition log (env : Env) (level message : string) (data : Js.value)
           (context : list (string * Js.value)) (l : Logger)
  : Logger * list effect * option (list LogEntry) :=
  let logEntry := makeLogEntry env level message data context l in
  let console := if enableConsole l then [ConsoleLog logEntry] else [] in
  let '(l', flushed, pending) :=
    if enableFirestore l && db l
    then
      let l1 := setLogBuffer (logBuffer l ++ [logEntry]) l in
      if (maxBufferSize l1 <=? length (logBuffer l1))%nat
      then flushLogs_begin l1
      else (l1, [], None)
    else (l, [], None) in
  let event :=
    match windowHref env with
    | Some _ => [Dispatch logEntry]
    | None => []
    end in
  (l', console ++ flushed ++ event, pending).

(** *** The logger in its event loop

    Between the submission of a batch and the settlement of its commit
    other calls run.  A [system] is a logger together with the commits
    that are pending (oldest first), the entries the store has
    persisted, and everything done to the outside so far. *)
Record system : Type := mkSystem {
  logger : Logger;
  inflight : list (list LogEntry);
  persisted : list LogEntry;
  trace : list effect
}.

Inductive event : Type :=
| Call (env : Env) (level message : string) (data : Js.value)
       (context : list (string * Js.value))   (* a call of [log] *)
| Flush                                       (* a call of [flushLogs] *)
| Settle (committed : bool).                  (* the oldest pending commit settles *)

Definition enqueue (pending : option (list LogEntry))
           (q : list (list LogEntry)) : list (list LogEntry) :=
  match pending with
  | Some batch => q ++ [batch]
  | None => q
  end.

Definition step (ev : event) (s : system) : system :=
  match ev with
  | Call env level message data context =>
      let '(l', fx, pending) := log env level message data context (logger s) in
      mkSystem l' (enqueue pending (inflight s)) (persisted s) (trace s ++ fx)
  | Flush =>
      let '(l', fx, pending) := flushLogs_begin (logger s) in
      mkSystem l' (enqueue pending (inflight s)) (persisted s) (trace s ++ fx)
  | Settle committed =>
      match inflight s with
      | [] => s
      | logsToFlush :: rest =>
          let '(l', fx) := flushLogs_resume committed logsToFlush (logger s) in
          mkSystem l' rest
            (if committed then persisted s ++ logsToFlush else persisted s)
            (trace s ++ fx)
      end
  end.

Definition run (evs : list event) (s : system) : system :=
  fold_left (fun s ev => step ev s) evs s.

(** The entries submitted by the commits issued in a trace. *)
Fixpoint submitted (fx : list effect) : list (list LogEntry) :=
  match fx with
  | [] => []
  | Commit batch :: rest => batch :: submitted rest
  | _ :: rest => submitted rest
  end.

(** The number of calls of the console sink [logToConsole] in a trace. *)
Fixpoint consoleCalls (fx : list effect) : nat :=
  match fx with
  | [] => O
  | ConsoleLog _ :: rest => S (consoleCalls rest)
  | _ :: rest => consoleCalls rest
  end.

(** Sample data: a logger with the default settings and a Firestore
    handle, one without console output, and two calls. *)
Definition sampleLogger : Logger := newLogger true true true "session_1".
Definition quietLogger : Logger := newLogger true false true "session_1".

Definition env1 : Env := mkEnv 1705400000000%Z "k3x9a" None None.
Definition env2 : Env := mkEnv 1705400000500%Z "p0q7b" None None.

Definition entry1 : LogEntry :=
  makeLogEntry env1 "error" "db down"
    (Js.Obj [("error", Js.Str "timeout")]) [] sampleLogger.
Definition entry2 : LogEntry :=
  makeLogEntry env2 "info" "retrying" Js.Null [] sampleLogger.

(** *** Statistics

    A counter object such as [errorMessages] or [stats.byLevel] holds a
    number under each key it has counted.  Reading a key that names a
    member of [Object.prototype] yields that member instead of
    [undefined]; adding 1 to it makes a string, [NotANumber] here. *)
Inductive counter : Type :=
| Count (n : nat)
| NotANumber.

(** [o[k] = (o[k] || 0) + 1] *)
Definition bump (k : string) (o : Js.props counter) : Js.props counter :=
  match Js.getOwn k o with
  | Some (Count n) => Js.assign k (Count (n + 1)) o
  | Some NotANumber => Js.assign k NotANumber o
  | None =>
      if Js.inherited k then Js.assign k NotANumber o
      else Js.assign k (Count 1) o
  end.

Definition isNumber (c : counter) : bool :=
  match c with
  | Count _ => true
  | NotANumber => false
  end.

Definition countOf (c : counter) : nat :=
  match c with
  | Count n => n
  | NotANumber => O
  end.

(** [(a, b) => b[1] - a[1]] on entries whose values are numbers. *)
Definition byCountDescending (a b : string * counter) : Z :=
  (Z.of_nat (countOf (snd b)) - Z.of_nat (countOf (snd a)))%Z.

Record TopError : Type := mkTopError {
  te_message : string;
  te_count : nat
}.

Record Stats : Type := mkStats {
  total : nat;
  byLevel : Js.props counter;
  errorRate : Q;
  (** [None]: some counted value is not a number, the comparator
      answers NaN and the order of the sort is implementation-defined. *)
  topErrors : option (list TopError)
}.

(** [log.level === 'ERROR'] *)
Definition isError (log : LogEntry) : bool := String.eqb (level log) "ERROR".

(** The body of [logs.forEach] for the two counter objects that the
    error rate and the top errors are computed from: [stats.byLevel]
    and [errorMessages]. *)
Definition tally (logs : list LogEntry)
  : Js.props counter * Js.props counter :=
  fold_left
    (fun acc log =>
       let '(byLevel, errorMessages) := acc in
       (bump (level log) byLevel,
        if isError log
        then bump (message log) errorMessages
        else errorMessages))
    logs ([], []).

(** [([message, count]) => ({ message, count })] *)
Definition topErrorOf (e : string * counter) : TopError :=
  mkTopError (fst e) (countOf (snd e)).

(** [Object.entries(errorMessages).sort(...).slice(0, 10).map(...)] *)
Definition rankTopErrors (errorMessages : Js.props counter)
  : option (list TopError) :=
  if forallb (fun e => isNumber (snd e)) errorMessages
  then Some (List.map topErrorOf
               (firstn 10 (Js.sort byCountDescending errorMessages)))
  else None.

(** The value of [stats] for the entries [logs] that [getLogs] resolved
    to.  The quotient is exact here; JavaScript rounds it to the
    nearest double. *)
Definition statistics (logs : list LogEntry) : Stats :=
  let '(byLevel, errorMessages) := tally logs in
  let errors :=
    match Js.getOwn "ERROR" byLevel with
    | Some c => countOf c
    | None => O
    end in
  mkStats
    (length logs)
    byLevel
    (if (0 <? length logs)%nat
     then Qmake (Z.of_nat errors) (Pos.of_nat (length logs))
     else 0%Q)
    (rankTopErrors errorMessages).

(** The words of the specification about the top errors. *)

(** The messages of the ERROR entries, in the order of the entries. *)
Definition errorsOf (logs : list LogEntry) : list string :=
  List.map message (List.filter isError logs).

(** The frequency of a message. *)
Definition occurrences (m : string) (msgs : list string) : nat :=
  count_occ string_dec msgs m.

(** The position at which a message is seen first. *)
Fixpoint firstIndex (m : string) (msgs : list string) : nat :=
  match msgs with
  | [] => O
  | x :: rest => if String.eqb x m then O else S (firstIndex m rest)
  end.

(** [a] goes before [b]: it is more frequent, or as frequent and seen
    first. *)
Definition ranksBefore (msgs : list string) (a b : TopError) : Prop :=
  te_count b < te_count a \/
  (te_count a = te_count b /\
   firstIndex (te_message a) msgs < firstIndex (te_message b) msgs).

(** What a counter object holds under a key counted [n] times. *)
Definition held (n : nat) : option counter :=
  match n with
  | O => None
  | S _ => Some (Count n)
  end.

(** The keys are the messages, each once, in the order in which the
    messages are seen first. *)
Definition firstSeenOrder (msgs keys : list string) : Prop :=
  NoDup keys /\
  (forall m, In m keys <-> In m msgs) /\
  StronglySorted (fun a b => firstIndex a msgs < firstIndex b msgs) keys.

(** The same order on the entries of the counter object. *)
Definition entryRanks (msgs : list string) (a b : string * counter) : Prop :=
  ranksBefore msgs (topErrorOf a) (topErrorOf b).

Definition errorLog (m : string) : LogEntry :=
  mkLogEntry 0%Z "ERROR" m Js.Null [] "".

Definition getLogStatistics (l : Logger) (logs : list LogEntry) : result Stats :=
  if negb (db l) then Throw (Error "Firestore not initialized")
  else Ok (statistics logs).

(** *** The level filter

    [setLogLevel] writes two fields, [minLevel] and [minLevelIndex],
    that only [shouldLog] reads; both are absent on a new logger. *)
Record LevelFilter : Type := mkLevelFilter {
  minLevel : option string;
  minLevelIndex : option Z
}.

Definition noLevelFilter : LevelFilter := mkLevelFilter None None.

Definition levels : list string := ["DEBUG"; "INFO"; "WARN"; "ERROR"].

Fixpoint indexOfFrom (i : Z) (xs : list string) (x : string) : Z :=
  match xs with
  | [] => (-1)%Z
  | y :: rest => if String.eqb y x then i else indexOfFrom (i + 1)%Z rest x
  end.

(** [Array.prototype.indexOf] *)
Definition indexOf (xs : list string) (x : string) : Z := indexOfFrom 0%Z xs x.

(** The two fields after [setLogLevel(level)]. *)
Definition setLogLevel (level : string) : LevelFilter :=
  let minLevel := Js.toUpperCase level in
  let minLevelIndex := indexOf levels minLevel in
  mkLevelFilter (Some minLevel)
    (Some (if (minLevelIndex =? -1)%Z then 1%Z else minLevelIndex)).

Definition shouldLog (f : LevelFilter) (level : string) : bool :=
  match minLevel f with
  | None => true
  | Some m =>
      if negb (truthy m) then true
      else
        let levelIndex := indexOf levels (Js.toUpperCase level) in
        match minLevelIndex f with
        | Some i => (i <=? levelIndex)%Z
        | None => false
        end
  end.

(** *** Shutdown *)

(** [info(message)] with its default arguments. *)
Definition info (env : Env) (message : string) : event :=
  Call env "info" message Js.Null [].

(** [shutdown()] up to the settlement of its flush: the entry it logs
    and the flush it starts. *)
Definition shutdown (env : Env) (s : system) : system :=
  step Flush (step (info env "Logger shutting down") s).

(** *** Observations on loggers and values *)

(** The logger buffers what it logs. *)
Definition persistent (l : Logger) : bool := enableFirestore l && db l.

(** Every entry the logger still answers for: stored, submitted or
    buffered, oldest first. *)
Definition accounted (s : system) : list LogEntry :=
  persisted s ++ concat (inflight s) ++ logBuffer (logger s).

(** The entries that the calls of [log] among the events make. *)
Definition entriesLogged (l : Logger) (evs : list event) : list LogEntry :=
  flat_map (fun ev => match ev with
                      | Call env level message data context =>
                          [makeLogEntry env level message data context l]
                      | _ => []
                      end) evs.

(** No commit is rejected among the events. *)
Definition noRejection (evs : list event) : bool :=
  forallb (fun ev => match ev with
                     | Settle false => false
                     | _ => true
                     end) evs.

Definition isRedacted (v : Js.value) : bool :=
  match v with
  | Js.Str s => String.eqb s "[REDACTED]"
  | _ => false
  end.

(** Whatever stands under a sensitive key, at any depth, is the
    marker. *)
Fixpoint leakFree (v : Js.value) : bool :=
  match v with
  | Js.Arr items => forallb leakFree items
  | Js.Obj o =>
      forallb (fun kv => if isSensitive (fst kv) then isRedacted (snd kv)
                         else leakFree (snd kv)) o
  | _ => true
  end.

(** The sum of the numbers of a counter object. *)
Definition sumCounts (o : Js.props counter) : nat :=
  list_sum (List.map (fun e => countOf (snd e)) o).

(** No character of an upper-cased string is a small letter. *)
Definition noLowerChar (c : ascii) : bool :=
  let n := nat_of_ascii c in negb ((97 <=? n)%nat && (n <=? 122)%nat).

End Logger.

(** ** Services (services.js, continued): documents, categories and
    statistics *)
Module ServiceReports.

(** [s.split(',')] for a separator of one character. *)
Fixpoint split (sep : ascii) (s : string) : list string :=
  match s with
  | EmptyString => [EmptyString]
  | String c s' =>
      if Ascii.eqb c sep then EmptyString :: split sep s'
      else match split sep s' with
           | x :: rest => String c x :: rest
           | [] => [String c EmptyString]
           end
  end.

Fixpoint trimStart (s : string) : string :=
  match s with
  | EmptyString => EmptyString
  | String c s' => if Regex.isSpace c then trimStart s' else s
  end.

Fixpoint trimEnd (s : string) : string :=
  match s with
  | EmptyString => EmptyString
  | String c s' =>
      match trimEnd s' with
      | EmptyString => if Regex.isSpace c then EmptyString else String c EmptyString
      | t => String c t
      end
  end.

(** [s.trim()] *)
Definition trim (s : string) : string := trimEnd (trimStart s).

(** [documentsString] is [None] when the form has no such field. *)
Definition parseDocuments (documentsString : option string) : list string :=
  match documentsString with
  | None => []
  | Some s =>
      if negb (truthy s) then []
      else List.filter (fun doc => (0 <? String.length doc)%nat)
             (List.map trim (split "," s))
  end.

(** A name of a required document as [parseDocuments] keeps it:
    not empty, without a comma, without white space at either end. *)
Fixpoint hasChar (c : ascii) (s : string) : bool :=
  match s with
  | EmptyString => false
  | String c' s' => Ascii.eqb c' c || hasChar c s'
  end.

Definition documentName (s : string) : bool :=
  negb (String.eqb s "") && negb (hasChar "," s) && String.eqb (trim s) s.

(** The fields of a service that the reports read. *)
Record ServiceDoc : Type := mkServiceDoc {
  sd_id : string;
  sd_name : string;
  sd_description : string;
  sd_category : string
}.

(** A [Map] from strings to numbers: its entries in insertion order. *)
Definition JsMap : Type := list (string * nat).

Fixpoint mapGet (k : string) (m : JsMap) : option nat :=
  match m with
  | [] => None
  | (k', v) :: rest => if String.eqb k' k then Some v else mapGet k rest
  end.

(** [m.set(k, v)]: a key that is there keeps its place. *)
Fixpoint mapSet (k : string) (v : nat) (m : JsMap) : JsMap :=
  match m with
  | [] => [(k, v)]
  | (k', v') :: rest =>
      if String.eqb k' k then (k', v) :: rest
      else (k', v') :: mapSet k v rest
  end.

(** [m.set(k, (m.get(k) || 0) + 1)] *)
Definition mapBump (k : string) (m : JsMap) : JsMap :=
  mapSet k (match mapGet k m with
            | Some n => n
            | None => O
            end + 1) m.

Definition displayNames : list (string * string) :=
  [("certificate", "Certificates"); ("license", "Licenses");
   ("welfare", "Welfare Schemes"); ("other", "Other Services")].

(** [displayNames[category] || category]; [None] when the table
    answers with a member of [Object.prototype], which is not a
    string. *)
Definition getCategoryDisplayName (category : string) : option string :=
  match Js.getOwn category displayNames with
  | Some name => Some name
  | None => if Js.inherited category then None else Some category
  end.

Record CategoryCount : Type := mkCategoryCount {
  cc_name : string;
  cc_count : nat;
  cc_displayName : option string
}.

Record PopularService : Type := mkPopularService {
  ps_serviceId : string;
  ps_applicationCount : nat;
  ps_serviceName : string
}.

(** [(a, b) => b[1] - a[1]] on the entries of a map. *)
Definition byApplicationsDescending (a b : string * nat) : Z :=
  (Z.of_nat (snd b) - Z.of_nat (snd a))%Z.

(** [services.find(s => s.id === serviceId)?.name || 'Unknown'] *)
Definition serviceNameOf (services : list ServiceDoc) (serviceId : string) : string :=
  match List.find (fun s => String.eqb (sd_id s) serviceId) services with
  | Some s => orElse (sd_name s) "Unknown"
  | None => "Unknown"
  end.

Record ServiceStatistics : Type := mkServiceStatistics {
  totalServices : nat;
  totalApplications : nat;
  categoryCounts : Js.props Logger.counter;
  popularServices : list PopularService
}.

(** The three reports are stated for whatever computations stand for
    the queries [getServices()] and
    [db.collection('applications').get()]. *)
Section Fetched.
Import Applications.
Local Open Scope js_scope.
Variable getServices : M (list ServiceDoc).
Variable getApplications : M (list Application).

Definition getServiceCategories : M (list CategoryCount) :=
  tryCatch
    (services <- getServices ;;
     let categoryMap :=
       fold_left (fun m service => mapBump (sd_category service) m) services [] in
     ret (List.map (fun e => mkCategoryCount (fst e) (snd e)
                               (getCategoryDisplayName (fst e)))
            categoryMap))
    (fun e =>
       logger_error "Failed to get service categories" ;;;
       throw e).

Definition getServiceStatistics : M ServiceStatistics :=
  tryCatch
    (services <- getServices ;;
     applications <- getApplications ;;
     let categoryCounts :=
       fold_left (fun o service => Logger.bump (sd_category service) o) services [] in
     let serviceApplicationCounts :=
       fold_left (fun m app => mapBump (serviceId app) m) applications [] in
     let popularServices :=
       List.map (fun e => mkPopularService (fst e) (snd e)
                            (serviceNameOf services (fst e)))
         (firstn 5 (Js.sort byApplicationsDescending serviceApplicationCounts)) in
     logger_info "Service statistics generated" ;;;
     ret (mkServiceStatistics (length services) (length applications)
            categoryCounts popularServices))
    (fun e =>
       logger_error "Failed to get service statistics" ;;;
       throw e).
End Fetched.

(** The words for the ranking of services: [a] goes before [b] when it
    has more applications, or as many and its first application comes
    first. *)
Definition outranks (ids : list string) (a b : PopularService) : Prop :=
  ps_applicationCount b < ps_applicationCount a \/
  (ps_applicationCount a = ps_applicationCount b /\
   Logger.firstIndex (ps_serviceId a) ids < Logger.firstIndex (ps_serviceId b) ids).

End ServiceReports.

(** ** Applications (applications.js, continued): statistics *)
Module ApplicationReports.
Import Applications.

Fixpoint zeros (n : nat) : string :=
  match n with
  | O => ""
  | S n' => String "0" (zeros n')
  end.

(** [s.padStart(n, '0')] *)
Definition padStart (n : nat) (s : string) : string :=
  zeros (n - String.length s) ++ s.

(** The year of [toISOString]: four digits for the years 0 to 9999, a
    sign and six digits for the others. *)
Definition isoYear (y : Z) : string :=
  if (0 <=? y)%Z && (y <=? 9999)%Z then padStart 4 (decimal y)
  else (if (y <? 0)%Z then "-" else "+") ++ padStart 6 (decimal (Z.abs y)).

(** [date.toISOString()] up to the day of the month; the time of day
    follows it. *)
Definition isoDate (t : timestamp) : string :=
  isoYear (JsDate.YearFromTime t)
    ++ "-" ++ padStart 2 (decimal (JsDate.MonthFromTime t + 1))
    ++ "-" ++ padStart 2 (decimal (JsDate.DateFromTime t)).

(** [app.appliedAt.toISOString().substring(0, 7)] *)
Definition monthKey (appliedAt : timestamp) : string :=
  substring 0 7 (isoDate appliedAt).

(** The counts of [stats]; [averageProcessingTime], a quotient of sums
    of doubles, is left out. *)
Record ApplicationStatistics : Type := mkApplicationStatistics {
  as_total : nat;
  byStatus : Js.props Logger.counter;
  byService : Js.props Logger.counter;
  byMonth : Js.props Logger.counter;
  priorityDistribution : Js.props Logger.counter
}.

(** The body of [applications.forEach]. *)
Definition countApplication (stats : ApplicationStatistics) (app : Application)
  : ApplicationStatistics :=
  let serviceName := orElse (serviceName app) "Unknown" in
  let monthKey := monthKey (appliedAt app) in
  let priority := orElse (priority app) "normal" in
  mkApplicationStatistics
    (as_total stats)
    (Logger.bump (status app) (byStatus stats))
    (Logger.bump serviceName (byService stats))
    (Logger.bump monthKey (byMonth stats))
    (Logger.bump priority (priorityDistribution stats)).

Section Fetched.
Local Open Scope js_scope.
Variable getAllApplications : M (list Application).

Definition getApplicationStatistics : M ApplicationStatistics :=
  tryCatch
    (applications <- getAllApplications ;;
     let stats := mkApplicationStatistics (length applications) [] [] [] [] in
     ret (fold_left countApplication applications stats))
    (fun e =>
       logger_error "Failed to get application statistics" ;;;
       throw e).
End Fetched.

End ApplicationReports.

(** * Properties of the regular-expression matcher *)
Section RegexFacts.
Import Regex.
Local Open Scope string_scope.
Local Arguments String.append : simpl nomatch.

Lemma append_empty_inv (s1 s2 : string) :
  s1 ++ s2 = "" -> s1 = "" /\ s2 = "".
Proof. destruct s1; simpl; [auto | discriminate]. Qed.

Lemma append_cons_inv (s1 s2 : string) c s :
  s1 ++ s2 = String c s ->
  (s1 = "" /\ s2 = String c s) \/
  (exists s1', s1 = String c s1' /\ s = s1' ++ s2).
Proof.
  destruct s1 as [|c1 s1]; simpl; intros H.
  - left; auto.
  - inversion H; subst. right; eauto.
Qed.

Lemma append_empty_r (s : string) : s ++ "" = s.
Proof. induction s; simpl; congruence. Qed.

Lemma append_assoc (s1 s2 s3 : string) : (s1 ++ s2) ++ s3 = s1 ++ (s2 ++ s3).
Proof. induction s1; simpl; congruence. Qed.

Lemma append_length (s1 s2 : string) :
  String.length (s1 ++ s2) = String.length s1 + String.length s2.
Proof. induction s1; simpl; congruence. Qed.

Lemma nullable_denotes r : nullable r = true <-> denotes r "".
Proof.
  split.
  - induction r; simpl; intros H; try discriminate.
    + constructor.
    + apply andb_true_iff in H as [H1 H2].
      change "" with ("" ++ ""). constructor; auto.
    + apply orb_true_iff in H as [H|H]; [apply DAltL | apply DAltR]; auto.
    + constructor.
  - intros H. remember "" as s eqn:Hs. induction H; simpl; auto; try discriminate.
    + apply append_empty_inv in Hs as [-> ->]. rewrite IHdenotes1, IHdenotes2; auto.
    + rewrite IHdenotes; auto.
    + rewrite IHdenotes; auto. apply orb_true_r.
Qed.

Lemma star_cons_inv r c s :
  denotes (Star r) (String c s) ->
  exists s1 s2, s = s1 ++ s2 /\ denotes r (String c s1) /\ denotes (Star r) s2.
Proof.
  intros H. remember (Star r) as r' eqn:Hr. remember (String c s) as s' eqn:Hs.
  revert s Hs. induction H; intros s0 Hs; try discriminate.
  inversion Hr; subst r0.
  apply append_cons_inv in Hs as [[-> ->] | (s1' & -> & ->)].
  - apply IHdenotes2; auto.
  - exists s1', s2. auto.
Qed.

Ltac invert H := inversion H; subst; clear H.

Ltac denotes_step IH1 IH2 :=
  match goal with
  | H : denotes Never _ |- _ => invert H
  | H : denotes Eps _ |- _ => invert H
  | H : denotes (Class _) _ |- _ => invert H
  | H : denotes (Seq _ _) _ |- _ => invert H
  | H : denotes (Alt _ _) _ |- _ => invert H
  | H : denotes (deriv _ _) _ |- _ => first [apply IH1 in H | apply IH2 in H]
  | H : (_ ++ _)%string = String _ _ |- _ =>
      apply append_cons_inv in H as [[-> ->] | (? & -> & ->)]
  end.

Lemma seq_cons c s1 s2 r1 r2 :
  denotes r1 (String c s1) -> denotes r2 s2 ->
  denotes (Seq r1 r2) (String c (s1 ++ s2)).
Proof.
  intros H1 H2. change (String c (s1 ++ s2)) with (String c s1 ++ s2).
  constructor; auto.
Qed.

Lemma seq_nil s r1 r2 :
  denotes r1 "" -> denotes r2 s -> denotes (Seq r1 r2) s.
Proof.
  intros H1 H2. change s with ("" ++ s). constructor; auto.
Qed.

Ltac denotes_close IH1 IH2 :=
  solve
    [ apply seq_cons; auto
    | apply seq_nil; [apply nullable_denotes; auto | auto]
    | apply DAltL; apply IH1; auto
    | apply DAltR; apply IH2; auto
    | apply DAltL; constructor; auto; apply IH1; auto
    | constructor; auto; apply IH1; auto
    | exfalso;
      match goal with
      | H : denotes _ "" |- _ => apply nullable_denotes in H; congruence
      end ].

Lemma deriv_denotes r : forall c s, denotes (deriv c r) s <-> denotes r (String c s).
Proof.
  induction r; intros c s; simpl.
  - split; intros H; invert H.
  - split; intros H; invert H.
  - destruct (p c) eqn:Hp; split; intros H; invert H.
    + constructor; auto.
    + constructor.
    + congruence.
  - destruct (nullable r1) eqn:Hn; split; intros H;
      repeat denotes_step IHr1 IHr2; denotes_close IHr1 IHr2.
  - split; intros H; repeat denotes_step IHr1 IHr2; denotes_close IHr1 IHr2.
  - split; intros H.
    + repeat denotes_step IHr IHr.
      change (String c (s1 ++ s2)) with (String c s1 ++ s2).
      constructor; auto.
    + apply star_cons_inv in H as (s1 & s2 & -> & H1 & H2).
      constructor; auto. apply IHr; auto.
Qed.

(** The matcher decides the language of the expression. *)
Lemma test_denotes s : forall r, test r s = true <-> denotes r s.
Proof.
  induction s as [|c s IH]; intros r; simpl.
  - apply nullable_denotes.
  - rewrite IH. apply deriv_denotes.
Qed.

Lemma allChars_append p s1 s2 :
  allChars p (s1 ++ s2) = allChars p s1 && allChars p s2.
Proof. induction s1; simpl; auto. rewrite IHs1. apply andb_assoc. Qed.

Lemma class_denotes p s :
  denotes (Class p) s -> exists c, s = String c "" /\ p c = true.
Proof. intros H. invert H. eauto. Qed.

Lemma seq_denotes r1 r2 s :
  denotes (Seq r1 r2) s ->
  exists s1 s2, s = s1 ++ s2 /\ denotes r1 s1 /\ denotes r2 s2.
Proof. intros H. invert H. eauto. Qed.

Lemma star_class_denotes p s :
  denotes (Star (Class p)) s <-> allChars p s = true.
Proof.
  split.
  - intros H. remember (Star (Class p)) as r eqn:Hr.
    induction H; try discriminate; auto.
    inversion Hr; subst.
    apply class_denotes in H as (c & -> & Hc). simpl.
    rewrite Hc, IHdenotes2; auto.
  - induction s as [|c s IH]; simpl; intros H.
    + constructor.
    + apply andb_true_iff in H as [H1 H2].
      change (String c s) with (String c "" ++ s).
      constructor; [constructor|]; auto.
Qed.

Lemma plus_class_denotes p s :
  denotes (Plus (Class p)) s <-> s <> "" /\ allChars p s = true.
Proof.
  unfold Plus. split.
  - intros H. apply seq_denotes in H as (s1 & s2 & -> & H1 & H2).
    apply class_denotes in H1 as (c & -> & Hc).
    apply star_class_denotes in H2. simpl. rewrite Hc, H2.
    split; [discriminate|auto].
  - intros [Hne H]. destruct s as [|c s]; [congruence|].
    simpl in H. apply andb_true_iff in H as [H1 H2].
    change (String c s) with (String c "" ++ s).
    constructor; [constructor; auto | apply star_class_denotes; auto].
Qed.

Lemma repeat_class_denotes p n : forall s,
  denotes (Repeat n (Class p)) s <-> allChars p s = true /\ String.length s = n.
Proof.
  induction n as [|n IH]; intros s; simpl.
  - split.
    + intros H; invert H; auto.
    + intros [_ H]. destruct s; [constructor | discriminate].
  - split.
    + intros H. apply seq_denotes in H as (s1 & s2 & -> & H1 & H2).
      apply class_denotes in H1 as (c & -> & Hc).
      apply IH in H2 as [H2 H3]. simpl. rewrite Hc, H2, H3. auto.
    + intros [H1 H2]. destruct s as [|c s]; [discriminate|].
      simpl in *. apply andb_true_iff in H1 as [Hc Hs].
      change (String c s) with (String c "" ++ s).
      constructor; [constructor; auto | apply IH; auto].
Qed.

Lemma upto_class_denotes p n : forall s,
  denotes (UpTo n (Class p)) s <-> allChars p s = true /\ String.length s <= n.
Proof.
  induction n as [|n IH]; intros s; simpl.
  - split.
    + intros H; invert H; auto.
    + intros [_ H]. destruct s; [constructor | simpl in H; lia].
  - split.
    + intros H. invert H.
      * match goal with H : denotes Eps _ |- _ => invert H end.
        simpl. split; [auto | lia].
      * match goal with H : denotes (Seq _ _) _ |- _ =>
          apply seq_denotes in H as (s1 & s2 & -> & H1 & H2) end.
        apply class_denotes in H1 as (c & -> & Hc).
        apply IH in H2 as [H2 H3]. simpl. rewrite Hc, H2. split; [auto | lia].
    + intros [H1 H2]. destruct s as [|c s]; [apply DAltL; constructor|].
      simpl in *. apply andb_true_iff in H1 as [Hc Hs]. apply DAltR.
      change (String c s) with (String c "" ++ s).
      constructor; [constructor; auto | apply IH; split; auto; lia].
Qed.

Lemma split_at n : forall s : string,
  n <= String.length s ->
  exists s1 s2, s = s1 ++ s2 /\ String.length s1 = n.
Proof.
  induction n as [|n IH]; intros s H.
  - exists "", s. auto.
  - destruct s as [|c s]; [simpl in H; lia|].
    simpl in H. destruct (IH s) as (s1 & s2 & -> & Hl); [lia|].
    exists (String c s1), s2. simpl. auto.
Qed.

Lemma range_class_denotes p lo hi s :
  lo <= hi ->
  denotes (Range lo hi (Class p)) s <->
  allChars p s = true /\ lo <= String.length s <= hi.
Proof.
  intros Hle. unfold Range. split.
  - intros H. apply seq_denotes in H as (s1 & s2 & -> & H1 & H2).
    apply repeat_class_denotes in H1 as [H1 H1'].
    apply upto_class_denotes in H2 as [H2 H2'].
    rewrite allChars_append, append_length, H1, H2. split; [auto | lia].
  - intros [H1 [H2 H3]].
    destruct (split_at lo s H2) as (s1 & s2 & -> & Hl).
    rewrite allChars_append in H1. apply andb_true_iff in H1 as [Ha Hb].
    rewrite append_length in H3.
    constructor; [apply repeat_class_denotes | apply upto_class_denotes];
      split; auto; lia.
Qed.

Lemma stripNonDigits_digits s : allChars isDigit (stripNonDigits s) = true.
Proof.
  induction s as [|c s IH]; simpl; auto.
  destruct (isDigit c) eqn:Hc; simpl; rewrite ?Hc; auto.
Qed.

Lemma stripNonDigits_length s : String.length (stripNonDigits s) = digitCount s.
Proof.
  induction s as [|c s IH]; simpl; auto.
  destruct (isDigit c); simpl; auto.
Qed.
End RegexFacts.

(** * Properties of the validators *)
Section ValidatorFacts.
Import Regex Applications ValidatorSpec.
Local Open Scope string_scope.
Local Arguments String.append : simpl nomatch.

Lemma isChar_eq a c : isChar a c = true -> c = a.
Proof. unfold isChar. intros H. apply Ascii.eqb_eq in H. auto. Qed.

(** [emailRegex] accepts exactly the strings of the shape
    local@domain.tld. *)
Lemma emailRegex_conventional s :
  test emailRegex s = true <-> conventionalEmail s.
Proof.
  rewrite test_denotes. unfold emailRegex, conventionalEmail, emailPart. split.
  - intros H.
    apply seq_denotes in H as (l & s1 & -> & Hl & H).
    apply seq_denotes in H as (a & s2 & -> & Ha & H).
    apply seq_denotes in H as (d & s3 & -> & Hd & H).
    apply seq_denotes in H as (b & t & -> & Hb & Ht).
    apply class_denotes in Ha as (ca & -> & Hca). apply isChar_eq in Hca as ->.
    apply class_denotes in Hb as (cb & -> & Hcb). apply isChar_eq in Hcb as ->.
    apply plus_class_denotes in Hl, Hd, Ht.
    exists l, d, t. auto.
  - intros (l & d & t & -> & Hl & Hd & Ht).
    apply plus_class_denotes in Hl, Hd, Ht.
    repeat (constructor; auto).
Qed.

(** [phoneRegex] accepts the stripped phone number exactly when the
    number has 10 to 15 digits. *)
Lemma phoneRegex_digits s :
  test phoneRegex (stripNonDigits s) = true <-> 10 <= digitCount s <= 15.
Proof.
  rewrite test_denotes. unfold phoneRegex.
  rewrite range_class_denotes by lia.
  rewrite stripNonDigits_digits, stripNonDigits_length. tauto.
Qed.

Lemma missing_lists_absent (data : FormData) required f :
  In f required -> data !! f = None ->
  In f (List.filter (falsyField data) required).
Proof.
  intros Hin Hnone. apply filter_In. split; auto.
  unfold falsyField. rewrite Hnone. reflexivity.
Qed.

Lemma length_pos_nonempty {A} (l : list A) :
  (0 <? length l)%nat = true <-> l <> [].
Proof.
  destruct l; simpl; split; intros H; try congruence; auto.
Qed.

Lemma validateApplicationData_cases data :
  let missing := List.filter (falsyField data) requiredApplicationFields in
  validateApplicationData data =
    if (0 <? length missing)%nat
    then Throw (Error ("Missing required fields: " ++ join ", " missing))
    else if negb (test emailRegex (field data "applicantEmail"))
    then Throw (Error "Invalid email format")
    else if negb (test phoneRegex (stripNonDigits (field data "applicantPhone")))
    then Throw (Error "Invalid phone number format")
    else Ok tt.
Proof. reflexivity. Qed.

(** A failed validation makes [submitApplication] fail with the same
    error before any call to the store. *)
Lemma submitApplication_invalid data e w :
  validateApplicationData data = Throw e ->
  submitApplication data w =
    (Throw e,
     setLoggerCalls (loggerCalls w ++ [LogError "Failed to submit application"]) w).
Proof.
  intros H. unfold submitApplication, tryCatch, bind at 1, lift.
  rewrite H. reflexivity.
Qed.

Lemma absent_falsy data f : absent data f -> falsyField data f = true.
Proof. unfold falsyField. intros [H|H]; rewrite H; reflexivity. Qed.

Lemma present_truthy data f : present data f -> falsyField data f = false.
Proof.
  unfold falsyField. intros (v & H & Hv). rewrite H.
  unfold truthy. apply String.eqb_neq in Hv. rewrite Hv. reflexivity.
Qed.

Lemma falsy_absent data f : falsyField data f = true -> absent data f.
Proof.
  unfold falsyField, absent. destruct (data !! f) as [v|]; [|auto].
  unfold truthy. rewrite negb_involutive. intros H.
  apply String.eqb_eq in H. subst v. auto.
Qed.

Lemma truthy_present data f : falsyField data f = false -> present data f.
Proof.
  unfold falsyField, present. destruct (data !! f) as [v|]; [|discriminate].
  unfold truthy. rewrite negb_involutive. intros H.
  apply String.eqb_neq in H. eauto.
Qed.

Lemma present_field data f v : data !! f = Some v -> field data f = v.
Proof. unfold field. intros ->. reflexivity. Qed.

(** The classes of the two regular expressions are the characters the
    specification names. *)
Lemma notSpaceAt_addressChar c : notSpaceAt c = addressChar c.
Proof. destruct c as [[] [] [] [] [] [] [] []]; reflexivity. Qed.

Lemma isDigit_decimalDigits c :
  isDigit c = existsb (Ascii.eqb c) decimalDigits.
Proof. destruct c as [[] [] [] [] [] [] [] []]; reflexivity. Qed.

Lemma allChars_addressChar s :
  allChars notSpaceAt s = forallb addressChar (list_ascii_of_string s).
Proof.
  induction s as [|c s IH]; [reflexivity|].
  cbn [allChars list_ascii_of_string forallb].
  rewrite IH, notSpaceAt_addressChar. reflexivity.
Qed.

Lemma emailPart_addressPart s : emailPart s <-> addressPart s.
Proof. unfold emailPart, addressPart. rewrite allChars_addressChar. tauto. Qed.

Lemma conventionalEmail_localAtDomainTld s :
  conventionalEmail s <-> localAtDomainTld s.
Proof.
  unfold conventionalEmail, localAtDomainTld. split.
  - intros (l & d & t & E & Hl & Hd & Ht). exists l, d, t.
    rewrite <- !emailPart_addressPart. auto.
  - intros (l & d & t & E & Hl & Hd & Ht). exists l, d, t.
    rewrite !emailPart_addressPart. auto.
Qed.

Lemma digitCount_digitsIn s : digitCount s = digitsIn s.
Proof.
  unfold digitsIn. induction s as [|c s IH]; [reflexivity|].
  cbn [digitCount list_ascii_of_string List.filter].
  rewrite <- isDigit_decimalDigits.
  destruct (isDigit c); cbn [length]; rewrite IH; reflexivity.
Qed.

Ltac by_fields :=
  intros;
  repeat match goal with
         | H : absent _ _ |- _ => apply absent_falsy in H
         | H : present _ _ |- _ => apply present_truthy in H
         end;
  unfold validateApplicationData, requiredApplicationFields,
    Services.validateServiceData, Services.requiredServiceFields;
  cbn [List.filter];
  repeat match goal with
         | H : falsyField _ _ = _ |- _ => rewrite H; clear H
         end;
  try reflexivity.

(** C6.  The application validator fails with a message that lists, in
    the order serviceId, applicantName, applicantEmail, applicantPhone,
    every one of these four fields that is absent (or empty), whichever
    they are; on [{serviceId: 's1'}] the list is applicantName,
    applicantEmail, applicantPhone.  With all four present it rejects
    an e-mail address that is not of the shape local@domain.tld with
    "Invalid email format", then a phone number that has fewer than 10
    or more than 15 digits with "Invalid phone number format", and
    accepts otherwise; so it rejects the address "a b@@c.d e", an
    address without a dot after the at-sign, the phone number
    "not a number" and phone numbers of 9 and of 16 digits.  It is a
    function of its argument alone, and when it fails
    [submitApplication] fails with the same error without a single
    call to the store. *)
Theorem validateApplicationData_spec (data : FormData) :
  (absent data "serviceId" ->
   absent data "applicantName" ->
   absent data "applicantEmail" ->
   absent data "applicantPhone" ->
   validateApplicationData data =
     Throw (Error "Missing required fields: serviceId, applicantName, applicantEmail, applicantPhone")) /\
  (absent data "serviceId" ->
   absent data "applicantName" ->
   absent data "applicantEmail" ->
   present data "applicantPhone" ->
   validateApplicationData data =
     Throw (Error "Missing required fields: serviceId, applicantName, applicantEmail")) /\
  (absent data "serviceId" ->
   absent data "applicantName" ->
   present data "applicantEmail" ->
   absent data "applicantPhone" ->
   validateApplicationData data =
     Throw (Error "Missing required fields: serviceId, applicantName, applicantPhone")) /\
  (absent data "serviceId" ->
   absent data "applicantName" ->
   present data "applicantEmail" ->
   present data "applicantPhone" ->
   validateApplicationData data =
     Throw (Error "Missing required fields: serviceId, applicantName")) /\
  (absent data "serviceId" ->
   present data "applicantName" ->
   absent data "applicantEmail" ->
   absent data "applicantPhone" ->
   validateApplicationData data =
     Throw (Error "Missing required fields: serviceId, applicantEmail, applicantPhone")) /\
  (absent data "serviceId" ->
   present data "applicantName" ->
   absent data "applicantEmail" ->
   present data "applicantPhone" ->
   validateApplicationData data =
     Throw (Error "Missing required fields: serviceId, applicantEmail")) /\
  (absent data "serviceId" ->
   present data "applicantName" ->
   present data "applicantEmail" ->
   absent data "applicantPhone" ->
   validateApplicationData data =
     Throw (Error "Missing required fields: serviceId, applicantPhone")) /\
  (absent data "serviceId" ->
   present data "applicantName" ->
   present data "applicantEmail" ->
   present data "applicantPhone" ->
   validateApplicationData data =
     Throw (Error "Missing required fields: serviceId")) /\
  (present data "serviceId" ->
   absent data "applicantName" ->
   absent data "applicantEmail" ->
   absent data "applicantPhone" ->
   validateApplicationData data =
     Throw (Error "Missing required fields: applicantName, applicantEmail, applicantPhone")) /\
  (present data "serviceId" ->
   absent data "applicantName" ->
   absent data "applicantEmail" ->
   present data "applicantPhone" ->
   validateApplicationData data =
     Throw (Error "Missing required fields: applicantName, applicantEmail")) /\
  (present data "serviceId" ->
   absent data "applicantName" ->
   present data "applicantEmail" ->
   absent data "applicantPhone" ->
   validateApplicationData data =
     Throw (Error "Missing required fields: applicantName, applicantPhone")) /\
  (present data "serviceId" ->
   absent data "applicantName" ->
   present data "applicantEmail" ->
   present data "applicantPhone" ->
   validateApplicationData data =
     Throw (Error "Missing required fields: applicantName")) /\
  (present data "serviceId" ->
   present data "applicantName" ->
   absent data "applicantEmail" ->
   absent data "applicantPhone" ->
   validateApplicationData data =
     Throw (Error "Missing required fields: applicantEmail, applicantPhone")) /\
  (present data "serviceId" ->
   present data "applicantName" ->
   absent data "applicantEmail" ->
   present data "applicantPhone" ->
   validateApplicationData data =
     Throw (Error "Missing required fields: applicantEmail")) /\
  (present data "serviceId" ->
   present data "applicantName" ->
   present data "applicantEmail" ->
   absent data "applicantPhone" ->
   validateApplicationData data =
     Throw (Error "Missing required fields: applicantPhone")) /\
  (present data "serviceId" -> present data "applicantName" ->
   forall email phone,
     data !! "applicantEmail" = Some email -> email <> "" ->
     data !! "applicantPhone" = Some phone -> phone <> "" ->
     (~ localAtDomainTld email ->
      validateApplicationData data = Throw (Error "Invalid email format")) /\
     (localAtDomainTld email -> ~ 10 <= digitsIn phone <= 15 ->
      validateApplicationData data = Throw (Error "Invalid phone number format")) /\
     (localAtDomainTld email -> 10 <= digitsIn phone <= 15 ->
      validateApplicationData data = Ok tt)) /\
  validateApplicationData {[ "serviceId" := "s1" ]} =
    Throw (Error "Missing required fields: applicantName, applicantEmail, applicantPhone") /\
  validateApplicationData (<["applicantEmail" := "a b@@c.d e"]> sampleForm) =
    Throw (Error "Invalid email format") /\
  validateApplicationData (<["applicantEmail" := "asha@example"]> sampleForm) =
    Throw (Error "Invalid email format") /\
  validateApplicationData (<["applicantPhone" := "not a number"]> sampleForm) =
    Throw (Error "Invalid phone number format") /\
  validateApplicationData (<["applicantPhone" := "123456789"]> sampleForm) =
    Throw (Error "Invalid phone number format") /\
  validateApplicationData (<["applicantPhone" := "1234567890123456"]> sampleForm) =
    Throw (Error "Invalid phone number format") /\
  (forall e w,
      validateApplicationData data = Throw e ->
      exists w',
        submitApplication data w = (Throw e, w') /\
        applications w' = applications w /\
        notifications w' = notifications w /\
        services w' = services w /\
        faults w' = faults w).
Proof.
  repeat match goal with
         | |- (absent _ _ -> _) /\ _ => split; [by_fields|]
         | |- (present _ _ -> absent _ _ -> _) /\ _ => split; [by_fields|]
         | |- (present _ _ -> present _ _ -> absent _ _ -> _) /\ _ =>
             split; [by_fields|]
         | |- (present _ _ -> present _ _ -> present _ _ -> absent _ _ -> _) /\ _ =>
             split; [by_fields|]
         end.
  split.
  { intros Hs Hn email phone He He' Hp Hp'.
    assert (Hpe : present data "applicantEmail") by (exists email; auto).
    assert (Hpp : present data "applicantPhone") by (exists phone; auto).
    pose proof (validateApplicationData_cases data) as Hv. cbv zeta in Hv.
    unfold requiredApplicationFields in Hv. cbn [List.filter] in Hv.
    rewrite (present_truthy _ _ Hs), (present_truthy _ _ Hn),
      (present_truthy _ _ Hpe), (present_truthy _ _ Hpp) in Hv.
    cbn [length Nat.ltb Nat.leb] in Hv.
    rewrite (present_field _ _ _ He), (present_field _ _ _ Hp) in Hv.
    rewrite Hv. clear Hv.
    split; [|split].
    - intros Hc. destruct (test emailRegex email) eqn:Ht; [|reflexivity].
      apply emailRegex_conventional, conventionalEmail_localAtDomainTld in Ht.
      contradiction.
    - intros Hc Hd.
      apply conventionalEmail_localAtDomainTld, emailRegex_conventional in Hc.
      rewrite Hc. cbn [negb].
      destruct (test phoneRegex (stripNonDigits phone)) eqn:Ht; [|reflexivity].
      apply phoneRegex_digits in Ht. rewrite digitCount_digitsIn in Ht.
      contradiction.
    - intros Hc Hd.
      apply conventionalEmail_localAtDomainTld, emailRegex_conventional in Hc.
      rewrite <- digitCount_digitsIn in Hd. apply phoneRegex_digits in Hd.
      rewrite Hc, Hd. reflexivity. }
  repeat (split; [vm_compute; reflexivity|]).
  intros e w H. eexists. split; [apply submitApplication_invalid; exact H|].
  repeat split.
Qed.

Lemma validateApplicationData_spec_witness :
  validateApplicationData sampleForm = Ok tt /\
  validateApplicationData
    (<["serviceId" := "s1"]> {[ "applicantName" := "Asha" ]}) =
    Throw (Error "Missing required fields: applicantEmail, applicantPhone") /\
  validateApplicationData {[ "applicantPhone" := "9876543210" ]} =
    Throw (Error "Missing required fields: serviceId, applicantName, applicantEmail") /\
  validateApplicationData (<["applicantPhone" := "12345"]> sampleForm) =
    Throw (Error "Invalid phone number format").
Proof.
  split; [|split; [|split]].
  - destruct (validateApplicationData_spec sampleForm)
      as (_ & _ & _ & _ & _ & _ & _ & _ & _ & _ & _ & _ & _ & _ & _ & H & _).
    apply (H ltac:(exists "svc1"; split; [reflexivity | discriminate])
             ltac:(exists "Asha"; split; [reflexivity | discriminate])
             "asha@example.com" "+91 98765-43210"
             eq_refl ltac:(discriminate) eq_refl ltac:(discriminate)).
    + exists "asha", "example", "com".
      split; [reflexivity|].
      repeat split; first [discriminate | reflexivity].
    + vm_compute. lia.
  - destruct (validateApplicationData_spec
                (<["serviceId" := "s1"]> {[ "applicantName" := "Asha" ]}))
      as (_ & _ & _ & _ & _ & _ & _ & _ & _ & _ & _ & _ & H & _).
    apply H.
    + exists "s1". split; [reflexivity | discriminate].
    + exists "Asha". split; [reflexivity | discriminate].
    + left. reflexivity.
    + left. reflexivity.
  - destruct (validateApplicationData_spec {[ "applicantPhone" := "9876543210" ]})
      as (_ & H & _).
    apply H.
    + left. reflexivity.
    + left. reflexivity.
    + left. reflexivity.
    + exists "9876543210". split; [reflexivity | discriminate].
  - destruct (validateApplicationData_spec (<["applicantPhone" := "12345"]> sampleForm))
      as (_ & _ & _ & _ & _ & _ & _ & _ & _ & _ & _ & _ & _ & _ & _ & H & _).
    apply (H ltac:(exists "svc1"; split; [reflexivity | discriminate])
             ltac:(exists "Asha"; split; [reflexivity | discriminate])
             "asha@example.com" "12345"
             eq_refl ltac:(discriminate) eq_refl ltac:(discriminate)).
    + exists "asha", "example", "com".
      split; [reflexivity|].
      repeat split; first [discriminate | reflexivity].
    + vm_compute. lia.
Defined.

(** C7.  The service validator fails with a message that lists, in the
    order name, description, category, every one of these three fields
    that is absent (or empty), whichever they are; only when all three
    are present does it fail with "Invalid service category", and it
    does so exactly for a category outside certificate, license,
    welfare, other; with all three present and such a category it
    passes.  So a form with a category only fails listing name and
    description, the empty form fails listing all three, and a
    complete form of category "tax" fails for its category. *)
Theorem validateServiceData_spec (serviceData : FormData) :
  (absent serviceData "name" ->
   absent serviceData "description" ->
   absent serviceData "category" ->
   Services.validateServiceData serviceData =
     Throw (Error "Missing required fields: name, description, category")) /\
  (absent serviceData "name" ->
   absent serviceData "description" ->
   present serviceData "category" ->
   Services.validateServiceData serviceData =
     Throw (Error "Missing required fields: name, description")) /\
  (absent serviceData "name" ->
   present serviceData "description" ->
   absent serviceData "category" ->
   Services.validateServiceData serviceData =
     Throw (Error "Missing required fields: name, category")) /\
  (absent serviceData "name" ->
   present serviceData "description" ->
   present serviceData "category" ->
   Services.validateServiceData serviceData =
     Throw (Error "Missing required fields: name")) /\
  (present serviceData "name" ->
   absent serviceData "description" ->
   absent serviceData "category" ->
   Services.validateServiceData serviceData =
     Throw (Error "Missing required fields: description, category")) /\
  (present serviceData "name" ->
   absent serviceData "description" ->
   present serviceData "category" ->
   Services.validateServiceData serviceData =
     Throw (Error "Missing required fields: description")) /\
  (present serviceData "name" ->
   present serviceData "description" ->
   absent serviceData "category" ->
   Services.validateServiceData serviceData =
     Throw (Error "Missing required fields: category")) /\
  (present serviceData "name" -> present serviceData "description" ->
   forall category,
     serviceData !! "category" = Some category -> category <> "" ->
     (~ In category ["certificate"; "license"; "welfare"; "other"] ->
      Services.validateServiceData serviceData =
        Throw (Error "Invalid service category")) /\
     (In category ["certificate"; "license"; "welfare"; "other"] ->
      Services.validateServiceData serviceData = Ok tt)) /\
  (Services.validateServiceData serviceData = Throw (Error "Invalid service category") ->
   present serviceData "name" /\ present serviceData "description" /\
   present serviceData "category") /\
  Services.validateServiceData {[ "category" := "license" ]} =
    Throw (Error "Missing required fields: name, description") /\
  Services.validateServiceData ∅ =
    Throw (Error "Missing required fields: name, description, category") /\
  Services.validateServiceData (<["category" := "tax"]> Services.sampleService) =
    Throw (Error "Invalid service category") /\
  Services.validateServiceData (<["category" := "welfare"]> Services.sampleService) =
    Ok tt.
Proof.
  repeat match goal with
         | |- (absent _ _ -> _) /\ _ => split; [by_fields|]
         | |- (present _ _ -> absent _ _ -> _) /\ _ => split; [by_fields|]
         | |- (present _ _ -> present _ _ -> absent _ _ -> _) /\ _ =>
             split; [by_fields|]
         end.
  assert (Hinc : forall c, includes Services.validCategories c = true <->
                           In c ["certificate"; "license"; "welfare"; "other"]).
  { intros c. unfold includes. rewrite existsb_exists. split.
    - intros (x & Hx & Heq). apply String.eqb_eq in Heq. subst. exact Hx.
    - intros Hc. exists c. split; [exact Hc | apply String.eqb_refl]. }
  split; [|split].
  - intros Hn Hd category Hc Hc'.
    assert (Hpc : present serviceData "category") by (exists category; auto).
    unfold Services.validateServiceData, Services.requiredServiceFields.
    cbn [List.filter].
    rewrite (present_truthy _ _ Hn), (present_truthy _ _ Hd),
      (present_truthy _ _ Hpc).
    cbn [length Nat.ltb Nat.leb]. rewrite (present_field _ _ _ Hc).
    split.
    + intros Hout.
      destruct (includes Services.validCategories category) eqn:Hi; [|reflexivity].
      apply Hinc in Hi. contradiction.
    + intros Hin. apply Hinc in Hin. rewrite Hin. reflexivity.
  - unfold Services.validateServiceData, Services.requiredServiceFields.
    cbn [List.filter].
    destruct (falsyField serviceData "name") eqn:Hn;
      destruct (falsyField serviceData "description") eqn:Hd;
      destruct (falsyField serviceData "category") eqn:Hc;
      cbn [length Nat.ltb Nat.leb]; intros H;
      try (exfalso; revert H; vm_compute; discriminate).
    repeat split; apply truthy_present; assumption.
  - repeat (split; [vm_compute; reflexivity|]). vm_compute. reflexivity.
Qed.

Lemma validateServiceData_spec_witness :
  Services.validateServiceData Services.sampleService = Ok tt /\
  Services.validateServiceData
    (<["name" := "Trade License"]> {[ "category" := "license" ]}) =
    Throw (Error "Missing required fields: description") /\
  Services.validateServiceData (<["category" := "permit"]> Services.sampleService) =
    Throw (Error "Invalid service category").
Proof.
  split; [|split].
  - destruct (validateServiceData_spec Services.sampleService)
      as (_ & _ & _ & _ & _ & _ & _ & H & _).
    apply (H ltac:(exists "Birth Certificate"; split; [reflexivity | discriminate])
             ltac:(exists "Issue of a birth certificate";
                   split; [reflexivity | discriminate])
             "certificate" eq_refl ltac:(discriminate)).
    left. reflexivity.
  - destruct (validateServiceData_spec
                (<["name" := "Trade License"]> {[ "category" := "license" ]}))
      as (_ & _ & _ & _ & _ & H & _).
    apply H.
    + exists "Trade License". split; [reflexivity | discriminate].
    + left. reflexivity.
    + exists "license". split; [reflexivity | discriminate].
  - destruct (validateServiceData_spec
                (<["category" := "permit"]> Services.sampleService))
      as (_ & _ & _ & _ & _ & _ & _ & H & _).
    apply (H ltac:(exists "Birth Certificate"; split; [reflexivity | discriminate])
             ltac:(exists "Issue of a birth certificate";
                   split; [reflexivity | discriminate])
             "permit" eq_refl ltac:(discriminate)).
    intros Hin. cbn in Hin. intuition discriminate.
Defined.
End ValidatorFacts.

(** * Properties of the processing time and the estimated date *)
Section ProcessingTimeFacts.
Import Regex JsDate Applications.
Local Open Scope string_scope.
Local Arguments String.append : simpl nomatch.







Lemma longest_digits_empty : longest digitsRegex "" = None.
Proof. reflexivity. Qed.








End ProcessingTimeFacts.

(** * Properties of the applications module *)
Section ApplicationsFacts.
Import Applications.

Ltac unfold_js :=
  cbv beta iota zeta delta
    [updateApplicationStatus cancelApplication createNotification
     tryCatch bind ret throw lift storeCall getApplication getService
     updateApplication addNotification addApplication
     logger_info logger_error currentUid serverTimestamp
     setApplications setNotifications setLoggerCalls setFaults setIdSupply
     applications notifications services currentUser loggerCalls faults
     idSupply now timeZone negb storeAccepts storeRejects] in *.

Lemma cancelled_is_not_valid : includes validStatuses "cancelled" = false.
Proof. reflexivity. Qed.

Lemma lastStatus_snoc h e : lastStatus (h ++ [e]) = Some (se_status e).
Proof. unfold lastStatus. rewrite rev_unit. reflexivity. Qed.

(** What a successful call of [updateApplicationStatus] has done to the
    collection of applications. *)
Lemma updateApplicationStatus_success w id s c w' :
  updateApplicationStatus id s c w = (Ok tt, w') ->
  exists a u,
    includes validStatuses s = true /\
    applications w !! id = Some a /\
    currentUser w = Some u /\
    applications w' =
      <[id := applyUpdate
                (mkUpdateData s (now w) u
                   (history a ++
                      [mkStatusEntry s (now w) u
                         (orElse c ("Status changed to " ++ s))])
                   (if String.eqb s "approved" || String.eqb s "completed"
                    then Some (now w) else None)) a]> (applications w).
Proof.
  destruct w as [apps n sv cu l f i t z].
  unfold updateApplicationStatus.
  destruct (includes validStatuses s) eqn:Hv; unfold_js; [|discriminate].
  destruct f as [|[] f]; try discriminate.
  all: destruct (apps !! id) as [a|] eqn:Ha; try discriminate.
  all: destruct cu as [u|]; try discriminate.
  - rewrite Ha. intros H. exists a, u. inversion H. auto.
  - destruct f as [|[] f]; try discriminate; rewrite Ha.
    + intros H; inversion H. exists a, u; auto.
    + destruct f as [|[] f]; intros H; inversion H; exists a, u; auto.
Qed.

(** [updateApplicationStatus] rejects the status "cancelled" before it
    reads or writes anything. *)
Lemma updateApplicationStatus_cancelled id c w :
  updateApplicationStatus id "cancelled" c w =
  (Throw (Error "Invalid status"),
   setLoggerCalls
     (loggerCalls w ++ [LogError "Failed to update application status"]) w).
Proof.
  unfold updateApplicationStatus. rewrite cancelled_is_not_valid.
  reflexivity.
Qed.

Lemma cancelApplication_never_succeeds id reason w w' :
  cancelApplication id reason w <> (Ok tt, w').
Proof.
  unfold cancelApplication, tryCatch at 1, bind at 1.
  destruct (getApplication id w) as [[[a|]|e] w1] eqn:Hget.
  - unfold bind at 1.
    destruct (currentUid w1) as [[u|e] w2] eqn:Hu;
      [|unfold_js; discriminate].
    destruct (negb (String.eqb (userId a) u)); [unfold_js; discriminate|].
    destruct (negb (String.eqb (status a) "pending")); [unfold_js; discriminate|].
    unfold bind at 1. rewrite updateApplicationStatus_cancelled.
    unfold_js; discriminate.
  - unfold_js; discriminate.
  - unfold_js; discriminate.
Qed.

(** The three refusals of [cancelApplication], in the order of its
    checks: the application is not there, the caller does not own it, it
    is not pending. *)
Lemma cancelApplication_rejections w id reason u :
  currentUser w = Some u ->
  storeAccepts 1 w = true ->
  (applications w !! id = None ->
   failsWith "Application not found" (cancelApplication id reason) w) /\
  (forall a, applications w !! id = Some a -> userId a <> u ->
             failsWith "Unauthorized to cancel this application"
               (cancelApplication id reason) w) /\
  (forall a, applications w !! id = Some a -> userId a = u ->
             status a <> "pending" ->
             failsWith "Application cannot be cancelled at this stage"
               (cancelApplication id reason) w).
Proof.
  intros Hu Hf.
  destruct w as [apps n sv cu l f i t z]. simpl in Hu. subst cu.
  assert (Hget : exists f',
             getApplication id (mkWorld apps n sv (Some u) l f i t z) =
             (Ok (apps !! id), mkWorld apps n sv (Some u) l f' i t z)).
  { unfold_js. destruct f as [|[] f]; try discriminate; eauto. }
  destruct Hget as [f' Hget].
  cbn [applications]. split; [|split].
  - intros Ha. rewrite Ha in Hget.
    unfold failsWith, cancelApplication, tryCatch at 1, bind at 1.
    rewrite Hget. unfold_js. eexists. repeat split.
  - intros a Ha Hne. rewrite Ha in Hget. apply String.eqb_neq in Hne.
    unfold failsWith, cancelApplication, tryCatch at 1, bind at 1.
    rewrite Hget. unfold bind at 1. cbv beta iota delta [currentUid currentUser].
    rewrite Hne. unfold_js. eexists. repeat split.
  - intros a Ha Ho Hs. rewrite Ha in Hget. apply String.eqb_neq in Hs.
    unfold failsWith, cancelApplication, tryCatch at 1, bind at 1.
    rewrite Hget. unfold bind at 1. cbv beta iota delta [currentUid currentUser].
    rewrite Ho, String.eqb_refl, Hs. unfold_js. eexists. repeat split.
Qed.

(** C2. [cancelApplication] is meant to move a pending application of
    the caller to "cancelled" through [updateApplicationStatus]; that
    method does not list "cancelled" among its valid statuses.  So for
    an application that exists, is pending and is owned by the caller,
    with a store that accepts the read, the cancellation fails with
    "Invalid status", no document is written and no notification is
    created; and no call of [cancelApplication] ever succeeds. *)
Theorem cancelApplication_pending_owner_fails w id reason a u :
  applications w !! id = Some a ->
  status a = "pending" ->
  userId a = u ->
  currentUser w = Some u ->
  storeAccepts 1 w = true ->
  (exists w',
      cancelApplication id reason w = (Throw (Error "Invalid status"), w') /\
      applications w' = applications w /\
      notifications w' = notifications w /\
      loggerCalls w' =
        loggerCalls w ++ [LogError "Failed to update application status";
                          LogError "Failed to cancel application"]) /\
  (forall id' reason' w0 w', cancelApplication id' reason' w0 <> (Ok tt, w')).
Proof.
  intros Ha Hs Ho Hu Hf. split; [|intros; apply cancelApplication_never_succeeds].
  destruct w as [apps n sv cu l f i t z]. simpl in Ha, Hu. subst cu.
  unfold cancelApplication, tryCatch at 1, bind at 1.
  assert (Hget : exists f',
             getApplication id (mkWorld apps n sv (Some u) l f i t z) =
             (Ok (Some a), mkWorld apps n sv (Some u) l f' i t z)).
  { unfold_js. destruct f as [|[] f]; try discriminate; rewrite Ha; eauto. }
  destruct Hget as [f' ->].
  unfold bind at 1. cbv beta iota delta [currentUid currentUser].
  rewrite Ho, String.eqb_refl, Hs. cbn [negb String.eqb Ascii.eqb Bool.eqb].
  unfold bind at 1. rewrite updateApplicationStatus_cancelled.
  unfold_js. eexists. split; [reflexivity|]. cbn.
  rewrite <- app_assoc. auto.
Qed.

Lemma cancelApplication_pending_owner_fails_witness :
  applications sampleWorld !! "app1" = Some sampleApplication /\
  exists w',
    cancelApplication "app1" "" sampleWorld = (Throw (Error "Invalid status"), w') /\
    applications w' = applications sampleWorld.
Proof.
  split; [reflexivity|].
  destruct (cancelApplication_pending_owner_fails
              sampleWorld "app1" "" sampleApplication "user1")
    as [[w' (H1 & H2 & _)] _]; try reflexivity.
  exists w'. split; assumption.
Defined.

(** C3. After a successful [updateApplicationStatus] the status of the
    application equals the status of the last entry of its status
    history, and the history is exactly one entry longer than before
    (an absent history counting as empty), for every starting state of
    the application and every status the method accepts. *)
Theorem status_transition_invariant w id newStatus comments w' :
  updateApplicationStatus id newStatus comments w = (Ok tt, w') ->
  exists a a',
    applications w !! id = Some a /\
    applications w' !! id = Some a' /\
    status a' = newStatus /\
    lastStatus (history a') = Some (status a') /\
    length (history a') = S (length (history a)).
Proof.
  intros H. apply updateApplicationStatus_success in H.
  destruct H as (a & u & Hv & Ha & Hu & Happs).
  exists a. eexists. split; [exact Ha|]. split.
  - rewrite Happs. apply lookup_insert_eq.
  - cbn. split; [reflexivity|]. split.
    + apply lastStatus_snoc.
    + rewrite length_app. cbn. lia.
Qed.

Lemma status_transition_invariant_witness :
  exists w',
    updateApplicationStatus "app1" "under_review" "" sampleWorld = (Ok tt, w') /\
    exists a a',
      applications sampleWorld !! "app1" = Some a /\
      applications w' !! "app1" = Some a' /\
      status a' = "under_review" /\
      lastStatus (history a') = Some (status a') /\
      length (history a') = S (length (history a)).
Proof.
  eexists. split; [reflexivity|].
  apply (status_transition_invariant sampleWorld "app1" "under_review" "").
  reflexivity.
Defined.
(** C4. Moving an application (pending or not) to "approved", by a
    signed-in caller and with a store that accepts the read and the
    update, succeeds: the history gains exactly one entry, whose
    status is "approved"; [completedAt] is set; and a notification
    addressed to the owner of the application is created, unless the
    store rejects that third call, in which case the transition stands
    all the same.  For every accepted status, a successful transition
    sets [completedAt] exactly when the status is "approved" or
    "completed" and leaves it as it was otherwise. *)
Theorem approve_transition w id comments a u :
  applications w !! id = Some a ->
  currentUser w = Some u ->
  storeAccepts 2 w = true ->
  let t := now w in
  let entry :=
    mkStatusEntry "approved" t u (orElse comments "Status changed to approved") in
  let a' :=
    applyUpdate (mkUpdateData "approved" t u (history a ++ [entry]) (Some t)) a in
  let notification :=
    mkNotification (userId a) "status_update" "Application Status Updated"
      ("Your application for " ++ serviceName a ++ " has been approved")
      id "approved" comments false t in
  (exists w',
      updateApplicationStatus id "approved" comments w = (Ok tt, w') /\
      applications w' = <[id := a']> (applications w) /\
      statusHistory a' = Some (history a ++ [entry]) /\
      se_status entry = "approved" /\
      status a' = "approved" /\
      completedAt a' = Some t /\
      notifications w' =
        (if storeRejects 2 w then notifications w
         else notifications w ++ [notification])) /\
  (forall s c w2,
      updateApplicationStatus id s c w = (Ok tt, w2) ->
      exists a2,
        applications w2 !! id = Some a2 /\
        completedAt a2 =
          if String.eqb s "approved" || String.eqb s "completed"
          then Some t else completedAt a).
Proof.
  intros Ha Hu Hf t entry a' notification. split.
  - destruct w as [apps n sv cu l f i t0 z]. simpl in Ha, Hu. subst cu.
    subst t entry a' notification.
    unfold updateApplicationStatus.
    change (includes validStatuses "approved") with true.
    unfold_js. cbv beta iota delta [forallb firstn negb andb] in Hf.
    destruct f as [|[] f]; try discriminate; rewrite ?Ha.
    + eexists. repeat split; reflexivity.
    + destruct f as [|[] f]; try discriminate; rewrite ?Ha.
      * eexists. repeat split; reflexivity.
      * destruct f as [|[] f]; eexists; repeat split; reflexivity.
  - intros s c w2 H. apply updateApplicationStatus_success in H.
    destruct H as (a0 & u0 & Hv & Ha0 & Hu0 & Happs).
    rewrite Ha in Ha0. inversion Ha0; subst a0.
    eexists. split; [rewrite Happs; apply lookup_insert_eq|].
    cbn. destruct (String.eqb s "approved" || String.eqb s "completed"); reflexivity.
Qed.

Lemma approve_transition_witness :
  exists w' a',
    updateApplicationStatus "app1" "approved" "" sampleWorld = (Ok tt, w') /\
    applications w' !! "app1" = Some a' /\
    option_map (@length _) (statusHistory a') = Some 2 /\
    lastStatus (history a') = Some "approved" /\
    completedAt a' = Some (now sampleWorld) /\
    List.map n_userId (notifications w') = [userId sampleApplication].
Proof.
  destruct (approve_transition sampleWorld "app1" "" sampleApplication "user1")
    as [(w' & H1 & H2 & H3 & H4 & H5 & H6 & H7) _]; try reflexivity.
  exists w'. eexists. split; [exact H1|]. split.
  - rewrite H2. apply lookup_insert_eq.
  - rewrite H7. repeat split; reflexivity.
Defined.
End ApplicationsFacts.

(** * Properties of the sanitizer *)
Section SanitizerFacts.
Import Logger.

(** Induction on values that reaches the elements of arrays and the
    values of properties. *)
Lemma value_nested_ind (P : Js.value -> Prop) :
  P Js.Undefined -> P Js.Null ->
  (forall b, P (Js.Bool b)) -> (forall n, P (Js.Num n)) ->
  (forall s, P (Js.Str s)) ->
  (forall items, Forall P items -> P (Js.Arr items)) ->
  (forall o, Forall (fun kv => P (snd kv)) o -> P (Js.Obj o)) ->
  forall v, P v.
Proof.
  intros Hu Hn Hb Hnum Hs Ha Ho.
  fix IH 1.
  intros [| |b|n|s|items|o];
    [exact Hu | exact Hn | apply Hb | apply Hnum | apply Hs | apply Ha | apply Ho].
  - induction items as [|x items IHl]; constructor; [apply IH | exact IHl].
  - induction o as [|[k x] o IHl]; constructor; [apply IH | exact IHl].
Qed.

Lemma hasOwn_includes {A} k (o : Js.props A) :
  Js.hasOwn k o = includes (List.map fst o) k.
Proof.
  unfold includes. induction o as [|[k' v] o IH]; simpl; auto.
  rewrite IH, String.eqb_sym. reflexivity.
Qed.

Lemma insertIndex_last {A} n k (v : A) (o : Js.props A) :
  forallb (fun k' => match Js.arrayIndex k' with
                     | Some n' => (n' <? n)%Z
                     | None => false
                     end) (List.map fst o) = true ->
  Js.insertIndex n k v o = o ++ [(k, v)].
Proof.
  induction o as [|[k' v'] o IH]; simpl; intros H; auto.
  apply andb_true_iff in H as [H1 H2].
  destruct (Js.arrayIndex k') as [n'|]; [|discriminate].
  rewrite H1, IH; auto.
Qed.

(** In enumeration order a new property goes last. *)
Lemma define_last {A} k (v : A) (o : Js.props A) rest :
  Js.enumerationOrder (List.map fst o) (k :: rest) = true ->
  Js.define k v o = o ++ [(k, v)].
Proof.
  simpl. intros H.
  apply andb_true_iff in H as [H H3]. apply andb_true_iff in H as [H1 H2].
  unfold Js.define. rewrite hasOwn_includes.
  apply negb_true_iff in H1. rewrite H1.
  destruct (Js.arrayIndex k) as [n|]; auto.
  apply insertIndex_last; auto.
Qed.

Lemma assign_last {A} k (v : A) (o : Js.props A) rest :
  Js.enumerationOrder (List.map fst o) (k :: rest) = true ->
  String.eqb k "__proto__" = false ->
  Js.assign k v o = o ++ [(k, v)].
Proof.
  intros H Hp. unfold Js.assign.
  assert (Hown : Js.hasOwn k o = false).
  { simpl in H. apply andb_true_iff in H as [H _].
    apply andb_true_iff in H as [H _]. apply negb_true_iff in H.
    rewrite hasOwn_includes. exact H. }
  rewrite Hown, Hp. apply (define_last k v o rest H).
Qed.

Lemma no_proto_cons k (ks : list string) :
  includes (k :: ks) "__proto__" = false ->
  String.eqb k "__proto__" = false /\ includes ks "__proto__" = false.
Proof.
  unfold includes. simpl. intros H. apply orb_false_iff in H as [H1 H2].
  rewrite String.eqb_sym. auto.
Qed.

(** Assigning the properties of an object in enumeration order to a
    fresh object rebuilds them in the same order. *)
Lemma fold_assign {A B} (f : string * A -> B) (o : Js.props A) :
  forall acc : Js.props B,
    Js.enumerationOrder (List.map fst acc) (List.map fst o) = true ->
    includes (List.map fst o) "__proto__" = false ->
    fold_left (fun acc kv => Js.assign (fst kv) (f kv) acc) o acc =
    acc ++ List.map (fun kv => (fst kv, f kv)) o.
Proof.
  induction o as [|[k v] o IH]; intros acc Hord Hproto; simpl.
  - rewrite app_nil_r. reflexivity.
  - simpl in Hproto. apply no_proto_cons in Hproto as [Hk Hrest].
    rewrite (assign_last k (f (k, v)) acc (List.map fst o) Hord Hk).
    rewrite IH; auto.
    + rewrite <- app_assoc. reflexivity.
    + rewrite map_app. simpl in Hord |- *.
      apply andb_true_iff in Hord as [_ Hord]. exact Hord.
Qed.

Lemma fold_define {A} (o : Js.props A) :
  forall acc : Js.props A,
    Js.enumerationOrder (List.map fst acc) (List.map fst o) = true ->
    fold_left (fun acc kv => Js.define (fst kv) (snd kv) acc) o acc = acc ++ o.
Proof.
  induction o as [|[k v] o IH]; intros acc Hord; simpl.
  - rewrite app_nil_r. reflexivity.
  - rewrite (define_last k v acc (List.map fst o) Hord).
    rewrite IH.
    + rewrite <- app_assoc. reflexivity.
    + rewrite map_app. simpl in Hord |- *.
      apply andb_true_iff in Hord as [_ Hord]. exact Hord.
Qed.

Lemma fold_left_pointwise {A B} (f g : A -> B -> A) (l : list B) :
  (forall a b, f a b = g a b) ->
  forall a, fold_left f l a = fold_left g l a.
Proof.
  intros H. induction l as [|b l IH]; intros a; simpl; auto.
  rewrite H. apply IH.
Qed.

(** On a plain value the recursive sanitizer does what the
    specification says. *)
Lemma sanitizeObject_redact v : plain v = true -> sanitizeObject v = redact v.
Proof.
  induction v as [| | | | |items IH|o IH] using value_nested_ind;
    intros Hp; try reflexivity.
  - simpl in *. f_equal. induction IH as [|x items Hx _ IHl]; simpl; auto.
    simpl in Hp. apply andb_true_iff in Hp as [H1 H2].
    rewrite Hx, IHl; auto.
  - simpl in Hp. apply andb_true_iff in Hp as [Hp Hvals].
    apply andb_true_iff in Hp as [Hord Hproto]. apply negb_true_iff in Hproto.
    cbn [sanitizeObject redact]. f_equal.
    rewrite (fold_left_pointwise _
               (fun acc kv =>
                  Js.assign (fst kv)
                    (if isSensitive (fst kv) then REDACTED
                     else sanitizeObject (snd kv)) acc))
      by (intros a b; cbv zeta; destruct (isSensitive (fst b)); reflexivity).
    rewrite (fold_assign
               (fun kv => if isSensitive (fst kv) then REDACTED
                          else sanitizeObject (snd kv)) o [] Hord Hproto).
    cbn [app]. clear Hord Hproto.
    induction IH as [|kv o Hkv _ IHl]; simpl; auto.
    simpl in Hvals. apply andb_true_iff in Hvals as [H1 H2].
    rewrite Hkv, IHl; auto.
Qed.

Lemma spreadProps_plain {A} (o : Js.props A) :
  Js.enumerationOrder [] (List.map fst o) = true -> Js.spreadProps o = o.
Proof. intros H. unfold Js.spreadProps. rewrite fold_define; auto. Qed.

(** On a plain object [sanitizeData] does what the specification
    says. *)
Lemma sanitizeData_object o :
  plain (Js.Obj o) = true -> sanitizeData (Js.Obj o) = redact (Js.Obj o).
Proof.
  intros Hp. unfold sanitizeData. cbn [Js.truthyValue Js.isObjectType negb orb Js.spread].
  rewrite spreadProps_plain.
  - apply sanitizeObject_redact; auto.
  - simpl in Hp. apply andb_true_iff in Hp as [Hp _].
    apply andb_true_iff in Hp as [Hp _]. exact Hp.
Qed.

(** Scalars are returned as they are. *)
Lemma sanitizeData_scalar v :
  (forall items, v <> Js.Arr items) -> (forall o, v <> Js.Obj o) ->
  sanitizeData v = v.
Proof.
  intros Ha Ho. destruct v; try reflexivity.
  - unfold sanitizeData. destruct (negb (Js.truthyValue (Js.Bool b))); reflexivity.
  - unfold sanitizeData. destruct (negb (Js.truthyValue (Js.Num n))); reflexivity.
  - unfold sanitizeData. destruct (negb (Js.truthyValue (Js.Str s))); reflexivity.
  - exfalso. apply (Ha items). reflexivity.
  - exfalso. apply (Ho o). reflexivity.
Qed.

(** Without a sensitive key the specified result is the value itself. *)
Lemma redact_denyFree v : denyFree v = true -> redact v = v.
Proof.
  induction v as [| | | | |items IH|o IH] using value_nested_ind;
    intros Hd; try reflexivity.
  - simpl in *. f_equal. induction IH as [|x items Hx _ IHl]; simpl; auto.
    simpl in Hd. apply andb_true_iff in Hd as [H1 H2].
    rewrite Hx, IHl; auto.
  - simpl in *. f_equal. induction IH as [|[k x] o Hx _ IHl]; simpl; auto.
    simpl in Hd, Hx. apply andb_true_iff in Hd as [H1 H2].
    apply andb_true_iff in H1 as [Hk Hv]. apply negb_true_iff in Hk.
    rewrite Hk, Hx, IHl; auto.
Qed.

(** C9.  [sanitizeData] copies its argument with the object spread
    before it sanitizes it, which turns an array into an object keyed
    by the indices: an array passed to [sanitizeData] never comes back
    as an array, although it has no sensitive key, whereas an array
    inside an object is sanitized element by element and stays an
    array. *)
Theorem sanitizeData_array_becomes_object :
  (forall items, exists o, sanitizeData (Js.Arr items) = Js.Obj o) /\
  denyFree (Js.Arr [Js.Str "a"; Js.Str "b"]) = true /\
  sanitizeData (Js.Arr [Js.Str "a"; Js.Str "b"]) =
    Js.Obj [("0", Js.Str "a"); ("1", Js.Str "b")] /\
  sanitizeData (Js.Obj [("list", Js.Arr [Js.Str "a"; Js.Str "b"])]) =
    Js.Obj [("list", Js.Arr [Js.Str "a"; Js.Str "b"])].
Proof.
  split; [|repeat split].
  intros items. eexists. reflexivity.
Qed.
End SanitizerFacts.

(** * Properties of the buffered logger *)
Section LoggerFacts.
Import Logger.

Lemma consoleCalls_app fx1 fx2 :
  consoleCalls (fx1 ++ fx2) = consoleCalls fx1 + consoleCalls fx2.
Proof.
  induction fx1 as [|e fx1 IH]; simpl; auto.
  destruct e; simpl; rewrite IH; auto.
Qed.

Lemma submitted_app fx1 fx2 :
  submitted (fx1 ++ fx2) = submitted fx1 ++ submitted fx2.
Proof.
  induction fx1 as [|e fx1 IH]; simpl; auto.
  destruct e; simpl; rewrite IH; auto.
Qed.

(** C5 (as amended).  A call of [log] on a logger with persistence
    enabled invokes the console sink once if console output is
    enabled and not at all otherwise.  If the buffer held fewer than
    [maxBufferSize - 1] entries, the entry is appended to the buffer
    and no flush is started; if the append makes the buffer reach
    [maxBufferSize], exactly one flush is started, on the whole buffer
    with the new entry last, and the buffer is left empty. *)
Theorem log_appends_or_flushes env level message data context l :
  enableFirestore l = true ->
  db l = true ->
  let entry := makeLogEntry env level message data context l in
  let result := log env level message data context l in
  let l' := fst (fst result) in
  let fx := snd (fst result) in
  let pending := snd result in
  consoleCalls fx = (if enableConsole l then 1 else 0) /\
  (length (logBuffer l) + 1 < maxBufferSize l ->
   logBuffer l' = logBuffer l ++ [entry] /\
   submitted fx = [] /\ pending = None) /\
  (maxBufferSize l <= length (logBuffer l) + 1 ->
   submitted fx = [logBuffer l ++ [entry]] /\
   pending = Some (logBuffer l ++ [entry]) /\
   logBuffer l' = []).
Proof.
  intros Hf Hdb entry result l' fx pending.
  subst l' fx pending result. unfold log. fold entry.
  rewrite Hf, Hdb. cbn [andb].
  destruct l as [d ec ef sid buf mx]. simpl in Hf, Hdb. subst d ef.
  cbn [setLogBuffer logBuffer maxBufferSize enableConsole db enableFirestore sessionId].
  rewrite length_app. cbn [length].
  destruct (mx <=? length buf + 1)%nat eqn:Hcap.
  - apply Nat.leb_le in Hcap.
    unfold flushLogs_begin.
    cbn [setLogBuffer logBuffer maxBufferSize enableConsole db enableFirestore sessionId negb orb].
    rewrite length_app. cbn [length].
    replace (length buf + 1 =? 0)%nat with false by (symmetry; apply Nat.eqb_neq; lia).
    cbn [fst snd logBuffer].
    rewrite consoleCalls_app, submitted_app.
    split; [|split].
    + destruct ec, (windowHref env); reflexivity.
    + intros Hlt. lia.
    + intros _. destruct ec, (windowHref env); auto.
  - apply Nat.leb_gt in Hcap. cbn [fst snd logBuffer].
    rewrite consoleCalls_app, submitted_app.
    split; [|split].
    + destruct ec, (windowHref env); reflexivity.
    + intros _. destruct ec, (windowHref env); auto.
    + intros Hge. lia.
Qed.

Lemma log_appends_or_flushes_witness :
  let result := log env1 "error" "db down"
                  (Js.Obj [("error", Js.Str "timeout")]) [] sampleLogger in
  consoleCalls (snd (fst result)) = 1 /\
  logBuffer (fst (fst result)) = [entry1] /\
  submitted (snd (fst result)) = [] /\
  snd result = None.
Proof.
  destruct (log_appends_or_flushes env1 "error" "db down"
              (Js.Obj [("error", Js.Str "timeout")]) [] sampleLogger
              eq_refl eq_refl) as (H1 & H2 & _).
  split; [exact H1|]. apply H2. vm_compute. lia.
Defined.

(** C5 as stated fails when console output is disabled: the entry is
    buffered but the console sink is not invoked. *)
Lemma log_quiet_counterexample :
  enableFirestore quietLogger = true /\ db quietLogger = true /\
  length (logBuffer quietLogger) + 1 < maxBufferSize quietLogger /\
  consoleCalls
    (snd (fst (log env1 "error" "db down"
                 (Js.Obj [("error", Js.Str "timeout")]) [] quietLogger))) = 0.
Proof. vm_compute. repeat split; lia. Qed.
(** C1.  When the commit of a batch is rejected, [flushLogs] does not
    put the batch back: the recovery prepends the current buffer to
    itself.  So the entries that were in the buffer when the flush
    began are in no buffer, pending commit or stored document
    afterwards, and every entry that arrived during the attempt is now
    in the buffer twice. *)
Theorem failed_flush_drops_batch (s : system) batch rest :
  inflight s = batch :: rest ->
  let s' := step (Settle false) s in
  logBuffer (logger s') = logBuffer (logger s) ++ logBuffer (logger s) /\
  inflight s' = rest /\
  persisted s' = persisted s.
Proof.
  intros H s'. subst s'. unfold step. rewrite H.
  unfold flushLogs_resume. cbn. auto.
Qed.

(** The buffer holds [entry1]; a flush starts; [entry2] is logged while
    the commit is pending; the commit is rejected; the next flush
    submits [entry2] twice and [entry1] not at all. *)
Lemma failed_flush_drops_batch_witness :
  let before := mkSystem (setLogBuffer [entry1] sampleLogger) [] [] [] in
  let during := run [Flush; Call env2 "info" "retrying" Js.Null []] before in
  let after := run [Settle false] during in
  let retried := run [Flush; Settle true] after in
  inflight during = [[entry1]] /\
  logBuffer (logger during) = [entry2] /\
  logBuffer (logger after) = [entry2; entry2] /\
  inflight after = [] /\
  persisted retried = [entry2; entry2] /\
  ~ In entry1 (persisted retried ++ logBuffer (logger retried)
                 ++ concat (inflight retried)).
Proof.
  intros before during after retried.
  assert (Hd : inflight during = [[entry1]]) by reflexivity.
  destruct (failed_flush_drops_batch during [entry1] [] Hd) as (H1 & H2 & H3).
  split; [exact Hd|]. split; [reflexivity|].
  split; [exact H1|]. split; [exact H2|].
  split; [reflexivity|].
  vm_compute. intros [H|[H|[]]]; discriminate H.
Defined.
End LoggerFacts.

(** * Properties of plain objects used as counters *)
Section CounterFacts.
Import Logger.
Context {A : Type}.
Implicit Types (o : Js.props A) (k : string) (v : A).

Lemma hasOwn_getOwn k o :
  Js.hasOwn k o = match Js.getOwn k o with Some _ => true | None => false end.
Proof.
  induction o as [|[k' v'] o IH]; simpl; auto.
  destruct (String.eqb k' k); simpl; auto.
Qed.

Lemma getOwn_replaceOwn_same k v o :
  Js.hasOwn k o = true -> Js.getOwn k (Js.replaceOwn k v o) = Some v.
Proof.
  induction o as [|[k' v'] o IH]; simpl; [discriminate|].
  destruct (String.eqb k' k) eqn:E; simpl; rewrite E; auto.
Qed.

Lemma getOwn_replaceOwn_other k k' v o :
  k <> k' -> Js.getOwn k (Js.replaceOwn k' v o) = Js.getOwn k o.
Proof.
  intros Hne. induction o as [|[k0 v0] o IH]; simpl; auto.
  destruct (String.eqb k0 k') eqn:E; simpl.
  - apply String.eqb_eq in E. subst k0.
    destruct (String.eqb k' k) eqn:E'; auto.
    apply String.eqb_eq in E'. congruence.
  - rewrite IH. reflexivity.
Qed.

Lemma keys_replaceOwn k v o :
  List.map fst (Js.replaceOwn k v o) = List.map fst o.
Proof.
  induction o as [|[k0 v0] o IH]; simpl; auto.
  destruct (String.eqb k0 k); simpl; congruence.
Qed.

Lemma getOwn_app k o1 o2 :
  Js.getOwn k (o1 ++ o2) =
  match Js.getOwn k o1 with Some x => Some x | None => Js.getOwn k o2 end.
Proof.
  induction o1 as [|[k0 v0] o1 IH]; simpl; auto.
  destruct (String.eqb k0 k); auto.
Qed.

Lemma getOwn_insertIndex_same n k v o :
  Js.hasOwn k o = false -> Js.getOwn k (Js.insertIndex n k v o) = Some v.
Proof.
  induction o as [|[k0 v0] o IH]; simpl; intros H.
  - rewrite String.eqb_refl. reflexivity.
  - apply orb_false_iff in H as [H1 H2].
    destruct (Js.arrayIndex k0) as [n0|].
    + destruct (n0 <? n)%Z; simpl.
      * rewrite H1. auto.
      * rewrite String.eqb_refl. reflexivity.
    + simpl. rewrite String.eqb_refl. reflexivity.
Qed.

Lemma getOwn_insertIndex_other n k k' v o :
  k <> k' -> Js.getOwn k (Js.insertIndex n k' v o) = Js.getOwn k o.
Proof.
  intros Hne.
  assert (E : String.eqb k' k = false) by (apply String.eqb_neq; congruence).
  induction o as [|[k0 v0] o IH]; simpl.
  - rewrite E. reflexivity.
  - destruct (Js.arrayIndex k0) as [n0|].
    + destruct (n0 <? n)%Z; simpl.
      * rewrite IH. reflexivity.
      * rewrite E. reflexivity.
    + simpl. rewrite E. reflexivity.
Qed.

Lemma getOwn_assign_other k k' v o :
  k <> k' -> Js.getOwn k (Js.assign k' v o) = Js.getOwn k o.
Proof.
  intros Hne. unfold Js.assign, Js.define.
  destruct (Js.hasOwn k' o) eqn:Ho.
  - apply getOwn_replaceOwn_other; auto.
  - destruct (String.eqb k' "__proto__"); auto.
    destruct (Js.arrayIndex k') as [n|].
    + apply getOwn_insertIndex_other; auto.
    + rewrite getOwn_app. destruct (Js.getOwn k o); auto.
      simpl. replace (String.eqb k' k) with false; auto.
      symmetry. apply String.eqb_neq. congruence.
Qed.

Lemma getOwn_assign_same k v o :
  String.eqb k "__proto__" = false ->
  Js.getOwn k (Js.assign k v o) = Some v.
Proof.
  intros Hp. unfold Js.assign, Js.define.
  destruct (Js.hasOwn k o) eqn:Ho.
  - apply getOwn_replaceOwn_same; auto.
  - rewrite Hp. destruct (Js.arrayIndex k) as [n|].
    + apply getOwn_insertIndex_same; auto.
    + rewrite getOwn_app. rewrite hasOwn_getOwn in Ho.
      destruct (Js.getOwn k o); [discriminate|].
      simpl. rewrite String.eqb_refl. reflexivity.
Qed.

(** An assignment to an ordinary key keeps the keys, or adds the key
    at the end. *)
Lemma keys_assign_ordinary k v o :
  Js.ordinaryKey k = true ->
  List.map fst (Js.assign k v o) =
  if Js.hasOwn k o then List.map fst o else List.map fst o ++ [k].
Proof.
  unfold Js.ordinaryKey. intros H. apply andb_true_iff in H as [Hi Ha].
  unfold Js.assign, Js.define.
  destruct (Js.hasOwn k o) eqn:Ho; [apply keys_replaceOwn|].
  destruct (String.eqb k "__proto__") eqn:Hp.
  - apply String.eqb_eq in Hp. subst k. discriminate Hi.
  - destruct (Js.arrayIndex k); [discriminate|].
    rewrite map_app. reflexivity.
Qed.

Lemma getOwn_In k v o : Js.getOwn k o = Some v -> In (k, v) o.
Proof.
  induction o as [|[k0 v0] o IH]; simpl; [discriminate|].
  destruct (String.eqb k0 k) eqn:E; intros H.
  - apply String.eqb_eq in E. inversion H; subst. auto.
  - auto.
Qed.

Lemma In_getOwn k v o :
  NoDup (List.map fst o) -> In (k, v) o -> Js.getOwn k o = Some v.
Proof.
  induction o as [|[k0 v0] o IH]; simpl; intros Hnd Hin; [contradiction|].
  inversion Hnd as [|? ? Hnotin Hnd']; subst.
  destruct Hin as [Heq|Hin].
  - inversion Heq; subst. rewrite String.eqb_refl. reflexivity.
  - destruct (String.eqb k0 k) eqn:E; auto.
    apply String.eqb_eq in E. subst k0. exfalso. apply Hnotin.
    apply (in_map fst) in Hin. exact Hin.
Qed.
End CounterFacts.

(** * Properties of the statistics *)
Section StatisticsFacts.
Import Logger.

Lemma not_inherited_not_proto k :
  Js.inherited k = false -> String.eqb k "__proto__" = false.
Proof.
  intros H. destruct (String.eqb k "__proto__") eqn:E; auto.
  apply String.eqb_eq in E. subst k. discriminate H.
Qed.

Lemma bump_other k k' o :
  k <> k' -> Js.getOwn k (bump k' o) = Js.getOwn k o.
Proof.
  intros Hne. unfold bump.
  destruct (Js.getOwn k' o) as [[n|]|]; [| |destruct (Js.inherited k')];
    apply getOwn_assign_other; auto.
Qed.

Lemma bump_same k o n :
  Js.inherited k = false ->
  Js.getOwn k o = held n -> Js.getOwn k (bump k o) = held (S n).
Proof.
  intros Hi Hg. pose proof (not_inherited_not_proto k Hi) as Hp.
  unfold bump. rewrite Hg, Hi.
  destruct n as [|n]; simpl; rewrite getOwn_assign_same; auto.
  rewrite Nat.add_1_r. reflexivity.
Qed.

Lemma occurrences_cons k x (ks : list string) :
  occurrences k (x :: ks) =
  (if String.eqb x k then 1 else 0) + occurrences k ks.
Proof.
  unfold occurrences. simpl.
  destruct (string_dec x k) as [->|Hne].
  - rewrite String.eqb_refl. reflexivity.
  - apply String.eqb_neq in Hne. rewrite Hne. reflexivity.
Qed.

Lemma occurrences_app k (l1 l2 : list string) :
  occurrences k (l1 ++ l2) = occurrences k l1 + occurrences k l2.
Proof. unfold occurrences. apply count_occ_app. Qed.

Lemma occurrences_In k (l : list string) : In k l <-> 0 < occurrences k l.
Proof. unfold occurrences. apply count_occ_In. Qed.

(** Counting keys one after the other leaves, under a key that names no
    member of [Object.prototype], the number of its occurrences. *)
Lemma fold_bump_counts k :
  Js.inherited k = false ->
  forall ks o c,
    Js.getOwn k o = held c ->
    Js.getOwn k (fold_left (fun o x => bump x o) ks o) =
    held (c + occurrences k ks).
Proof.
  intros Hi. induction ks as [|x ks IH]; intros o c Ho; cbn [fold_left].
  - unfold occurrences. simpl. rewrite Nat.add_0_r. exact Ho.
  - rewrite occurrences_cons.
    destruct (String.eqb x k) eqn:E.
    + apply String.eqb_eq in E. subst x.
      rewrite (IH _ (S c)); [f_equal; lia | apply bump_same; auto].
    + apply String.eqb_neq in E.
      rewrite (IH _ c); [f_equal | rewrite bump_other; auto].
Qed.

(** A key that was never counted is not in the object. *)
Lemma fold_bump_absent k :
  forall ks o,
    ~ In k ks -> Js.getOwn k o = None ->
    Js.getOwn k (fold_left (fun o x => bump x o) ks o) = None.
Proof.
  induction ks as [|x ks IH]; intros o Hin Ho; simpl; auto.
  apply IH.
  - intros H. apply Hin. right. exact H.
  - rewrite bump_other; auto. intros ->. apply Hin. left. reflexivity.
Qed.

(** The two counter objects are each a count of their own keys. *)
Lemma tally_folds logs :
  tally logs =
  (fold_left (fun o x => bump x o) (List.map level logs) [],
   fold_left (fun o x => bump x o) (errorsOf logs) []).
Proof.
  unfold tally, errorsOf.
  generalize (@nil (string * counter)) at 1 3 as byLevel.
  generalize (@nil (string * counter)) as errorMessages.
  induction logs as [|log logs IH]; intros em bl; simpl; auto.
  rewrite IH. destruct (isError log); reflexivity.
Qed.

Lemma errors_by_level logs :
  occurrences "ERROR" (List.map level logs) = length (List.filter isError logs).
Proof.
  induction logs as [|log logs IH]; [reflexivity|].
  cbn [List.map List.filter]. rewrite occurrences_cons, IH. unfold isError.
  destruct (String.eqb (level log) "ERROR"); reflexivity.
Qed.

(** [stats.byLevel.ERROR || 0] is the number of ERROR entries. *)
Lemma byLevel_errors logs :
  match Js.getOwn "ERROR" (fst (tally logs)) with
  | Some c => countOf c
  | None => O
  end = length (List.filter isError logs).
Proof.
  rewrite tally_folds. cbn [fst].
  rewrite (fold_bump_counts "ERROR" eq_refl _ [] 0 eq_refl).
  rewrite errors_by_level. cbn [Nat.add].
  destruct (length (List.filter isError logs)); reflexivity.
Qed.

(** ** First occurrences *)

Lemma firstIndex_app_in m (l l' : list string) :
  In m l -> firstIndex m (l ++ l') = firstIndex m l.
Proof.
  induction l as [|x l IH]; simpl; intros H; [contradiction|].
  destruct (String.eqb x m) eqn:E; auto.
  destruct H as [->|H]; [rewrite String.eqb_refl in E; discriminate|].
  rewrite IH; auto.
Qed.

Lemma firstIndex_app_new m (l : list string) :
  ~ In m l -> firstIndex m (l ++ [m]) = length l.
Proof.
  induction l as [|x l IH]; simpl; intros H.
  - rewrite String.eqb_refl. reflexivity.
  - destruct (String.eqb x m) eqn:E.
    + apply String.eqb_eq in E. subst x. exfalso. apply H. auto.
    + rewrite IH; auto.
Qed.

Lemma firstIndex_lt m (l : list string) : In m l -> firstIndex m l < length l.
Proof.
  induction l as [|x l IH]; simpl; intros H; [contradiction|].
  destruct (String.eqb x m) eqn:E; [lia|].
  destruct H as [->|H]; [rewrite String.eqb_refl in E; discriminate|].
  apply IH in H. lia.
Qed.

Lemma keys_bump k o :
  Js.ordinaryKey k = true ->
  List.map fst (bump k o) =
  if Js.hasOwn k o then List.map fst o else List.map fst o ++ [k].
Proof.
  intros H. unfold bump.
  destruct (Js.getOwn k o) as [[n|]|]; [| |destruct (Js.inherited k)];
    apply keys_assign_ordinary; auto.
Qed.

Lemma hasOwn_In {A} k (o : Js.props A) :
  Js.hasOwn k o = true <-> In k (List.map fst o).
Proof.
  induction o as [|[k0 v0] o IH]; simpl; [split; [discriminate|tauto]|].
  rewrite orb_true_iff, IH, String.eqb_eq. tauto.
Qed.

Lemma StronglySorted_snoc {A} (R : A -> A -> Prop) l x :
  StronglySorted R l -> Forall (fun y => R y x) l ->
  StronglySorted R (l ++ [x]).
Proof.
  induction 1 as [|y l Hs IH Hy]; simpl; intros Hall.
  - repeat constructor.
  - inversion Hall; subst. constructor; auto.
    apply Forall_app. split; auto.
Qed.

Lemma StronglySorted_weaken {A} (R R' : A -> A -> Prop) l :
  (forall a b, In a l -> In b l -> R a b -> R' a b) ->
  StronglySorted R l -> StronglySorted R' l.
Proof.
  intros H Hs. induction Hs as [|y l Hs IH Hy]; constructor.
  - apply IH. intros a b Ha Hb. apply H; right; auto.
  - rewrite Forall_forall in *. intros b Hb. apply H; simpl; auto.
Qed.

Lemma fold_bump_keys msgs :
  Forall (fun m => Js.ordinaryKey m = true) msgs ->
  firstSeenOrder msgs
    (List.map fst (fold_left (fun o x => bump x o) msgs [])).
Proof.
  induction msgs as [|m msgs IH] using rev_ind; intros Hord.
  - repeat split; simpl; try tauto; constructor.
  - apply Forall_app in Hord as [Hord Hm]. inversion Hm as [|? ? Hm' _]; subst.
    specialize (IH Hord). destruct IH as (Hnd & Hin & Hsort).
    rewrite fold_left_app. cbn [fold_left]. rewrite keys_bump by exact Hm'.
    set (o := fold_left (fun o x => bump x o) msgs []) in *.
    destruct (Js.hasOwn m o) eqn:Ho.
    + apply hasOwn_In in Ho. repeat split; auto.
      * intros H. apply in_or_app. left. apply Hin. exact H.
      * intros H. apply in_app_or in H as [H|[<-|[]]]; [apply Hin|]; auto.
      * eapply StronglySorted_weaken; [|exact Hsort].
        intros a b Ha Hb Hab. apply Hin in Ha, Hb.
        rewrite !firstIndex_app_in; auto.
    + assert (Hnew : ~ In m msgs).
      { intros H. apply Hin in H. apply hasOwn_In in H. congruence. }
      repeat split.
      * apply NoDup_app. repeat split; auto.
        -- constructor; [simpl; tauto | constructor].
        -- intros x Hx [<-|[]]. apply Hnew. apply Hin. exact Hx.
      * intros H. apply in_app_or in H as [H|[<-|[]]];
          apply in_or_app; [left; apply Hin; auto | right; simpl; auto].
      * intros H. apply in_app_or in H as [H|[<-|[]]];
          apply in_or_app; [left; apply Hin; auto | right; simpl; auto].
      * apply StronglySorted_snoc.
        -- eapply StronglySorted_weaken; [|exact Hsort].
           intros a b Ha Hb Hab. apply Hin in Ha, Hb.
           rewrite !firstIndex_app_in; auto.
        -- rewrite Forall_forall. intros y Hy. apply Hin in Hy.
           rewrite firstIndex_app_in, firstIndex_app_new; auto.
           apply firstIndex_lt; auto.
Qed.
(** ** The sort *)

Lemma insertSorted_In {A} (cmp : A -> A -> Z) x y l :
  In y (Js.insertSorted cmp x l) <-> y = x \/ In y l.
Proof.
  induction l as [|z l IH]; simpl; [intuition|].
  destruct (cmp x z <=? 0)%Z; simpl; [intuition|].
  rewrite IH. intuition.
Qed.

Lemma insertSorted_perm {A} (cmp : A -> A -> Z) x l :
  Permutation (Js.insertSorted cmp x l) (x :: l).
Proof.
  induction l as [|z l IH]; simpl; auto.
  destruct (cmp x z <=? 0)%Z; auto.
  rewrite IH. apply perm_swap.
Qed.

Lemma sort_perm {A} (cmp : A -> A -> Z) l : Permutation (Js.sort cmp l) l.
Proof.
  induction l as [|x l IH]; simpl; auto.
  rewrite insertSorted_perm. constructor. exact IH.
Qed.

Lemma entryRanks_trans msgs a b c :
  entryRanks msgs a b -> entryRanks msgs b c -> entryRanks msgs a c.
Proof. unfold entryRanks, ranksBefore. simpl. lia. Qed.

Lemma insertSorted_ranks msgs x l :
  StronglySorted (entryRanks msgs) l ->
  Forall (fun y => firstIndex (fst x) msgs < firstIndex (fst y) msgs) l ->
  StronglySorted (entryRanks msgs) (Js.insertSorted byCountDescending x l).
Proof.
  induction 1 as [|y l Hs IH Hy]; intros Hfi; simpl.
  - repeat constructor.
  - inversion Hfi as [|? ? Hxy Hfi']; subst.
    destruct (byCountDescending x y <=? 0)%Z eqn:E.
    + apply Z.leb_le in E. unfold byCountDescending in E.
      assert (Rxy : entryRanks msgs x y)
        by (unfold entryRanks, ranksBefore; simpl; lia).
      constructor; [constructor; auto|].
      constructor; auto.
      rewrite Forall_forall in *. intros z Hz.
      apply (entryRanks_trans msgs x y z); auto.
    + apply Z.leb_gt in E. unfold byCountDescending in E.
      constructor; [apply IH; auto|].
      rewrite Forall_forall in *. intros z Hz.
      apply insertSorted_In in Hz as [->|Hz]; auto.
      unfold entryRanks, ranksBefore; simpl; lia.
Qed.

(** Sorting entries that stand in first-seen order ranks them by
    frequency and leaves ties in first-seen order. *)
Lemma sort_ranks msgs l :
  StronglySorted
    (fun a b => firstIndex (fst a) msgs < firstIndex (fst b) msgs) l ->
  StronglySorted (entryRanks msgs) (Js.sort byCountDescending l).
Proof.
  induction 1 as [|x l Hs IH Hx]; simpl; [constructor|].
  apply insertSorted_ranks; auto.
  rewrite Forall_forall in *. intros y Hy.
  apply Hx. apply (Permutation_in _ (sort_perm byCountDescending l)). exact Hy.
Qed.

Lemma StronglySorted_map {A B} (f : A -> B) (R : B -> B -> Prop) l :
  StronglySorted (fun a b => R (f a) (f b)) l -> StronglySorted R (List.map f l).
Proof.
  induction 1 as [|x l Hs IH Hx]; simpl; constructor; auto.
  rewrite Forall_forall in *. intros y Hy.
  apply in_map_iff in Hy as (z & <- & Hz). auto.
Qed.

Lemma StronglySorted_unmap {A B} (f : A -> B) (R : B -> B -> Prop) l :
  StronglySorted R (List.map f l) -> StronglySorted (fun a b => R (f a) (f b)) l.
Proof.
  induction l as [|x l IH]; simpl; intros H; [constructor|].
  inversion H as [|? ? Hs Hx]; subst. constructor; auto.
  rewrite Forall_forall in *. intros y Hy. apply Hx. apply in_map. exact Hy.
Qed.

Lemma StronglySorted_app_inv {A} (R : A -> A -> Prop) l1 l2 :
  StronglySorted R (l1 ++ l2) ->
  StronglySorted R l1 /\ forall a b, In a l1 -> In b l2 -> R a b.
Proof.
  induction l1 as [|x l1 IH]; simpl; intros H.
  - split; [constructor | contradiction].
  - inversion H as [|? ? Hs Hx]; subst. destruct (IH Hs) as [H1 H2].
    apply Forall_app in Hx as [Hx1 Hx2]. split.
    + constructor; auto.
    + intros a b [<-|Ha] Hb; [|auto].
      rewrite Forall_forall in Hx2. auto.
Qed.
Lemma statistics_fields logs :
  total (statistics logs) = length logs /\
  errorRate (statistics logs) =
    (if (0 <? length logs)%nat
     then Qmake (Z.of_nat (length (List.filter isError logs)))
                (Pos.of_nat (length logs))
     else 0%Q) /\
  topErrors (statistics logs) =
    rankTopErrors (fold_left (fun o x => bump x o) (errorsOf logs) []).
Proof.
  pose proof (byLevel_errors logs) as He.
  pose proof (tally_folds logs) as Ht.
  unfold statistics. destruct (tally logs) as [byLevel errorMessages].
  cbn [fst] in He. inversion Ht; subst. cbn [total errorRate topErrors].
  rewrite He. auto.
Qed.

(** The entries of the counter object of ordinary messages. *)
Lemma fold_bump_entries msgs :
  Forall (fun m => Js.ordinaryKey m = true) msgs ->
  let em := fold_left (fun o x => bump x o) msgs [] in
  firstSeenOrder msgs (List.map fst em) /\
  (forall e, In e em -> In (fst e) msgs /\ snd e = Count (occurrences (fst e) msgs)) /\
  (forall m, In m msgs -> In (m, Count (occurrences m msgs)) em).
Proof.
  intros Hord em. pose proof (fold_bump_keys msgs Hord) as Hkeys.
  fold em in Hkeys. split; [exact Hkeys|].
  destruct Hkeys as (Hnd & Hin & _).
  assert (Hget : forall m, In m msgs ->
                           Js.getOwn m em = Some (Count (occurrences m msgs))).
  { intros m Hm. rewrite Forall_forall in Hord. specialize (Hord m Hm).
    unfold Js.ordinaryKey in Hord. apply andb_true_iff in Hord as [Hi _].
    apply negb_true_iff in Hi.
    unfold em. rewrite (fold_bump_counts m Hi msgs [] 0 eq_refl). cbn [Nat.add].
    apply occurrences_In in Hm. destruct (occurrences m msgs); [lia|reflexivity]. }
  split.
  - intros [k c] He. cbn [fst snd].
    assert (Hk : In k msgs) by (apply Hin; apply (in_map fst) in He; exact He).
    split; [exact Hk|].
    apply (In_getOwn k c em Hnd) in He. rewrite (Hget k Hk) in He.
    inversion He. reflexivity.
  - intros m Hm. apply getOwn_In. apply Hget. exact Hm.
Qed.

Lemma firstn_In {A} n (l : list A) x : In x (firstn n l) -> In x l.
Proof. intros H. rewrite <- (firstn_skipn n l). apply in_or_app. auto. Qed.

Lemma NoDup_firstn {A} n (l : list A) : NoDup l -> NoDup (firstn n l).
Proof.
  intros H. rewrite <- (firstn_skipn n l) in H.
  apply NoDup_app_remove_r in H. exact H.
Qed.

Lemma map_te_message l : List.map te_message (List.map topErrorOf l) = List.map fst l.
Proof. rewrite map_map. reflexivity. Qed.

Lemma permutation_XXXY (msgs : list string) :
  Permutation msgs ["X"; "X"; "X"; "Y"] ->
  msgs = ["X"; "X"; "X"; "Y"] \/ msgs = ["X"; "X"; "Y"; "X"] \/
  msgs = ["X"; "Y"; "X"; "X"] \/ msgs = ["Y"; "X"; "X"; "X"].
Proof.
  intros H. pose proof (Permutation_length H) as Hlen.
  destruct msgs as [|a [|b [|c [|d [|? ?]]]]]; try discriminate Hlen.
  assert (Hin : forall x, In x [a; b; c; d] -> x = "X" \/ x = "Y").
  { intros x Hx. apply (Permutation_in _ H) in Hx. simpl in Hx. intuition. }
  pose proof (proj1 (Permutation_count_occ string_dec _ _) H "Y") as Hc.
  assert (Ha : a = "X" \/ a = "Y") by (apply Hin; simpl; auto).
  assert (Hb : b = "X" \/ b = "Y") by (apply Hin; simpl; auto).
  assert (Hc' : c = "X" \/ c = "Y") by (apply Hin; simpl; auto).
  assert (Hd : d = "X" \/ d = "Y") by (apply Hin; simpl; auto).
  clear H Hin Hlen.
  destruct Ha as [-> | ->], Hb as [-> | ->], Hc' as [-> | ->], Hd as [-> | ->];
    vm_compute in Hc; try discriminate Hc; auto.
Qed.

(** ** Messages that are array indices or names of members of
    [Object.prototype] *)

Lemma insertIndex_perm {A} n k (v : A) (o : Js.props A) :
  Permutation (Js.insertIndex n k v o) ((k, v) :: o).
Proof.
  induction o as [|[k' v'] o IH]; cbn [Js.insertIndex]; [reflexivity|].
  destruct (Js.arrayIndex k') as [n'|]; [destruct (n' <? n)%Z|]; try reflexivity.
  rewrite IH. apply perm_swap.
Qed.

Lemma keys_assign_perm {A} k (v : A) (o : Js.props A) :
  String.eqb k "__proto__" = false ->
  Permutation (List.map fst (Js.assign k v o))
    (if Js.hasOwn k o then List.map fst o else k :: List.map fst o).
Proof.
  intros Hp. unfold Js.assign, Js.define.
  destruct (Js.hasOwn k o) eqn:Ho; [rewrite keys_replaceOwn; reflexivity|].
  rewrite Hp. destruct (Js.arrayIndex k) as [n|].
  - apply (Permutation_map fst (insertIndex_perm n k v o)).
  - rewrite map_app. cbn [List.map fst]. symmetry. apply Permutation_cons_append.
Qed.

Lemma keys_bump_perm k o :
  Js.inherited k = false ->
  Permutation (List.map fst (bump k o))
    (if Js.hasOwn k o then List.map fst o else k :: List.map fst o).
Proof.
  intros Hi. pose proof (not_inherited_not_proto k Hi) as Hp. unfold bump.
  destruct (Js.getOwn k o) as [[n|]|]; [| |rewrite Hi];
    apply keys_assign_perm; exact Hp.
Qed.

(** Counting keys that name no member of [Object.prototype] makes one
    property for each key. *)
Lemma fold_bump_keys_any ks :
  Forall (fun k => Js.inherited k = false) ks ->
  forall o,
    NoDup (List.map fst o) ->
    NoDup (List.map fst (fold_left (fun o x => bump x o) ks o)) /\
    forall x, In x (List.map fst (fold_left (fun o x => bump x o) ks o)) <->
              In x (List.map fst o) \/ In x ks.
Proof.
  induction 1 as [|k ks Hk _ IH]; intros o Hnd; cbn [fold_left].
  - split; [exact Hnd|]. intros x. cbn. tauto.
  - pose proof (keys_bump_perm k o Hk) as Hperm.
    assert (Hnd' : NoDup (List.map fst (bump k o))).
    { apply (Permutation_NoDup (Permutation_sym Hperm)).
      destruct (Js.hasOwn k o) eqn:Ho; [exact Hnd|].
      constructor; [|exact Hnd]. intros Hin. apply hasOwn_In in Hin. congruence. }
    destruct (IH (bump k o) Hnd') as [H1 H2]. split; [exact H1|].
    intros x. rewrite H2.
    assert (Hin : In x (List.map fst (bump k o)) <-> x = k \/ In x (List.map fst o)).
    { split.
      - intros Hx. apply (Permutation_in _ Hperm) in Hx.
        destruct (Js.hasOwn k o); [right; exact Hx|].
        destruct Hx as [<-|Hx]; auto.
      - intros Hx. apply (Permutation_in _ (Permutation_sym Hperm)).
        destruct (Js.hasOwn k o) eqn:Ho.
        + destruct Hx as [->|Hx]; [apply hasOwn_In; exact Ho | exact Hx].
        + destruct Hx as [->|Hx]; [left; reflexivity | right; exact Hx]. }
    rewrite Hin. cbn [In]. intuition.
Qed.

(** The entries of the counter object of such messages: each message
    once, with its frequency. *)
Lemma fold_bump_entries_any msgs :
  Forall (fun m => Js.inherited m = false) msgs ->
  let em := fold_left (fun o x => bump x o) msgs [] in
  NoDup (List.map fst em) /\
  (forall e, In e em -> In (fst e) msgs /\ snd e = Count (occurrences (fst e) msgs)) /\
  (forall m, In m msgs -> In (m, Count (occurrences m msgs)) em).
Proof.
  intros Hni em.
  destruct (fold_bump_keys_any msgs Hni [] (NoDup_nil _)) as [Hnd Hin].
  fold em in Hnd, Hin. split; [exact Hnd|].
  assert (Hget : forall m, In m msgs ->
                           Js.getOwn m em = Some (Count (occurrences m msgs))).
  { intros m Hm. rewrite Forall_forall in Hni.
    unfold em. rewrite (fold_bump_counts m (Hni m Hm) msgs [] 0 eq_refl).
    cbn [Nat.add].
    apply occurrences_In in Hm. destruct (occurrences m msgs); [lia|reflexivity]. }
  split.
  - intros [k c] He. cbn [fst snd].
    assert (Hk : In k msgs).
    { apply (in_map fst) in He. apply Hin in He. cbn in He. tauto. }
    split; [exact Hk|].
    apply (In_getOwn k c em Hnd) in He. rewrite (Hget k Hk) in He.
    inversion He. reflexivity.
  - intros m Hm. apply getOwn_In. apply Hget. exact Hm.
Qed.

(** The sort puts the larger counts first, whatever the order before. *)
Lemma insertSorted_counts x l :
  StronglySorted (fun a b => countOf (snd b) <= countOf (snd a)) l ->
  StronglySorted (fun a b => countOf (snd b) <= countOf (snd a))
    (Js.insertSorted byCountDescending x l).
Proof.
  induction 1 as [|y l Hs IH Hy]; cbn [Js.insertSorted].
  - repeat constructor.
  - destruct (byCountDescending x y <=? 0)%Z eqn:E.
    + apply Z.leb_le in E. unfold byCountDescending in E.
      constructor; [constructor; auto|].
      constructor; [lia|].
      rewrite Forall_forall in *. intros z Hz. specialize (Hy z Hz). lia.
    + apply Z.leb_gt in E. unfold byCountDescending in E.
      constructor; [exact IH|].
      rewrite Forall_forall in *. intros z Hz.
      apply insertSorted_In in Hz as [->|Hz]; [lia | apply Hy; exact Hz].
Qed.

Lemma sort_counts l :
  StronglySorted (fun a b => countOf (snd b) <= countOf (snd a))
    (Js.sort byCountDescending l).
Proof.
  induction l as [|x l IH]; cbn [Js.sort fold_right]; [constructor|].
  apply insertSorted_counts. exact IH.
Qed.

(** What is counted under the name of a member of [Object.prototype]
    is not a number. *)
Lemma fold_bump_inherited m :
  Js.inherited m = true -> m <> "__proto__" ->
  forall ks o,
    (Js.getOwn m o = None /\ In m ks) \/ Js.getOwn m o = Some NotANumber ->
    Js.getOwn m (fold_left (fun o x => bump x o) ks o) = Some NotANumber.
Proof.
  intros Hi Hp. apply String.eqb_neq in Hp.
  induction ks as [|k ks IH]; intros o Ho; cbn [fold_left].
  - destruct Ho as [[_ []]|Ho]. exact Ho.
  - apply IH.
    destruct (string_dec k m) as [->|Hne].
    + right. unfold bump.
      destruct Ho as [[Ho _]|Ho]; rewrite Ho; [rewrite Hi|];
        apply getOwn_assign_same; exact Hp.
    + rewrite bump_other by congruence.
      destruct Ho as [[Ho [E|Hin]]|Ho]; [congruence | left; auto | right; exact Ho].
Qed.

(** Nothing is ever counted under "__proto__": the assignment goes to
    the inherited accessor. *)
Lemma fold_bump_proto ks :
  forall o,
    Js.getOwn "__proto__" o = None ->
    Js.getOwn "__proto__" (fold_left (fun o x => bump x o) ks o) = None.
Proof.
  induction ks as [|k ks IH]; intros o Ho; cbn [fold_left]; [exact Ho|].
  apply IH. destruct (string_dec k "__proto__") as [->|Hne].
  - unfold bump. rewrite Ho. cbn [Js.inherited].
    change (Js.inherited "__proto__") with true. cbv iota.
    unfold Js.assign. rewrite hasOwn_getOwn, Ho. cbn. exact Ho.
  - rewrite bump_other by congruence. exact Ho.
Qed.

Lemma arrayIndex_not_inherited k n :
  Js.arrayIndex k = Some n -> Js.inherited k = false.
Proof.
  intros H. unfold Js.inherited, includes, Js.prototypeMembers.
  apply not_true_is_false. intros Hex. apply existsb_exists in Hex.
  destruct Hex as (m & Hin & E). apply String.eqb_eq in E. subst m.
  cbn [In] in Hin.
  repeat (destruct Hin as [<-|Hin]; [discriminate H|]). exact Hin.
Qed.

Lemma arrayIndex_distinct a b na nb :
  Js.arrayIndex a = Some na -> Js.arrayIndex b = Some nb -> (nb < na)%Z ->
  String.eqb a b = false.
Proof.
  intros Ha Hb Hlt. apply String.eqb_neq. intros ->.
  rewrite Ha in Hb. inversion Hb. lia.
Qed.

(** Two messages that are array indices, each seen once, are listed in
    the order of the indices. *)
Lemma rank_two_indices a b na nb :
  Js.arrayIndex a = Some na -> Js.arrayIndex b = Some nb -> (nb < na)%Z ->
  rankTopErrors (fold_left (fun o x => bump x o) [a; b] []) =
  Some [mkTopError b 1; mkTopError a 1].
Proof.
  intros Ha Hb Hlt.
  pose proof (arrayIndex_not_inherited a na Ha) as Hia.
  pose proof (arrayIndex_not_inherited b nb Hb) as Hib.
  pose proof (not_inherited_not_proto a Hia) as Hpa.
  pose proof (not_inherited_not_proto b Hib) as Hpb.
  pose proof (arrayIndex_distinct a b na nb Ha Hb Hlt) as Hab.
  assert (Hn : (na <? nb)%Z = false) by (apply Z.ltb_ge; lia).
  assert (H1 : bump a [] = [(a, Count 1)]).
  { unfold bump. cbn [Js.getOwn]. rewrite Hia.
    unfold Js.assign. cbn [Js.hasOwn]. rewrite Hpa.
    unfold Js.define. cbn [Js.hasOwn]. rewrite Ha. reflexivity. }
  assert (H2 : bump b [(a, Count 1)] = [(b, Count 1); (a, Count 1)]).
  { unfold bump. cbn [Js.getOwn]. rewrite Hab, Hib.
    unfold Js.assign. cbn [Js.hasOwn orb]. rewrite Hab, Hpb.
    unfold Js.define. cbn [Js.hasOwn orb]. rewrite Hab, Hb.
    cbn [Js.insertIndex]. rewrite Ha, Hn. reflexivity. }
  change (fold_left (fun o x => bump x o) [a; b] []) with (bump b (bump a [])).
  rewrite H1, H2. reflexivity.
Qed.

(** C8.  The statistics count the ERROR messages in a plain object and
    read the ranking off its entries.  The total and the error rate
    (the number of ERROR entries divided by the number of entries, 0
    without entries) are right for all entries.  But an ERROR message
    that names a member of [Object.prototype], such as "toString", is
    counted as something that is not a number, and then no ranking by
    frequency is reported; the message "__proto__" is not counted at
    all; and of two messages that are array indices, such as "500"
    then "404", each seen once, the smaller index is listed first and
    not the one seen first.  For all other messages the top errors are
    what the specification says: at most 10 messages of ERROR entries,
    each once and with its frequency, the more frequent first; a message
    left out is no more frequent than any of the ten; and when no
    message is an array index, equally frequent messages are in the
    order in which they were seen first.  Three ERROR entries with
    message X and one with message Y, in any order and among any other
    entries, give X with 3 and Y with 1. *)
Theorem topErrors_ranked logs :
  let msgs := errorsOf logs in
  total (statistics logs) = length logs /\
  errorRate (statistics logs) =
    (if (0 <? length logs)%nat
     then Qmake (Z.of_nat (length (List.filter isError logs)))
                (Pos.of_nat (length logs))
     else 0%Q) /\
  (forall m,
      In m msgs -> Js.inherited m = true -> m <> "__proto__" ->
      Js.getOwn m (snd (tally logs)) = Some NotANumber /\
      topErrors (statistics logs) = None) /\
  Js.getOwn "__proto__" (snd (tally logs)) = None /\
  (forall a b na nb,
      msgs = [a; b] ->
      Js.arrayIndex a = Some na -> Js.arrayIndex b = Some nb -> (nb < na)%Z ->
      topErrors (statistics logs) = Some [mkTopError b 1; mkTopError a 1] /\
      firstIndex a msgs < firstIndex b msgs) /\
  (Forall (fun m => Js.inherited m = false) msgs ->
   exists top,
     topErrors (statistics logs) = Some top /\
     length top <= 10 /\
     NoDup (List.map te_message top) /\
     (forall e, In e top ->
                In (te_message e) msgs /\
                te_count e = occurrences (te_message e) msgs) /\
     StronglySorted (fun a b => te_count b <= te_count a) top /\
     (forall m, In m msgs -> ~ In m (List.map te_message top) ->
                length top = 10 /\
                forall e, In e top -> occurrences m msgs <= te_count e) /\
     (Forall (fun m => Js.arrayIndex m = None) msgs ->
      StronglySorted (ranksBefore msgs) top /\
      forall m, In m msgs -> ~ In m (List.map te_message top) ->
                forall e, In e top ->
                          ranksBefore msgs e (mkTopError m (occurrences m msgs))) /\
     (Permutation msgs ["X"; "X"; "X"; "Y"] ->
      top = [mkTopError "X" 3; mkTopError "Y" 1])).
Proof.
  intros msgs.
  destruct (statistics_fields logs) as (Htotal & Hrate & Htop).
  pose proof (tally_folds logs) as Htally.
  assert (Hem : snd (tally logs) = fold_left (fun o x => bump x o) msgs [])
    by (rewrite Htally; reflexivity).
  fold msgs in Htop.
  split; [exact Htotal|]. split; [exact Hrate|].
  split; [|split; [|split]].
  - intros m Hm Hi Hp.
    assert (Hg : Js.getOwn m (fold_left (fun o x => bump x o) msgs []) =
                 Some NotANumber).
    { apply fold_bump_inherited; auto. }
    split; [rewrite Hem; exact Hg|].
    rewrite Htop. unfold rankTopErrors.
    destruct (forallb (fun e => isNumber (snd e))
                (fold_left (fun o x => bump x o) msgs [])) eqn:Hall; [|reflexivity].
    rewrite forallb_forall in Hall. apply getOwn_In in Hg.
    specialize (Hall _ Hg). discriminate Hall.
  - rewrite Hem. apply fold_bump_proto. reflexivity.
  - intros a b na nb Hmsgs Ha Hb Hlt. rewrite Htop, Hmsgs. split.
    + apply (rank_two_indices a b na nb Ha Hb Hlt).
    + cbn [firstIndex]. rewrite String.eqb_refl.
      rewrite (arrayIndex_distinct a b na nb Ha Hb Hlt). lia.
  - intros Hni. rewrite Htop. clear Htotal Hrate Htop Htally Hem.
    destruct (fold_bump_entries_any msgs Hni) as (Hnd & Hentries & Hall).
    set (em := fold_left (fun o x => bump x o) msgs []) in *.
    assert (Hnum : forallb (fun e => isNumber (snd e)) em = true).
    { apply forallb_forall. intros e He. destruct (Hentries e He) as [_ ->].
      reflexivity. }
    unfold rankTopErrors. rewrite Hnum.
    set (sorted := Js.sort byCountDescending em).
    assert (Hperm : Permutation sorted em) by apply sort_perm.
    assert (Hcounts : StronglySorted
                        (fun a b => countOf (snd b) <= countOf (snd a)) sorted)
      by apply sort_counts.
    eexists. split; [reflexivity|].
    split; [rewrite length_map; apply firstn_le_length|].
    split.
    { rewrite map_te_message, <- firstn_map. apply NoDup_firstn.
      apply (Permutation_NoDup (l := List.map fst em)); auto.
      apply Permutation_map, Permutation_sym, Hperm. }
    split.
    { intros e He. apply in_map_iff in He as (x & <- & Hx).
      apply firstn_In in Hx. apply (Permutation_in _ Hperm) in Hx.
      destruct (Hentries x Hx) as [H1 H2]. cbn [topErrorOf te_message te_count].
      rewrite H2. auto. }
    split.
    { apply (StronglySorted_map topErrorOf
               (fun a b => te_count b <= te_count a)).
      rewrite <- (firstn_skipn 10 sorted) in Hcounts.
      apply StronglySorted_app_inv in Hcounts as [Hs _]. exact Hs. }
    assert (Hleft : forall m, In m msgs ->
               ~ In m (List.map te_message (List.map topErrorOf (firstn 10 sorted))) ->
               length (List.map topErrorOf (firstn 10 sorted)) = 10 /\
               In (m, Count (occurrences m msgs)) (skipn 10 sorted)).
    { intros m Hm Hout.
      assert (Hm' : In (m, Count (occurrences m msgs)) sorted)
        by (apply (Permutation_in _ (Permutation_sym Hperm)); auto).
      rewrite <- (firstn_skipn 10 sorted) in Hm'.
      apply in_app_or in Hm' as [Hm'|Hm'].
      - exfalso. apply Hout. rewrite map_te_message.
        apply (in_map fst) in Hm'. exact Hm'.
      - split; [|exact Hm'].
        rewrite length_map. apply firstn_length_le.
        destruct (Nat.le_gt_cases 10 (length sorted)) as [|Hlt]; auto.
        rewrite skipn_all2 in Hm' by lia. contradiction. }
    split.
    { intros m Hm Hout. destruct (Hleft m Hm Hout) as [Hlen Hm'].
      split; [exact Hlen|].
      rewrite <- (firstn_skipn 10 sorted) in Hcounts.
      apply StronglySorted_app_inv in Hcounts as [_ Hrank].
      intros e He. apply in_map_iff in He as (x & <- & Hx).
      apply (Hrank x _ Hx Hm'). }
    split.
    { intros Hna.
      assert (Hord : Forall (fun m => Js.ordinaryKey m = true) msgs).
      { rewrite Forall_forall in *. intros m Hm. unfold Js.ordinaryKey.
        rewrite (Hni m Hm), (Hna m Hm). reflexivity. }
      destruct (fold_bump_entries msgs Hord) as ((_ & _ & Hfs) & _ & _).
      fold em in Hfs.
      assert (Hsorted : StronglySorted (entryRanks msgs) sorted).
      { apply sort_ranks. apply StronglySorted_unmap in Hfs. exact Hfs. }
      split.
      - apply StronglySorted_map.
        rewrite <- (firstn_skipn 10 sorted) in Hsorted.
        apply StronglySorted_app_inv in Hsorted as [Hs _]. exact Hs.
      - intros m Hm Hout e He. destruct (Hleft m Hm Hout) as [_ Hm'].
        rewrite <- (firstn_skipn 10 sorted) in Hsorted.
        apply StronglySorted_app_inv in Hsorted as [_ Hrank].
        apply in_map_iff in He as (x & <- & Hx).
        apply (Hrank x _ Hx Hm'). }
    intros Hp. subst sorted em.
    apply permutation_XXXY in Hp as [-> | [-> | [-> | ->]]]; reflexivity.
Qed.

(** Two ERROR entries with the message "toString" leave no ranking;
    "500" then "404" are listed as "404", "500"; and three X and one Y
    are ranked as the specification says. *)
Lemma topErrors_ranked_witness :
  (Js.getOwn "toString"
     (snd (tally [errorLog "toString"; errorLog "X"; errorLog "toString"])) =
     Some NotANumber /\
   topErrors (statistics [errorLog "toString"; errorLog "X"; errorLog "toString"]) =
     None) /\
  topErrors (statistics [errorLog "500"; errorLog "404"]) =
    Some [mkTopError "404" 1; mkTopError "500" 1] /\
  topErrors (statistics [errorLog "X"; errorLog "Y"; errorLog "X"; errorLog "X"]) =
    Some [mkTopError "X" 3; mkTopError "Y" 1] /\
  errorRate (statistics [errorLog "X"; errorLog "Y"; errorLog "X"; errorLog "X"]) =
    Qmake 4 4.
Proof.
  split; [|split].
  - destruct (topErrors_ranked
                [errorLog "toString"; errorLog "X"; errorLog "toString"])
      as (_ & _ & H & _).
    apply (H "toString"); [left; reflexivity | reflexivity | discriminate].
  - destruct (topErrors_ranked [errorLog "500"; errorLog "404"])
      as (_ & _ & _ & _ & H & _).
    apply (H "500" "404" 500%Z 404%Z); [reflexivity | reflexivity | reflexivity | lia].
  - destruct (topErrors_ranked
                [errorLog "X"; errorLog "Y"; errorLog "X"; errorLog "X"])
      as (_ & Hrate & _ & _ & _ & HD).
    destruct HD as (top & Htop & _ & _ & _ & _ & _ & _ & HX);
      [repeat constructor|].
    split; [|exact Hrate].
    rewrite Htop. f_equal. apply HX.
    change (Permutation ["X"; "Y"; "X"; "X"] ["X"; "X"; "X"; "Y"]).
    apply perm_skip. apply (Permutation_cons_append ["X"; "X"] "Y").
Defined.
End StatisticsFacts.

(** * More properties of the applications module *)
Section ApplicationsOutcomes.
Import Applications.

Ltac unfold_ops :=
  cbv beta iota zeta delta
    [updateApplicationStatus cancelApplication createNotification
     submitApplication getApplicationById
     tryCatch bind ret throw lift storeCall getApplication getService
     updateApplication addNotification addApplication
     logger_info logger_error currentUid serverTimestamp
     setApplications setNotifications setLoggerCalls setFaults setIdSupply
     applications notifications services currentUser loggerCalls faults
     idSupply now timeZone negb storeAccepts storeRejects
     forallb firstn andb fst snd] in *.

(** X1.  [updateApplicationStatus] succeeds exactly when the status is one it
    lists, the application exists, somebody is signed in and the store
    accepts the read and the update. *)
Theorem updateApplicationStatus_succeeds_iff w id newStatus comments :
  (exists w', updateApplicationStatus id newStatus comments w = (Ok tt, w')) <->
  includes validStatuses newStatus = true /\
  (exists a, applications w !! id = Some a) /\
  (exists u, currentUser w = Some u) /\
  storeAccepts 2 w = true.
Proof.
  destruct w as [apps n sv cu l f i t z].
  unfold updateApplicationStatus.
  destruct (includes validStatuses newStatus) eqn:Hv; unfold_ops.
  2:{ split; [intros [w' H]; discriminate | intros (H & _); discriminate]. }
  destruct f as [|[] f].
  - destruct (apps !! id) as [a|] eqn:Ha; [destruct cu as [u|]|]; rewrite ?Ha.
    + split; eauto 10.
    + split; [intros [w' H]; discriminate | intros (_ & _ & [u H] & _); discriminate].
    + split; [intros [w' H]; discriminate | intros (_ & [a H] & _); discriminate].
  - split; [intros [w' H]; discriminate | intros (_ & _ & _ & H); discriminate].
  - destruct (apps !! id) as [a|] eqn:Ha; [destruct cu as [u|]|].
    + destruct f as [|[] f]; rewrite ?Ha.
      * split; eauto 10.
      * split; [intros [w' H]; discriminate | intros (_ & _ & _ & H); discriminate].
      * destruct f as [|[] f]; split; eauto 10.
    + split; [intros [w' H]; discriminate | intros (_ & _ & [u H] & _); discriminate].
    + split; [intros [w' H]; discriminate | intros (_ & [a H] & _); discriminate].
Qed.

Lemma updateApplicationStatus_succeeds_iff_witness :
  exists w', updateApplicationStatus "app1" "completed" "done" sampleWorld = (Ok tt, w').
Proof.
  apply (updateApplicationStatus_succeeds_iff sampleWorld "app1" "completed" "done").
  repeat split; [exists sampleApplication | exists "user1"]; reflexivity.
Defined.

(** A call of [updateApplicationStatus] that fails has written neither
    an application nor a notification. *)
Lemma updateApplicationStatus_throw w id newStatus comments e w' :
  updateApplicationStatus id newStatus comments w = (Throw e, w') ->
  applications w' = applications w /\ notifications w' = notifications w.
Proof.
  destruct w as [apps n sv cu l f i t z].
  unfold updateApplicationStatus.
  destruct (includes validStatuses newStatus) eqn:Hv; unfold_ops.
  2:{ intros H; inversion H; auto. }
  destruct f as [|[] f].
  - destruct (apps !! id) as [a|] eqn:Ha; [destruct cu as [u|]|]; rewrite ?Ha;
      intros H; inversion H; auto.
  - intros H; inversion H; auto.
  - destruct (apps !! id) as [a|] eqn:Ha; [destruct cu as [u|]|].
    + destruct f as [|[] f]; rewrite ?Ha.
      * intros H; inversion H.
      * intros H; inversion H; auto.
      * destruct f as [|[] f]; intros H; inversion H.
    + intros H; inversion H; auto.
    + intros H; inversion H; auto.
Qed.

(** X2.  A call of [updateApplicationStatus] that fails has written neither
    an application nor a notification; it has logged one error and
    nothing else, and what it throws is one of its two messages, the
    TypeError of a caller who is not signed in, or a rejection of the
    store. *)
Theorem updateApplicationStatus_failure_writes_nothing
        w id newStatus comments e w' :
  updateApplicationStatus id newStatus comments w = (Throw e, w') ->
  applications w' = applications w /\
  notifications w' = notifications w /\
  loggerCalls w' =
    loggerCalls w ++ [LogError "Failed to update application status"] /\
  (e = Error "Invalid status" /\ includes validStatuses newStatus = false \/
   e = Error "Application not found" /\ applications w !! id = None \/
   e = TypeError /\ currentUser w = None \/
   e = StorageError).
Proof.
  destruct w as [apps n sv cu l f i t z].
  unfold updateApplicationStatus.
  destruct (includes validStatuses newStatus) eqn:Hv; unfold_ops.
  2:{ intros H; inversion H; auto 10. }
  destruct f as [|[] f].
  - destruct (apps !! id) as [a|] eqn:Ha; [destruct cu as [u|]|]; rewrite ?Ha;
      intros H; inversion H; auto 10.
  - intros H; inversion H; auto 10.
  - destruct (apps !! id) as [a|] eqn:Ha; [destruct cu as [u|]|].
    + destruct f as [|[] f]; rewrite ?Ha.
      * intros H; inversion H.
      * intros H; inversion H; auto 10.
      * destruct f as [|[] f]; intros H; inversion H.
    + intros H; inversion H; auto 10.
    + intros H; inversion H; auto 10.
Qed.

Lemma updateApplicationStatus_failure_writes_nothing_witness :
  exists w',
    updateApplicationStatus "app9" "approved" "" sampleWorld =
      (Throw (Error "Application not found"), w') /\
    applications w' = applications sampleWorld /\
    notifications w' = notifications sampleWorld.
Proof.
  eexists. split; [reflexivity|].
  destruct (updateApplicationStatus_failure_writes_nothing
              sampleWorld "app9" "approved" "" (Error "Application not found")
              _ eq_refl) as (H1 & H2 & _).
  split; [exact H1 | exact H2].
Defined.

(** What a call of [submitApplication] that returns has done. *)
Lemma submitApplication_success data w id w' :
  submitApplication data w = (Ok id, w') ->
  exists uid service,
    validateApplicationData data = Ok tt /\
    services w !! field data "serviceId" = Some service /\
    currentUser w = Some uid /\
    applications w !! id = None /\
    applications w' = <[id := newApplication data w uid service]> (applications w) /\
    notifications w' = notifications w /\
    services w' = services w /\
    currentUser w' = currentUser w.
Proof.
  destruct w as [apps n sv cu l f i t z].
  unfold submitApplication, tryCatch, bind at 1, lift.
  destruct (validateApplicationData data) as [[]|e] eqn:Hv;
    [|unfold_ops; discriminate].
  unfold_ops.
  destruct f as [|[] f]; try discriminate.
  all: destruct (sv !! field data "serviceId") as [service|] eqn:Hs;
    try discriminate.
  all: destruct cu as [u|]; try discriminate.
  - destruct i as [|id0 i]; try discriminate.
    destruct (apps !! id0) eqn:Ha; try discriminate.
    intros H. inversion H; subst. exists u, service. repeat split; auto.
  - destruct f as [|[] f]; try discriminate.
    all: destruct i as [|id0 i]; try discriminate.
    all: destruct (apps !! id0) eqn:Ha; try discriminate.
    all: intros H; inversion H; subst; exists u, service; repeat split; auto.
Qed.

(** A call of [submitApplication] that fails has written nothing. *)
Lemma submitApplication_throw data w e w' :
  submitApplication data w = (Throw e, w') ->
  applications w' = applications w /\ notifications w' = notifications w.
Proof.
  destruct w as [apps n sv cu l f i t z].
  unfold submitApplication, tryCatch, bind at 1, lift.
  destruct (validateApplicationData data) as [[]|e0] eqn:Hv;
    [|unfold_ops; intros H; inversion H; auto].
  unfold_ops.
  destruct f as [|[] f]; try (intros H; inversion H; auto; fail).
  all: destruct (sv !! field data "serviceId") as [service|] eqn:Hs;
    try (intros H; inversion H; auto; fail).
  all: destruct cu as [u|]; try (intros H; inversion H; auto; fail).
  - destruct i as [|id0 i]; try (intros H; inversion H; auto; fail).
    destruct (apps !! id0) eqn:Ha; intros H; inversion H; auto.
  - destruct f as [|[] f]; try (intros H; inversion H; auto; fail).
    all: destruct i as [|id0 i]; try (intros H; inversion H; auto; fail).
    all: destruct (apps !! id0) eqn:Ha; intros H; inversion H; auto.
Qed.

(** X4.  A call of [submitApplication] that fails has written nothing, and it
    fails with "Service not found" when the form is valid, the store
    answers and the service of the form does not exist. *)
Theorem submitApplication_failure_writes_nothing data w :
  (forall e w',
      submitApplication data w = (Throw e, w') ->
      applications w' = applications w /\ notifications w' = notifications w) /\
  (validateApplicationData data = Ok tt ->
   storeAccepts 1 w = true ->
   services w !! field data "serviceId" = None ->
   exists w', submitApplication data w = (Throw (Error "Service not found"), w')).
Proof.
  destruct w as [apps n sv cu l f i t z]. split.
  - intros e w'.
    unfold submitApplication, tryCatch, bind at 1, lift.
    destruct (validateApplicationData data) as [[]|e0] eqn:Hv;
      [|unfold_ops; intros H; inversion H; auto].
    unfold_ops.
    destruct f as [|[] f]; try (intros H; inversion H; auto; fail).
    all: destruct (sv !! field data "serviceId") as [service|] eqn:Hs;
      try (intros H; inversion H; auto; fail).
    all: destruct cu as [u|]; try (intros H; inversion H; auto; fail).
    + destruct i as [|id0 i]; try (intros H; inversion H; auto; fail).
      destruct (apps !! id0) eqn:Ha; intros H; inversion H; auto.
    + destruct f as [|[] f]; try (intros H; inversion H; auto; fail).
      all: destruct i as [|id0 i]; try (intros H; inversion H; auto; fail).
      all: destruct (apps !! id0) eqn:Ha; intros H; inversion H; auto.
  - intros Hv Hf Hs.
    unfold submitApplication, tryCatch, bind at 1, lift. rewrite Hv.
    unfold_ops. destruct f as [|[] f]; try discriminate; rewrite Hs; eauto.
Qed.

Lemma submitApplication_failure_writes_nothing_witness :
  exists w',
    submitApplication (<["serviceId" := "svc9"]> sampleForm) sampleWorld =
      (Throw (Error "Service not found"), w') /\
    applications w' = applications sampleWorld.
Proof.
  destruct (submitApplication_failure_writes_nothing
              (<["serviceId" := "svc9"]> sampleForm) sampleWorld) as [H1 H2].
  destruct H2 as [w' Hw']; [reflexivity | reflexivity | reflexivity |].
  exists w'. split; [exact Hw'|]. apply (H1 _ _ Hw').
Defined.

(** X3.  With a valid form, an existing service, a signed-in caller and a
    store that accepts the read and the write, [submitApplication]
    returns the id that the store assigns and stores one new document
    under it: pending, owned by the caller, with a history of the one
    entry "pending" and the estimated date of the service's processing
    time; every other application is as it was. *)
Theorem submitApplication_stores_pending data w uid service id rest :
  validateApplicationData data = Ok tt ->
  services w !! field data "serviceId" = Some service ->
  currentUser w = Some uid ->
  storeAccepts 2 w = true ->
  idSupply w = id :: rest ->
  applications w !! id = None ->
  exists w' a,
    submitApplication data w = (Ok id, w') /\
    applications w' !! id = Some a /\
    (forall id', id' <> id -> applications w' !! id' = applications w !! id') /\
    status a = "pending" /\
    userId a = uid /\
    history a = [mkStatusEntry "pending" (now w) uid "Application submitted"] /\
    estimatedCompletionDate a = calculateEstimatedDate (s_processingTime service) w /\
    ad_name (applicantDetails a) = field data "applicantName" /\
    ad_email (applicantDetails a) = field data "applicantEmail" /\
    ad_phone (applicantDetails a) = field data "applicantPhone".
Proof.
  intros Hv Hs Hu Hf Hi Ha.
  destruct w as [apps n sv cu l f i t z]. simpl in Hs, Hu, Hi, Ha. subst cu i.
  exists (setLoggerCalls (l ++ [LogInfo "Application submitted successfully"])
            (mkWorld (<[id := newApplication data (mkWorld apps n sv (Some uid) l f (id :: rest) t z) uid service]> apps)
               n sv (Some uid) l (skipn 2 f) rest t z)).
  exists (newApplication data (mkWorld apps n sv (Some uid) l f (id :: rest) t z) uid service).
  split.
  - unfold submitApplication, tryCatch, bind at 1, lift. rewrite Hv.
    unfold_ops.
    destruct f as [|[] f]; try discriminate; rewrite Hs.
    + rewrite Ha. reflexivity.
    + destruct f as [|[] f]; try discriminate; rewrite Ha; reflexivity.
  - cbn [applications setLoggerCalls]. split; [apply lookup_insert_eq|].
    split; [intros id' Hne; apply lookup_insert_ne; congruence|].
    repeat split.
Qed.

Lemma submitApplication_stores_pending_witness :
  exists w' a,
    submitApplication sampleForm sampleWorld = (Ok "app2", w') /\
    applications w' !! "app2" = Some a /\
    status a = "pending" /\ userId a = "user1".
Proof.
  destruct (submitApplication_stores_pending sampleForm sampleWorld "user1"
              (mkService "Birth Certificate" (Some "7-10 days")) "app2" [])
    as (w' & a & H1 & H2 & _ & H3 & H4 & _); try reflexivity.
  exists w', a. auto.
Defined.
End ApplicationsOutcomes.

(** * The bulk update *)
Section BulkFacts.
Import Applications.

Ltac unfold_ops :=
  cbv beta iota zeta delta
    [updateApplicationStatus cancelApplication createNotification
     submitApplication getApplicationById
     tryCatch bind ret throw lift storeCall getApplication getService
     updateApplication addNotification addApplication
     logger_info logger_error currentUid serverTimestamp
     setApplications setNotifications setLoggerCalls setFaults setIdSupply
     applications notifications services currentUser loggerCalls faults
     idSupply now timeZone negb storeAccepts storeRejects
     forallb firstn andb fst snd untouched commitBatch] in *.

Lemma untouched_refl w : untouched w w.
Proof. repeat split. Qed.

Lemma untouched_trans w1 w2 w3 :
  untouched w1 w2 -> untouched w2 w3 -> untouched w1 w3.
Proof.
  unfold untouched. intros (A1 & A2 & A3 & A4 & A5 & A6) (B1 & B2 & B3 & B4 & B5 & B6).
  repeat split; congruence.
Qed.

Lemma untouched_setFaults f w : untouched w (setFaults f w).
Proof. repeat split. Qed.

Lemma bulkUpdateOf_untouched s c w w' u a :
  untouched w w' -> bulkUpdateOf s c w' u a = bulkUpdateOf s c w u a.
Proof. intros (_ & _ & _ & _ & H & _). unfold bulkUpdateOf. rewrite H. reflexivity. Qed.

(** The loop of [bulkUpdateStatus] never throws, writes nothing, and
    counts every id once. *)
Lemma bulkLoop_returns s c ids :
  forall batch results w,
  exists batch2 results' w',
    bulkLoop ids s c batch results w = (Ok (batch ++ batch2, results'), w') /\
    untouched w w' /\
    loggerCalls w' = loggerCalls w /\
    success results' = success results + length batch2 /\
    success results' + failed results' =
      success results + failed results + length ids /\
    length (errors results') + failed results =
      length (errors results) + failed results' /\
    Forall (fun p => exists a u,
                applications w !! fst p = Some a /\
                currentUser w = Some u /\
                snd p = bulkUpdateOf s c w u a) batch2.
Proof.
  induction ids as [|id ids IH]; intros batch results w.
  - exists [], results, w. rewrite app_nil_r. cbn [bulkLoop ret length].
    repeat split; auto; lia.
  - cbn [bulkLoop]. unfold bind at 1.
    match goal with
    | |- context [match ?m w with _ => _ end] =>
      assert (Hstep :
      exists b2 r1 w1, m w
        = (Ok (batch ++ b2, r1), w1) /\
        untouched w w1 /\ loggerCalls w1 = loggerCalls w /\
        success r1 = success results + length b2 /\
        success r1 + failed r1 = success results + failed results + 1 /\
        length (errors r1) + failed results = length (errors results) + failed r1 /\
        Forall (fun p => exists a u,
                    applications w !! fst p = Some a /\
                    currentUser w = Some u /\
                    snd p = bulkUpdateOf s c w u a) b2)
    end.
    { destruct w as [apps n sv cu l f i t z].
      assert (Hnil : forall (r : BulkResults) (w1 : world) e,
                 exists b2 r1 w1',
                   (Ok (batch, mkBulkResults (success results) (S (failed results))
                                 (errors results ++ [e])), w1)
                   = (Ok (batch ++ b2, r1), w1') /\ w1' = w1 /\ b2 = [] /\
                   r1 = mkBulkResults (success results) (S (failed results))
                                 (errors results ++ [e])).
      { intros r w1 e. exists [], (mkBulkResults (success results) (S (failed results))
                                 (errors results ++ [e])), w1.
        rewrite app_nil_r. auto. }
      unfold_ops.
      destruct f as [|[] f].
      - destruct (apps !! id) as [a|] eqn:Ha.
        + destruct cu as [u|].
          * eexists [_], _, _. split; [reflexivity|]. cbn.
            repeat split; auto; try lia.
            constructor; [|constructor]. exists a, u. cbn. auto.
          * eexists [], _, _. rewrite app_nil_r. split; [reflexivity|]. cbn.
            rewrite length_app. cbn. repeat split; auto; lia.
        + eexists [], _, _. rewrite app_nil_r. split; [reflexivity|]. cbn.
          rewrite length_app. cbn. repeat split; auto; lia.
      - eexists [], _, _. rewrite app_nil_r. split; [reflexivity|]. cbn.
        rewrite length_app. cbn. repeat split; auto; lia.
      - destruct (apps !! id) as [a|] eqn:Ha.
        + destruct cu as [u|].
          * eexists [_], _, _. split; [reflexivity|]. cbn.
            repeat split; auto; try lia.
            constructor; [|constructor]. exists a, u. cbn. auto.
          * eexists [], _, _. rewrite app_nil_r. split; [reflexivity|]. cbn.
            rewrite length_app. cbn. repeat split; auto; lia.
        + eexists [], _, _. rewrite app_nil_r. split; [reflexivity|]. cbn.
          rewrite length_app. cbn. repeat split; auto; lia. }
    destruct Hstep as (b2 & r1 & w1 & Hs & Hu1 & Hl1 & Hc1 & Hc2 & Hc3 & Hq1).
    destruct (IH (batch ++ b2) r1 w1)
      as (b3 & r2 & w2 & Hr & Hu2 & Hl2 & Hd1 & Hd2 & Hd3 & Hq2).
    exists (b2 ++ b3), r2, w2.
    split.
    { rewrite Hs. cbn [fst snd]. rewrite Hr, app_assoc. reflexivity. }
    split; [eapply untouched_trans; eauto|].
    split; [congruence|].
    rewrite length_app. cbn [length].
    split; [lia|]. split; [lia|]. split; [lia|].
    apply Forall_app. split; auto.
    eapply Forall_impl; [|exact Hq2].
    intros p (a & u & H1 & H2 & H3).
    pose proof Hu1 as (E1 & _ & _ & E4 & _).
    exists a, u. rewrite <- E1, <- E4. repeat split; auto.
    rewrite H3. apply bulkUpdateOf_untouched. exact Hu1.
Qed.
Lemma includes_In (xs : list string) x : includes xs x = true <-> In x xs.
Proof.
  unfold includes. rewrite existsb_exists. split.
  - intros (y & Hin & E). apply String.eqb_eq in E. subst. exact Hin.
  - intros Hin. exists x. split; [exact Hin | apply String.eqb_refl].
Qed.

Lemma queued_untouched s c w w' u ids :
  untouched w w' -> queued s c w' u ids = queued s c w u ids.
Proof.
  intros Hu. pose proof Hu as (E & _). unfold queued. rewrite E.
  apply flat_map_ext. intros id. destruct (applications w !! id); auto.
  rewrite (bulkUpdateOf_untouched _ _ _ _ _ _ Hu). reflexivity.
Qed.

Lemma absentIds_untouched w w' ids :
  untouched w w' -> absentIds w' ids = absentIds w ids.
Proof. intros (E & _). unfold absentIds. rewrite E. reflexivity. Qed.

Lemma queued_cons s c w u id ids :
  queued s c w u (id :: ids) = queued s c w u [id] ++ queued s c w u ids.
Proof. unfold queued. cbn [flat_map]. rewrite app_nil_r. reflexivity. Qed.

Lemma absentIds_cons w id ids :
  absentIds w (id :: ids) = absentIds w [id] ++ absentIds w ids.
Proof.
  unfold absentIds. cbn [List.filter].
  destruct (applications w !! id); reflexivity.
Qed.

(** With a signed-in caller and a store that answers every read, the
    loop queues one update for each id that exists and reports each id
    that does not. *)
Lemma bulkLoop_accepted s c u ids :
  forall batch results w,
    currentUser w = Some u ->
    storeAccepts (length ids) w = true ->
    exists w',
      bulkLoop ids s c batch results w =
        (Ok (batch ++ queued s c w u ids,
             mkBulkResults (success results + length (queued s c w u ids))
                           (failed results + length (absentIds w ids))
                           (errors results ++ List.map NotFound (absentIds w ids))),
         w') /\
      untouched w w' /\
      faults w' = skipn (length ids) (faults w).
Proof.
  induction ids as [|id ids IH]; intros batch results w Hu Hf.
  - exists w. cbn. rewrite !app_nil_r, !Nat.add_0_r.
    destruct results; repeat split.
  - cbn [bulkLoop]. unfold bind at 1.
    match goal with
    | |- context [match ?m w with _ => _ end] =>
      assert (Hstep :
        exists w1,
          m w = (Ok (batch ++ queued s c w u [id],
                     mkBulkResults (success results + length (queued s c w u [id]))
                       (failed results + length (absentIds w [id]))
                       (errors results ++ List.map NotFound (absentIds w [id]))), w1) /\
          untouched w w1 /\ faults w1 = skipn 1 (faults w))
    end.
    { destruct w as [apps n sv cu l f i t z]. cbn in Hu. subst cu.
      unfold queued, absentIds. cbn [flat_map List.filter applications].
      unfold_ops. cbn [length] in Hf.
      destruct f as [|[] f]; [| discriminate Hf |];
        (destruct (apps !! id) as [a|] eqn:Ha; cbn;
         rewrite ?app_nil_r, ?Nat.add_0_r, ?Nat.add_1_r;
         eexists; (split; [reflexivity|]); repeat split). }
    destruct Hstep as (w1 & Hs & Hu1 & Hf1). rewrite Hs. cbn [fst snd].
    assert (Hu' : currentUser w1 = Some u).
    { destruct Hu1 as (_ & _ & _ & E & _). congruence. }
    assert (Hf' : storeAccepts (length ids) w1 = true).
    { unfold storeAccepts in *. rewrite Hf1. cbn [length] in Hf.
      destruct (faults w) as [|b f]; [destruct (length ids); reflexivity|].
      cbn in Hf. apply andb_true_iff in Hf. destruct Hf as [_ Hf]. exact Hf. }
    destruct (IH (batch ++ queued s c w u [id])
                 (mkBulkResults (success results + length (queued s c w u [id]))
                       (failed results + length (absentIds w [id]))
                       (errors results ++ List.map NotFound (absentIds w [id])))
                 w1 Hu' Hf') as (w2 & Hr & Hu2 & Hf2).
    exists w2. split; [|split].
    + rewrite Hr. rewrite (queued_untouched _ _ _ _ _ _ Hu1),
        (absentIds_untouched _ _ _ Hu1).
      cbn [success failed errors].
      rewrite (queued_cons s c w u id ids), (absentIds_cons w id ids).
      rewrite List.map_app, !length_app, !app_assoc, !Nat.add_assoc.
      reflexivity.
    + eapply untouched_trans; eauto.
    + rewrite Hf2, Hf1. cbn [length]. destruct (faults w); [destruct (length ids)|]; reflexivity.
Qed.

Lemma applyUpdate_bulk_again s c w u a :
  applyUpdate (bulkUpdateOf s c w u a) (bulkUpdated s c w u a) =
  bulkUpdated s c w u a.
Proof. reflexivity. Qed.

(** The queued updates of a bulk update always apply, and leave each
    listed document updated once. *)
Lemma applyBatch_queued s c w u ids :
  forall apps D,
    (forall id,
        (In id D -> apps !! id = option_map (bulkUpdated s c w u) (applications w !! id)) /\
        (~ In id D -> apps !! id = applications w !! id)) ->
    exists apps',
      applyBatch (queued s c w u ids) apps = Some apps' /\
      forall id,
        (In id (D ++ ids) ->
         apps' !! id = option_map (bulkUpdated s c w u) (applications w !! id)) /\
        (~ In id (D ++ ids) -> apps' !! id = applications w !! id).
Proof.
  induction ids as [|i ids IH]; intros apps D Hinv.
  - exists apps. split; [reflexivity|]. rewrite app_nil_r. exact Hinv.
  - assert (Hnext : forall apps1,
        (forall id,
          (In id (D ++ [i]) ->
           apps1 !! id = option_map (bulkUpdated s c w u) (applications w !! id)) /\
          (~ In id (D ++ [i]) -> apps1 !! id = applications w !! id)) ->
        exists apps',
          applyBatch (queued s c w u ids) apps1 = Some apps' /\
          forall id,
            (In id (D ++ i :: ids) ->
             apps' !! id = option_map (bulkUpdated s c w u) (applications w !! id)) /\
            (~ In id (D ++ i :: ids) -> apps' !! id = applications w !! id)).
    { intros apps1 H1. destruct (IH apps1 (D ++ [i]) H1) as (apps' & Ha & Hl).
      exists apps'. split; [exact Ha|]. intros id.
      replace (D ++ i :: ids) with ((D ++ [i]) ++ ids)
        by (rewrite <- app_assoc; reflexivity).
      apply Hl. }
    unfold queued. cbn [flat_map]. fold (queued s c w u ids).
    destruct (applications w !! i) as [a0|] eqn:H0.
    + cbn [app applyBatch].
      assert (Hcur : exists a', apps !! i = Some a' /\
                applyUpdate (bulkUpdateOf s c w u a0) a' = bulkUpdated s c w u a0).
      { destruct (in_dec string_dec i D) as [Hin|Hin].
        - exists (bulkUpdated s c w u a0). split.
          + rewrite (proj1 (Hinv i) Hin), H0. reflexivity.
          + reflexivity.
        - exists a0. split; [rewrite (proj2 (Hinv i) Hin); exact H0 | reflexivity]. }
      destruct Hcur as (a' & Ha' & Hup). rewrite Ha', Hup.
      apply Hnext. intros id. split.
      * intros Hin. destruct (string_dec id i) as [->|Hne].
        -- rewrite lookup_insert_eq, H0. reflexivity.
        -- rewrite lookup_insert_ne by congruence.
           apply in_app_or in Hin. destruct Hin as [Hin|[E|[]]]; [|congruence].
           apply (Hinv id). exact Hin.
      * intros Hin. assert (id <> i).
        { intros ->. apply Hin. apply in_or_app. right. left. reflexivity. }
        rewrite lookup_insert_ne by congruence.
        apply (Hinv id). intros H'. apply Hin. apply in_or_app. left. exact H'.
    + cbn [app]. apply Hnext. intros id. split.
      * intros Hin. apply in_app_or in Hin. destruct Hin as [Hin|[E|[]]].
        -- apply (Hinv id). exact Hin.
        -- subst id. rewrite H0. cbn.
           destruct (in_dec string_dec i D) as [Hi|Hi].
           ++ rewrite (proj1 (Hinv i) Hi), H0. reflexivity.
           ++ rewrite (proj2 (Hinv i) Hi). exact H0.
      * intros Hin. apply (Hinv id). intros H'. apply Hin. apply in_or_app. left. exact H'.
Qed.

(** Applying queued updates keeps a property of documents that every
    update establishes. *)
Lemma applyBatch_keeps (P : Application -> Prop) batch :
  Forall (fun p => forall a, P (applyUpdate (snd p) a)) batch ->
  forall apps apps',
    (forall id a, apps !! id = Some a -> P a) ->
    applyBatch batch apps = Some apps' ->
    forall id a, apps' !! id = Some a -> P a.
Proof.
  induction 1 as [|[i u] batch Hp _ IH]; intros apps apps' Hall Happ.
  - cbn in Happ. inversion Happ; subst. exact Hall.
  - cbn [applyBatch] in Happ. destruct (apps !! i) as [a0|] eqn:H0; [|discriminate].
    eapply IH; [|exact Happ].
    intros id a. destruct (string_dec id i) as [->|Hne].
    + rewrite lookup_insert_eq. intros E. inversion E. apply Hp.
    + rewrite lookup_insert_ne by congruence. apply Hall.
Qed.

(** Queued updates touch the listed ids only. *)
Lemma applyBatch_frame batch :
  forall apps apps',
    applyBatch batch apps = Some apps' ->
    forall id, ~ In id (List.map fst batch) -> apps' !! id = apps !! id.
Proof.
  induction batch as [|[i u] batch IH]; intros apps apps' Happ id Hin.
  - cbn in Happ. inversion Happ. reflexivity.
  - cbn [applyBatch] in Happ. destruct (apps !! i) as [a0|] eqn:H0; [|discriminate].
    rewrite (IH _ _ Happ id).
    + apply lookup_insert_ne. intros ->. apply Hin. left. reflexivity.
    + intros H. apply Hin. right. exact H.
Qed.

(** What a call of [bulkUpdateStatus] does: its loop returns a batch
    and a report, and the call either throws and writes nothing or
    returns the report after the batch has been applied. *)
Lemma bulkUpdateStatus_outcome ids s c w :
  exists batch r w1,
    bulkLoop ids s c [] (mkBulkResults 0 0 []) w = (Ok (batch, r), w1) /\
    untouched w w1 /\
    forall res w',
      bulkUpdateStatus ids s c w = (res, w') ->
      notifications w' = notifications w /\
      ((exists e, res = Throw e /\ applications w' = applications w) \/
       (res = Ok r /\ applyBatch batch (applications w) = Some (applications w'))).
Proof.
  destruct (bulkLoop_returns s c ids [] (mkBulkResults 0 0 []) w)
    as (batch & r & w1 & Hl & Hu & _).
  cbn [app] in Hl. exists batch, r, w1. split; [exact Hl|]. split; [exact Hu|].
  intros res w'. unfold bulkUpdateStatus, tryCatch, bind at 1. rewrite Hl.
  cbn [fst snd]. destruct Hu as (E1 & E2 & _). clear Hl.
  destruct w as [apps0 n0 sv0 cu0 l0 f0 i0 t0 z0].
  destruct w1 as [apps n sv cu l f i t z]. cbn in E1, E2. subst apps n.
  destruct batch as [|p batch].
  - unfold_ops. intros H. inversion H; subst. split; auto.
  - unfold_ops.
    destruct f as [|[] f].
    + destruct (applyBatch (p :: batch) apps0) as [apps'|] eqn:Ha;
        intros H; inversion H; subst; split; eauto.
    + intros H; inversion H; subst; split; eauto.
    + destruct (applyBatch (p :: batch) apps0) as [apps'|] eqn:Ha;
        intros H; inversion H; subst; split; eauto.
Qed.

(** X7.  The report of [bulkUpdateStatus] counts every id once, as a success
    or as a failure with one message; the call creates no notification,
    and when it throws it has changed no application. *)
Theorem bulkUpdateStatus_accounts ids newStatus comments w :
  (forall r w',
      bulkUpdateStatus ids newStatus comments w = (Ok r, w') ->
      success r + failed r = length ids /\
      length (errors r) = failed r /\
      notifications w' = notifications w) /\
  (forall e w',
      bulkUpdateStatus ids newStatus comments w = (Throw e, w') ->
      applications w' = applications w /\
      notifications w' = notifications w).
Proof.
  destruct (bulkLoop_returns newStatus comments ids [] (mkBulkResults 0 0 []) w)
    as (batch & r & w1 & Hl & _ & _ & _ & Hc2 & Hc3 & _).
  destruct (bulkUpdateStatus_outcome ids newStatus comments w)
    as (batch' & r' & w1' & Hl' & _ & Hout).
  cbn [app] in Hl. rewrite Hl in Hl'. inversion Hl'; subst batch' r' w1'.
  cbn in Hc2, Hc3. split.
  - intros r0 w' H. destruct (Hout _ _ H) as (Hn & [(e & E & _)|(E & _)]);
      [discriminate|]. inversion E; subst. repeat split; auto; lia.
  - intros e w' H. destruct (Hout _ _ H) as (Hn & [(e' & E & Ha)|(E & _)]);
      [|discriminate]. auto.
Qed.

Lemma bulkUpdateStatus_accounts_witness :
  exists r w',
    bulkUpdateStatus ["app1"; "app9"; "app1"] "approved" "" sampleWorld = (Ok r, w') /\
    success r + failed r = 3 /\
    length (errors r) = failed r.
Proof.
  eexists. eexists. split; [reflexivity|].
  destruct (bulkUpdateStatus_accounts ["app1"; "app9"; "app1"] "approved" ""
              sampleWorld) as [H _].
  destruct (H _ _ eq_refl) as (H1 & H2 & _). split; [exact H1 | exact H2].
Defined.

Lemma queued_absent_length s c w u ids :
  length (queued s c w u ids) = length ids - length (absentIds w ids).
Proof.
  unfold queued, absentIds. induction ids as [|i ids IH]; [reflexivity|].
  cbn [flat_map List.filter].
  pose proof (List.filter_length_le
                (fun id => match applications w !! id with
                           | Some _ => false
                           | None => true
                           end) ids) as Hle.
  destruct (applications w !! i); cbn [app length]; rewrite IH; lia.
Qed.

Lemma storeAccepts_fewer n w :
  storeAccepts (n + 1) w = true -> storeAccepts n w = true.
Proof.
  unfold storeAccepts. generalize (faults w).
  induction n as [|k IH]; intros f; [reflexivity|].
  destruct f as [|b f]; [reflexivity|]. cbn.
  destruct (negb b); [apply IH | discriminate].
Qed.

Lemma storeAccepts_next n w rest :
  storeAccepts (n + 1) w = true -> skipn n (faults w) <> true :: rest.
Proof.
  unfold storeAccepts. generalize (faults w).
  induction n as [|k IH]; intros f.
  - destruct f as [|[] f]; cbn; intros H1 H2; try discriminate H1; discriminate H2.
  - destruct f as [|b f]; cbn; [discriminate|].
    destruct (negb b); [apply IH | discriminate].
Qed.

(** What a bulk update does when the caller is signed in and the store
    accepts every call. *)
Lemma bulkUpdateStatus_effect ids newStatus comments w uid :
  currentUser w = Some uid ->
  storeAccepts (length ids + 1) w = true ->
  exists w',
    bulkUpdateStatus ids newStatus comments w =
      (Ok (mkBulkResults (length ids - length (absentIds w ids))
                         (length (absentIds w ids))
                         (List.map NotFound (absentIds w ids))), w') /\
    notifications w' = notifications w /\
    forall id,
      applications w' !! id =
      match applications w !! id with
      | Some a =>
          Some (if includes ids id
                then bulkUpdated newStatus comments w uid a
                else a)
      | None => None
      end.
Proof.
  intros Hu Hf.
  destruct (bulkLoop_accepted newStatus comments uid ids [] (mkBulkResults 0 0 []) w
              Hu (storeAccepts_fewer _ _ Hf))
    as (w1 & Hl & Hun & Hfl).
  cbn [app success failed errors Nat.add] in Hl.
  rewrite queued_absent_length in Hl.
  destruct (applyBatch_queued newStatus comments w uid ids (applications w) [])
    as (apps' & Happ & Hlook).
  { intros id. split; [intros []|reflexivity]. }
  pose proof (fun rest => storeAccepts_next _ _ rest Hf) as Hnext.
  rewrite <- Hfl in Hnext.
  assert (Hread : forall id,
             apps' !! id =
             match applications w !! id with
             | Some a => Some (if includes ids id
                               then bulkUpdated newStatus comments w uid a
                               else a)
             | None => None
             end).
  { intros id. destruct (includes ids id) eqn:E.
    - apply includes_In in E. rewrite (proj1 (Hlook id) E).
      destruct (applications w !! id); reflexivity.
    - assert (Hn : ~ In id ([] ++ ids)).
      { cbn [app]. intros H. apply includes_In in H. congruence. }
      rewrite (proj2 (Hlook id) Hn).
      destruct (applications w !! id); reflexivity. }
  unfold bulkUpdateStatus, tryCatch, bind at 1. rewrite Hl. cbn [fst snd].
  clear Hl Hlook Hf Hu Hfl.
  destruct Hun as (E1 & E2 & _).
  revert Happ. generalize (queued newStatus comments w uid ids) as q.
  generalize (absentIds w ids) as missing. intros missing q Happ.
  destruct w as [apps0 n0 sv0 cu0 l0 f0 i0 t0 z0].
  destruct w1 as [apps n sv cu l f i t z]. cbn in E1, E2, Hnext. subst apps n.
  cbn [applications notifications] in *.
  destruct q as [|p q].
  - cbn in Happ. inversion Happ; subst apps'.
    unfold_ops. eexists. split; [reflexivity|]. split; [reflexivity|]. exact Hread.
  - unfold_ops.
    destruct f as [|[] f].
    + rewrite Happ. eexists. split; [reflexivity|]. split; [reflexivity|]. exact Hread.
    + exfalso. apply (Hnext f). reflexivity.
    + rewrite Happ. eexists. split; [reflexivity|]. split; [reflexivity|]. exact Hread.
Qed.

(** X8.  With a signed-in caller and a store that accepts every call,
    [bulkUpdateStatus] returns, for any status whatever: it counts the
    ids that exist as successes and reports each other id as not found;
    every listed document that exists gets the new status, a history
    longer by one entry (whose comment is the one given or, without
    one, "Bulk update to" and the status) and the caller as its last
    editor, and keeps its completion time; no other document changes,
    none is created, and no notification is written. *)
Theorem bulkUpdateStatus_updates_listed ids newStatus comments w uid :
  currentUser w = Some uid ->
  storeAccepts (length ids + 1) w = true ->
  exists w',
    bulkUpdateStatus ids newStatus comments w =
      (Ok (mkBulkResults (length ids - length (absentIds w ids))
                         (length (absentIds w ids))
                         (List.map NotFound (absentIds w ids))), w') /\
    notifications w' = notifications w /\
    (forall id a,
        In id ids ->
        applications w !! id = Some a ->
        exists a',
          applications w' !! id = Some a' /\
          status a' = newStatus /\
          history a' =
            history a ++
            [mkStatusEntry newStatus (now w) uid
               (orElse comments ("Bulk update to " ++ newStatus))] /\
          lastUpdatedBy a' = Some uid /\
          updatedAt a' = Some (now w) /\
          completedAt a' = completedAt a /\
          userId a' = userId a) /\
    (forall id, ~ In id ids -> applications w' !! id = applications w !! id) /\
    (forall id, applications w !! id = None -> applications w' !! id = None).
Proof.
  intros Hu Hf.
  destruct (bulkUpdateStatus_effect ids newStatus comments w uid Hu Hf)
    as (w' & Hb & Hn & Hread).
  exists w'. split; [exact Hb|]. split; [exact Hn|]. split; [|split].
  - intros id a Hin Ha. exists (bulkUpdated newStatus comments w uid a).
    rewrite (Hread id), Ha.
    apply includes_In in Hin. rewrite Hin. repeat split.
  - intros id Hin. rewrite (Hread id).
    destruct (includes ids id) eqn:E.
    + exfalso. apply Hin. apply includes_In. exact E.
    + destruct (applications w !! id); reflexivity.
  - intros id Ha. rewrite (Hread id), Ha. reflexivity.
Qed.

Lemma bulkUpdateStatus_updates_listed_witness :
  exists w',
    bulkUpdateStatus ["app1"; "app9"] "archived" "" sampleWorld =
      (Ok (mkBulkResults 1 1 [NotFound "app9"]), w') /\
    exists a',
      applications w' !! "app1" = Some a' /\
      status a' = "archived" /\
      completedAt a' = None.
Proof.
  destruct (bulkUpdateStatus_updates_listed ["app1"; "app9"] "archived" ""
              sampleWorld "user1") as (w' & H1 & _ & H2 & _);
    [reflexivity | reflexivity |].
  exists w'. split; [exact H1|].
  destruct (H2 "app1" sampleApplication) as (a' & Ha & Hs & _ & _ & _ & Hc & _);
    [left; reflexivity | reflexivity |].
  exists a'. split; [exact Ha|]. split; [exact Hs | exact Hc].
Defined.
End BulkFacts.

(** * The store as a whole: an invariant of every writer, and reading
    back *)
Section StoreInvariant.
Import Applications.

Ltac unfold_ops :=
  cbv beta iota zeta delta
    [updateApplicationStatus cancelApplication createNotification
     submitApplication getApplicationById
     tryCatch bind ret throw lift storeCall getApplication getService
     updateApplication addNotification addApplication
     logger_info logger_error currentUid serverTimestamp
     setApplications setNotifications setLoggerCalls setFaults setIdSupply
     applications notifications services currentUser loggerCalls faults
     idSupply now timeZone negb storeAccepts storeRejects
     forallb firstn andb fst snd] in *.

(** [cancelApplication] writes neither an application nor a
    notification, whatever it is called with. *)
Lemma cancelApplication_writes_nothing id reason w r w' :
  cancelApplication id reason w = (r, w') ->
  applications w' = applications w /\ notifications w' = notifications w.
Proof.
  destruct w as [apps n sv cu l f i t z].
  unfold cancelApplication, tryCatch at 1, bind at 1.
  assert (Hget :
    (exists f', getApplication id (mkWorld apps n sv cu l f i t z) =
                (Ok (apps !! id), mkWorld apps n sv cu l f' i t z)) \/
    (exists f', getApplication id (mkWorld apps n sv cu l f i t z) =
                (Throw StorageError, mkWorld apps n sv cu l f' i t z))).
  { unfold_ops. destruct f as [|[] f]; eauto. }
  destruct Hget as [[f' ->]|[f' ->]].
  - destruct (apps !! id) as [a|].
    + unfold bind at 1. cbv beta iota delta [currentUid currentUser].
      destruct cu as [u|]; [|unfold_ops; intros H; inversion H; auto].
      destruct (negb (String.eqb (userId a) u));
        [unfold_ops; intros H; inversion H; auto|].
      destruct (negb (String.eqb (status a) "pending"));
        [unfold_ops; intros H; inversion H; auto|].
      unfold bind at 1. rewrite updateApplicationStatus_cancelled.
      unfold_ops. intros H; inversion H; auto.
    + unfold_ops; intros H; inversion H; auto.
  - unfold_ops; intros H; inversion H; auto.
Qed.

(** X5.  Every application that [submitApplication], [updateApplicationStatus],
    [cancelApplication] or [bulkUpdateStatus] writes has the status of
    the last entry of its history; so a store in which every
    application has, keeps having it after any call of the four,
    whether the call returns or throws. *)
Theorem writers_keep_status_and_history_in_step w :
  consistent w ->
  (forall data r w', submitApplication data w = (r, w') -> consistent w') /\
  (forall id s c r w', updateApplicationStatus id s c w = (r, w') -> consistent w') /\
  (forall id reason r w', cancelApplication id reason w = (r, w') -> consistent w') /\
  (forall ids s c r w', bulkUpdateStatus ids s c w = (r, w') -> consistent w').
Proof.
  intros Hc. repeat split.
  - intros data [id|e] w' H.
    + apply submitApplication_success in H.
      destruct H as (uid & service & _ & _ & _ & _ & Happs & _).
      intros id' a. rewrite Happs. destruct (string_dec id' id) as [->|Hne].
      * rewrite lookup_insert_eq. intros E; inversion E. reflexivity.
      * rewrite lookup_insert_ne by congruence. apply Hc.
    + apply submitApplication_throw in H. destruct H as [H _].
      intros id' a. rewrite H. apply Hc.
  - intros id s c [[]|e] w' H.
    + apply updateApplicationStatus_success in H.
      destruct H as (a0 & u & _ & _ & _ & Happs).
      intros id' a. rewrite Happs. destruct (string_dec id' id) as [->|Hne].
      * rewrite lookup_insert_eq. intros E; inversion E.
        unfold history. cbn [statusHistory status applyUpdate u_status u_statusHistory].
        apply lastStatus_snoc.
      * rewrite lookup_insert_ne by congruence. apply Hc.
    + apply updateApplicationStatus_throw in H. destruct H as [H _].
      intros id' a. rewrite H. apply Hc.
  - intros id reason r w' H.
    apply cancelApplication_writes_nothing in H. destruct H as [H _].
    intros id' a. rewrite H. apply Hc.
  - intros ids s c r w' H.
    destruct (bulkLoop_returns s c ids [] (mkBulkResults 0 0 []) w)
      as (batch & r1 & w1 & Hl & _ & _ & _ & _ & _ & Hq).
    destruct (bulkUpdateStatus_outcome ids s c w)
      as (batch' & r' & w1' & Hl' & _ & Hout).
    cbn [app] in Hl. rewrite Hl in Hl'. inversion Hl'; subst batch' r' w1'.
    destruct (Hout _ _ H) as (_ & [(e & _ & Ha)|(_ & Ha)]).
    + intros id' a. rewrite Ha. apply Hc.
    + intros id' a.
      apply (applyBatch_keeps
               (fun a => lastStatus (history a) = Some (status a)) batch)
        with (apps := applications w); auto.
      eapply Forall_impl; [|exact Hq].
      intros p (a0 & u & _ & _ & Hp) a1. rewrite Hp.
      unfold history, bulkUpdateOf.
      cbn [statusHistory status applyUpdate u_status u_statusHistory].
      apply lastStatus_snoc.
Qed.

Lemma writers_keep_status_and_history_in_step_witness :
  consistent sampleWorld /\
  forall r w',
    bulkUpdateStatus ["app1"] "archived" "" sampleWorld = (r, w') -> consistent w'.
Proof.
  assert (H : consistent sampleWorld).
  { intros id a Ha. unfold sampleWorld in Ha. cbn [applications] in Ha.
    apply lookup_singleton_Some in Ha. destruct Ha as [_ <-].
    reflexivity. }
  split; [exact H|].
  intros r w'.
  apply (writers_keep_status_and_history_in_step sampleWorld H).
Defined.


End StoreInvariant.

(** * Searching applications *)
Section SearchFacts.
Import Applications.
Variable getAllApplications : M (list Application).

Lemma lowerChar_upperChar c : Js.lowerChar (Js.upperChar c) = Js.lowerChar c.
Proof. destruct c as [[] [] [] [] [] [] [] []]; reflexivity. Qed.

Lemma toLowerCase_toUpperCase s :
  Js.toLowerCase (Js.toUpperCase s) = Js.toLowerCase s.
Proof.
  induction s as [|c s IH]; [reflexivity|].
  cbn. rewrite lowerChar_upperChar. f_equal. exact IH.
Qed.

Lemma toUpperCase_truthy s : truthy (Js.toUpperCase s) = truthy s.
Proof. destruct s; reflexivity. Qed.

Lemma matchesSearch_upper searchTerm app :
  matchesSearch (Js.toUpperCase searchTerm) app = matchesSearch searchTerm app.
Proof. unfold matchesSearch. rewrite toLowerCase_toUpperCase. reflexivity. Qed.

(** X9.  For a search term of ASCII characters, [searchApplications]
    does not tell the term from the same term in capitals: the two searches return the same applications,
    in the order of the query, and do the same to the world.  With an
    empty term the search returns what the query returned; otherwise it
    returns the applications whose id, service name, applicant name or
    applicant email holds the term, letter case apart, and no other. *)
Theorem searchApplications_ignores_case searchTerm w :
  asciiOnly searchTerm = true ->
  searchApplications getAllApplications (Js.toUpperCase searchTerm) w =
    searchApplications getAllApplications searchTerm w /\
  (forall apps w1,
      getAllApplications w = (Ok apps, w1) ->
      exists w2,
        searchApplications getAllApplications searchTerm w =
          (Ok (if truthy searchTerm
               then List.filter (matchesSearch searchTerm) apps
               else apps), w2) /\
        applications w2 = applications w1 /\
        notifications w2 = notifications w1).
Proof.
  intros _. split.
  - unfold searchApplications, tryCatch.
    match goal with
    | |- (let (_, _) := ?m1 w in _) = (let (_, _) := ?m2 w in _) =>
      assert (Hbody : m1 w = m2 w)
    end.
    { unfold bind at 1 3.
      destruct (getAllApplications w) as [[apps|e] w1]; [|reflexivity].
      rewrite toUpperCase_truthy. destruct (truthy searchTerm); [|reflexivity].
      cbn [negb].
      rewrite (filter_ext _ _ (matchesSearch_upper searchTerm)). reflexivity. }
    rewrite Hbody. reflexivity.
  - intros apps w1 Hq. unfold searchApplications, tryCatch, bind at 1. rewrite Hq.
    destruct (truthy searchTerm); cbn [negb].
    + eexists. split; [reflexivity|]. split; reflexivity.
    + eexists. split; [reflexivity|]. split; reflexivity.
Qed.
End SearchFacts.

Lemma searchApplications_ignores_case_witness :
  Applications.searchApplications
    (Applications.ret [Applications.sampleApplication]) "BIRTH"
    Applications.sampleWorld =
  Applications.searchApplications
    (Applications.ret [Applications.sampleApplication]) "birth"
    Applications.sampleWorld /\
  fst (Applications.searchApplications
         (Applications.ret [Applications.sampleApplication]) "birth"
         Applications.sampleWorld) =
    Ok [Applications.sampleApplication].
Proof.
  destruct (searchApplications_ignores_case
              (Applications.ret [Applications.sampleApplication]) "birth"
              Applications.sampleWorld eq_refl) as [H _].
  split; [exact H | reflexivity].
Defined.

(** * More properties of the sanitizer *)
Section SanitizerGuarantees.
Import Logger.

Lemma replaceOwn_Forall {A} (Q : string * A -> Prop) k v (o : Js.props A) :
  Forall Q o -> Q (k, v) -> Forall Q (Js.replaceOwn k v o).
Proof.
  intros Ho Hk. induction Ho as [|[k' v'] o Hq Ho IH]; simpl; [constructor|].
  destruct (String.eqb k' k) eqn:E.
  - apply String.eqb_eq in E. subst k'. constructor; auto.
  - constructor; auto.
Qed.

Lemma insertIndex_Forall {A} (Q : string * A -> Prop) n k v (o : Js.props A) :
  Forall Q o -> Q (k, v) -> Forall Q (Js.insertIndex n k v o).
Proof.
  intros Ho Hk. induction Ho as [|[k' v'] o Hq Ho IH]; simpl.
  - constructor; auto.
  - destruct (Js.arrayIndex k') as [n'|]; [destruct (n' <? n)%Z|];
      repeat constructor; auto.
Qed.

Lemma assign_Forall {A} (Q : string * A -> Prop) k v (o : Js.props A) :
  Forall Q o -> Q (k, v) -> Forall Q (Js.assign k v o).
Proof.
  intros Ho Hk. unfold Js.assign, Js.define.
  destruct (Js.hasOwn k o); [apply replaceOwn_Forall; auto|].
  destruct (String.eqb k "__proto__"); auto.
  destruct (Js.arrayIndex k); [apply insertIndex_Forall; auto|].
  apply Forall_app. split; auto.
Qed.

(** The recursive sanitizer leaves no value under a sensitive key. *)
Lemma sanitizeObject_leakFree v : leakFree (sanitizeObject v) = true.
Proof.
  induction v as [| | | | |items IH|o IH] using value_nested_ind;
    try reflexivity.
  - cbn [sanitizeObject leakFree]. apply forallb_forall. intros x Hx.
    apply in_map_iff in Hx. destruct Hx as (y & <- & Hy).
    rewrite Forall_forall in IH. apply IH. exact Hy.
  - cbn [sanitizeObject leakFree]. apply forallb_forall.
    apply Forall_forall.
    assert (Hfold : forall acc : Js.props Js.value,
       Forall (fun kv => (if isSensitive (fst kv) then isRedacted (snd kv)
                          else leakFree (snd kv)) = true) acc ->
       Forall (fun kv => (if isSensitive (fst kv) then isRedacted (snd kv)
                          else leakFree (snd kv)) = true)
         (fold_left
            (fun sanitizedObj entry =>
               let key := fst entry in
               if isSensitive key
               then Js.assign key REDACTED sanitizedObj
               else Js.assign key (sanitizeObject (snd entry)) sanitizedObj)
            o acc)).
    { induction IH as [|[k x] o Hx _ IHl]; intros acc Hacc; simpl; auto.
      apply IHl. destruct (isSensitive k) eqn:Hk.
      - apply assign_Forall; auto. cbn [fst snd]. rewrite Hk. reflexivity.
      - apply assign_Forall; auto. cbn [fst snd]. rewrite Hk. exact Hx. }
    apply Hfold. constructor.
Qed.

(** X10.  Whatever [sanitizeData] is given, in what it returns every
    value under a sensitive key, at any depth, is the marker
    "[REDACTED]"; and so it is in the data of every entry that [log]
    makes. *)
Theorem sanitizeData_leaves_no_sensitive_value :
  (forall v, leakFree (sanitizeData v) = true) /\
  (forall env level message v context l,
      leakFree (Logger.data (makeLogEntry env level message v context l)) = true).
Proof.
  assert (H : forall v, leakFree (sanitizeData v) = true).
  { intros v. unfold sanitizeData.
    destruct (negb (Js.truthyValue v) || negb (Js.isObjectType v)) eqn:E.
    - destruct v; try reflexivity; discriminate E.
    - apply sanitizeObject_leakFree. }
  split; [exact H|].
  intros env level message v context l. unfold makeLogEntry. cbn [Logger.data].
  destruct (Js.truthyValue v); [apply H | reflexivity].
Qed.

Lemma redact_keys o o' :
  redact (Js.Obj o) = Js.Obj o' -> List.map fst o' = List.map fst o.
Proof.
  cbn [redact]. intros H. inversion H. rewrite List.map_map. reflexivity.
Qed.

Lemma redact_plain v : plain v = true -> plain (redact v) = true.
Proof.
  induction v as [| | | | |items IH|o IH] using value_nested_ind;
    intros Hp; try reflexivity.
  - cbn [redact plain] in *. rewrite forallb_forall in *. intros x Hx.
    apply in_map_iff in Hx. destruct Hx as (y & <- & Hy).
    rewrite Forall_forall in IH. apply IH; auto.
  - cbn [redact plain] in *.
    apply andb_true_iff in Hp as [Hp Hvals].
    replace (List.map fst
               (List.map (fun kv => (fst kv,
                                     if isSensitive (fst kv) then REDACTED
                                     else redact (snd kv))) o))
      with (List.map fst o) by (rewrite List.map_map; reflexivity).
    rewrite Hp. cbn [andb].
    rewrite forallb_forall in *. intros kv Hkv.
    apply in_map_iff in Hkv. destruct Hkv as (kv0 & <- & Hin). cbn [snd].
    destruct (isSensitive (fst kv0)); [reflexivity|].
    rewrite Forall_forall in IH. apply IH; auto.
Qed.

Lemma redact_again v : redact (redact v) = redact v.
Proof.
  induction v as [| | | | |items IH|o IH] using value_nested_ind;
    try reflexivity.
  - cbn [redact]. f_equal. rewrite List.map_map.
    apply map_ext_in. intros x Hx. rewrite Forall_forall in IH. apply IH; auto.
  - cbn [redact]. f_equal. rewrite List.map_map.
    apply map_ext_in. intros kv Hkv. cbn [fst snd].
    destruct (isSensitive (fst kv)); [reflexivity|].
    rewrite Forall_forall in IH. rewrite IH; auto.
Qed.

(** X11.  On an object as a JSON text denotes it, [sanitizeData] keeps the
    keys and their order, puts the marker under each sensitive key and
    the sanitized value under each other key; an object without any
    sensitive key comes back as it is. *)
Theorem sanitizeData_keeps_shape o :
  plain (Js.Obj o) = true ->
  sanitizeData (Js.Obj o) =
    Js.Obj (List.map (fun kv => (fst kv,
                                 if isSensitive (fst kv) then REDACTED
                                 else sanitizeObject (snd kv))) o) /\
  (denyFree (Js.Obj o) = true -> sanitizeData (Js.Obj o) = Js.Obj o).
Proof.
  intros Hp. rewrite (sanitizeData_object o Hp). split.
  - cbn [redact]. f_equal. apply map_ext_in. intros kv Hkv.
    destruct (isSensitive (fst kv)); [reflexivity|].
    rewrite sanitizeObject_redact; [reflexivity|].
    cbn [plain] in Hp. apply andb_true_iff in Hp as [_ Hvals].
    rewrite forallb_forall in Hvals. apply Hvals. exact Hkv.
  - apply redact_denyFree.
Qed.

Lemma sanitizeData_keeps_shape_witness :
  sanitizeData
    (Js.Obj [("user", Js.Str "asha");
             ("apiKey", Js.Str "k-123");
             ("profile", Js.Obj [("authToken", Js.Num 7); ("age", Js.Num 30)])]) =
  Js.Obj [("user", Js.Str "asha");
          ("apiKey", Js.Str "[REDACTED]");
          ("profile", Js.Obj [("authToken", Js.Str "[REDACTED]"); ("age", Js.Num 30)])].
Proof.
  apply (sanitizeData_keeps_shape
           [("user", Js.Str "asha");
            ("apiKey", Js.Str "k-123");
            ("profile", Js.Obj [("authToken", Js.Num 7); ("age", Js.Num 30)])]).
  reflexivity.
Defined.

(** X12.  Sanitizing twice is sanitizing once, on an object as a JSON text
    denotes it. *)
Theorem sanitizeData_idempotent o :
  plain (Js.Obj o) = true ->
  sanitizeData (sanitizeData (Js.Obj o)) = sanitizeData (Js.Obj o).
Proof.
  intros Hp. rewrite (sanitizeData_object o Hp).
  pose proof (redact_plain (Js.Obj o) Hp) as Hp'.
  cbn [redact] in *. rewrite sanitizeData_object by exact Hp'.
  apply (redact_again (Js.Obj o)).
Qed.

Lemma sanitizeData_idempotent_witness :
  sanitizeData (sanitizeData (Js.Obj [("password", Js.Str "x"); ("n", Js.Num 1)])) =
  sanitizeData (Js.Obj [("password", Js.Str "x"); ("n", Js.Num 1)]).
Proof.
  apply (sanitizeData_idempotent [("password", Js.Str "x"); ("n", Js.Num 1)]).
  reflexivity.
Defined.
End SanitizerGuarantees.

(** * The logger over time: what is kept, how much, and shutdown *)
Section LoggerOverTime.
Import Logger.

(** A call of [log] on a logger that buffers either appends the entry
    or, when that fills the buffer, submits the whole buffer. *)
Lemma log_persistent env level message data context l :
  persistent l = true ->
  let e := makeLogEntry env level message data context l in
  exists fx,
    (log env level message data context l =
       (setLogBuffer (logBuffer l ++ [e]) l, fx, None) /\
     length (logBuffer l) + 1 < maxBufferSize l /\
     submitted fx = []) \/
    (log env level message data context l =
       (setLogBuffer [] l, fx, Some (logBuffer l ++ [e])) /\
     maxBufferSize l <= length (logBuffer l) + 1 /\
     submitted fx = [logBuffer l ++ [e]]).
Proof.
  intros Hp e. unfold log. fold e. unfold persistent in Hp. rewrite Hp.
  apply andb_true_iff in Hp as [Hf Hdb].
  destruct l as [d ec ef sid buf mx]. cbn in Hf, Hdb. subst d ef.
  cbn [setLogBuffer logBuffer maxBufferSize enableConsole db enableFirestore sessionId].
  rewrite length_app. cbn [length].
  destruct (mx <=? length buf + 1)%nat eqn:Hcap.
  - apply Nat.leb_le in Hcap. unfold flushLogs_begin.
    cbn [setLogBuffer logBuffer maxBufferSize enableConsole db enableFirestore sessionId negb orb].
    rewrite length_app. cbn [length].
    replace (length buf + 1 =? 0)%nat with false by (symmetry; apply Nat.eqb_neq; lia).
    eexists. right. split; [reflexivity|]. split; [exact Hcap|].
    rewrite !submitted_app. destruct ec, (windowHref env); reflexivity.
  - apply Nat.leb_gt in Hcap.
    eexists. left. split; [reflexivity|]. split; [exact Hcap|].
    rewrite !submitted_app. destruct ec, (windowHref env); reflexivity.
Qed.

Lemma flushLogs_begin_persistent l :
  persistent l = true ->
  (logBuffer l = [] /\ flushLogs_begin l = (l, [], None)) \/
  (logBuffer l <> [] /\
   flushLogs_begin l = (setLogBuffer [] l, [Commit (logBuffer l)], Some (logBuffer l))).
Proof.
  intros Hp. apply andb_true_iff in Hp as [_ Hdb]. unfold flushLogs_begin.
  rewrite Hdb. cbn [negb orb].
  destruct (logBuffer l) as [|x b] eqn:E;
    [left; auto | right; split; [discriminate | reflexivity]].
Qed.

Lemma makeLogEntry_session env level message data context l l' :
  sessionId l' = sessionId l ->
  makeLogEntry env level message data context l' =
  makeLogEntry env level message data context l.
Proof. intros H. unfold makeLogEntry, makeContext. rewrite H. reflexivity. Qed.

Lemma entriesLogged_session l l' evs :
  sessionId l' = sessionId l -> entriesLogged l' evs = entriesLogged l evs.
Proof.
  intros H. unfold entriesLogged. apply flat_map_ext. intros [env lv m d c| |b]; auto.
  rewrite (makeLogEntry_session _ _ _ _ _ l l' H). reflexivity.
Qed.

Lemma concat_snoc {A} (q : list (list A)) b : concat (q ++ [b]) = concat q ++ b.
Proof. rewrite concat_app. cbn. rewrite app_nil_r. reflexivity. Qed.

(** One event of a logger that buffers, other than a rejected commit. *)
Lemma step_persistent ev s :
  persistent (logger s) = true ->
  ev <> Settle false ->
  let s' := step ev s in
  persistent (logger s') = true /\
  sessionId (logger s') = sessionId (logger s) /\
  maxBufferSize (logger s') = maxBufferSize (logger s) /\
  accounted s' = accounted s ++ entriesLogged (logger s) [ev] /\
  (length (logBuffer (logger s)) < maxBufferSize (logger s) ->
   length (logBuffer (logger s')) < maxBufferSize (logger s) /\
   exists fx, trace s' = trace s ++ fx /\
              Forall (fun b => 1 <= length b <= maxBufferSize (logger s))
                     (submitted fx)).
Proof.
  intros Hp Hev s'. subst s'.
  destruct s as [l q p tr]. cbn [logger] in *. unfold accounted.
  destruct ev as [env lv m d c| |committed];
    cbn [step logger inflight persisted trace entriesLogged flat_map app].
  - destruct (log_persistent env lv m d c l Hp) as (fx & [(-> & Hlt & Hfx)|(-> & Hge & Hfx)]);
      cbn [logger inflight persisted trace enqueue].
    + repeat split; auto.
      * cbn [setLogBuffer logBuffer]. rewrite !app_assoc. reflexivity.
      * cbn [setLogBuffer logBuffer]. rewrite length_app. cbn. lia.
      * exists fx. split; [reflexivity | rewrite Hfx; constructor].
    + repeat split; auto.
      * cbn [setLogBuffer logBuffer]. rewrite concat_snoc, app_nil_r, !app_assoc.
        reflexivity.
      * cbn [setLogBuffer logBuffer length]. lia.
      * exists fx. split; [reflexivity|]. rewrite Hfx. constructor; [|constructor].
        rewrite length_app. cbn [length]. lia.
  - destruct (flushLogs_begin_persistent l Hp) as [(Hb & ->)|(Hb & ->)];
      cbn [logger inflight persisted trace enqueue].
    + rewrite !app_nil_r. repeat split; auto.
      exists []. rewrite app_nil_r. split; [reflexivity | constructor].
    + repeat split; auto.
      * cbn [setLogBuffer logBuffer]. rewrite concat_snoc, !app_nil_r. reflexivity.
      * cbn [setLogBuffer logBuffer length]. lia.
      * exists [Commit (logBuffer l)]. split; [reflexivity|]. cbn [submitted].
        constructor; [|constructor].
        assert (length (logBuffer l) <> 0)
          by (destruct (logBuffer l); [congruence | discriminate]).
        lia.
  - destruct committed; [|congruence].
    destruct q as [|b q]; cbn [logger inflight persisted trace].
    + rewrite !app_nil_r. repeat split; auto.
      exists []. rewrite app_nil_r. split; [reflexivity | constructor].
    + unfold flushLogs_resume. cbn [logger inflight persisted trace concat].
      rewrite !app_nil_r. repeat split; auto.
      * rewrite !app_assoc. reflexivity.
      * eexists. split; [reflexivity|]. destruct (enableConsole l); constructor.
Qed.

Lemma noRejection_cons ev evs :
  noRejection (ev :: evs) = true -> ev <> Settle false /\ noRejection evs = true.
Proof.
  unfold noRejection. cbn [forallb]. intros H. apply andb_true_iff in H as [H1 H2].
  split; auto. intros ->. discriminate H1.
Qed.

Lemma entriesLogged_cons l ev evs :
  entriesLogged l (ev :: evs) = entriesLogged l [ev] ++ entriesLogged l evs.
Proof. unfold entriesLogged. cbn [flat_map]. rewrite app_nil_r. reflexivity. Qed.

(** X13.  As long as no commit is rejected, a logger that buffers loses
    nothing and repeats nothing: after any sequence of calls of [log],
    flushes and settled commits (the commits settling in the order in
    which they were issued), the entries stored, in a pending commit or
    in the buffer are, in this order, the ones there were followed by
    the ones logged since, each once and in the order of the calls. *)
Theorem entries_conserved_without_rejection evs s :
  persistent (logger s) = true ->
  noRejection evs = true ->
  accounted (run evs s) = accounted s ++ entriesLogged (logger s) evs.
Proof.
  revert s. induction evs as [|ev evs IH]; intros s Hp Hn.
  - cbn. rewrite app_nil_r. reflexivity.
  - apply noRejection_cons in Hn as [Hev Hn].
    destruct (step_persistent ev s Hp Hev) as (Hp' & Hs & _ & Ha & _).
    unfold run in *. cbn [fold_left]. rewrite IH by assumption.
    rewrite Ha, (entriesLogged_session _ _ evs Hs), (entriesLogged_cons _ ev evs).
    rewrite app_assoc. reflexivity.
Qed.

Lemma entries_conserved_without_rejection_witness :
  accounted (run [Call env1 "error" "db down" Js.Null []; Flush;
                  Call env2 "info" "retrying" Js.Null []; Settle true]
                 (mkSystem sampleLogger [] [] [])) =
  [makeLogEntry env1 "error" "db down" Js.Null [] sampleLogger;
   makeLogEntry env2 "info" "retrying" Js.Null [] sampleLogger].
Proof.
  apply (entries_conserved_without_rejection
           [Call env1 "error" "db down" Js.Null []; Flush;
            Call env2 "info" "retrying" Js.Null []; Settle true]
           (mkSystem sampleLogger [] [] [])); reflexivity.
Defined.

(** X14.  As long as no commit is rejected, the buffer of a logger that
    started below its capacity stays below it, and every batch it
    submits has at least one entry and at most [maxBufferSize]. *)
Theorem buffer_and_batches_bounded evs s :
  persistent (logger s) = true ->
  noRejection evs = true ->
  length (logBuffer (logger s)) < maxBufferSize (logger s) ->
  length (logBuffer (logger (run evs s))) < maxBufferSize (logger s) /\
  exists fx,
    trace (run evs s) = trace s ++ fx /\
    Forall (fun b => 1 <= length b <= maxBufferSize (logger s)) (submitted fx).
Proof.
  revert s. induction evs as [|ev evs IH]; intros s Hp Hn Hlt.
  - cbn. split; auto. exists []. rewrite app_nil_r. split; [reflexivity | constructor].
  - apply noRejection_cons in Hn as [Hev Hn].
    destruct (step_persistent ev s Hp Hev) as (Hp' & _ & Hm & _ & Hb).
    destruct (Hb Hlt) as (Hlt' & fx1 & Ht1 & Hf1).
    unfold run in *. cbn [fold_left].
    rewrite <- Hm in Hlt'.
    destruct (IH _ Hp' Hn Hlt') as (Hlt2 & fx2 & Ht2 & Hf2).
    rewrite Hm in Hlt2, Hf2.
    split; [exact Hlt2|].
    exists (fx1 ++ fx2). split.
    + rewrite Ht2, Ht1, app_assoc. reflexivity.
    + rewrite submitted_app. apply Forall_app. split; auto.
Qed.

Lemma buffer_and_batches_bounded_witness :
  length (logBuffer (logger
    (run [Call env1 "error" "db down" Js.Null []; Flush; Settle true]
         (mkSystem sampleLogger [] [] [])))) < 100.
Proof.
  apply (buffer_and_batches_bounded
           [Call env1 "error" "db down" Js.Null []; Flush; Settle true]
           (mkSystem sampleLogger [] [] [])); [reflexivity | reflexivity |].
  cbn. lia.
Defined.

(** X15.  [shutdown] of a logger that buffers leaves the buffer empty: what
    was buffered and the entry "Logger shutting down" after it are in
    pending commits, behind the batches that were pending already. *)
Theorem shutdown_submits_the_buffer env s :
  persistent (logger s) = true ->
  let s' := shutdown env s in
  logBuffer (logger s') = [] /\
  concat (inflight s') =
    concat (inflight s) ++ logBuffer (logger s)
      ++ [makeLogEntry env "info" "Logger shutting down" Js.Null [] (logger s)] /\
  persisted s' = persisted s.
Proof.
  intros Hp s'. subst s'. unfold shutdown, info.
  destruct s as [l q p tr]. cbn [logger inflight persisted] in *.
  cbn [step logger inflight persisted trace].
  destruct (log_persistent env "info" "Logger shutting down" Js.Null [] l Hp)
    as (fx & [(-> & Hlt & Hfx)|(-> & Hge & Hfx)]);
    cbn [logger inflight persisted trace enqueue].
  - assert (Hp1 : persistent (setLogBuffer
               (logBuffer l ++ [makeLogEntry env "info" "Logger shutting down" Js.Null [] l]) l) = true)
      by exact Hp.
    destruct (flushLogs_begin_persistent _ Hp1) as [(Hb & ->)|(Hb & ->)];
      cbn [logger inflight persisted trace enqueue setLogBuffer logBuffer] in *.
    + destruct (logBuffer l); discriminate Hb.
    + rewrite concat_snoc. auto.
  - assert (Hp1 : persistent (setLogBuffer [] l) = true) by exact Hp.
    destruct (flushLogs_begin_persistent _ Hp1) as [(Hb & ->)|(Hb & ->)];
      cbn [logger inflight persisted trace enqueue setLogBuffer logBuffer] in *.
    + rewrite concat_snoc. auto.
    + congruence.
Qed.

Lemma shutdown_submits_the_buffer_witness :
  let s := mkSystem (setLogBuffer [entry1] sampleLogger) [] [] [] in
  logBuffer (logger (shutdown env2 s)) = [] /\
  inflight (shutdown env2 s) =
    [[entry1; makeLogEntry env2 "info" "Logger shutting down" Js.Null [] sampleLogger]].
Proof.
  intros s.
  destruct (shutdown_submits_the_buffer env2 s eq_refl) as (H1 & _ & _).
  split; [exact H1 | reflexivity].
Defined.
End LoggerOverTime.

(** * The level filter and the counts by level *)
Section LevelFacts.
Import Logger.

Lemma toUpperCase_empty s : Js.toUpperCase s = "" <-> s = "".
Proof. destruct s; cbn; split; intros H; try reflexivity; discriminate H. Qed.

Lemma indexOf_levels x :
  indexOf levels x = (-1)%Z \/ (0 <= indexOf levels x <= 3)%Z.
Proof.
  unfold indexOf, levels. cbn [indexOfFrom].
  destruct (String.eqb "DEBUG" x); [right; lia|].
  destruct (String.eqb "INFO" x); [right; cbn; lia|].
  destruct (String.eqb "WARN" x); [right; cbn; lia|].
  destruct (String.eqb "ERROR" x); [right; cbn; lia|].
  left. reflexivity.
Qed.

(** X16.  What [shouldLog] answers once [setLogLevel] has been called
    with a level that is not the empty string: for two of the four
    levels DEBUG, INFO, WARN, ERROR, in any letter case, it answers true
    exactly when the level is not below the minimum; a minimum that is
    none of the four counts as INFO; and a level that is none of the
    four, such as security, performance or user_action, is refused
    whatever the minimum.  Before any call of [setLogLevel], and after
    a call with the empty string, it answers true for every level. *)
Theorem shouldLog_after_setLogLevel minimum level :
  minimum <> "" ->
  let i := indexOf levels (Js.toUpperCase minimum) in
  let j := indexOf levels (Js.toUpperCase level) in
  (i <> (-1)%Z -> shouldLog (setLogLevel minimum) level = (i <=? j)%Z) /\
  (i = (-1)%Z -> shouldLog (setLogLevel minimum) level = (1 <=? j)%Z) /\
  (j = (-1)%Z -> shouldLog (setLogLevel minimum) level = false) /\
  shouldLog noLevelFilter level = true /\
  shouldLog (setLogLevel "") level = true.
Proof.
  intros Hm i j.
  assert (Ht : truthy (Js.toUpperCase minimum) = true).
  { unfold truthy. apply negb_true_iff. apply String.eqb_neq.
    intros H. apply Hm. apply (proj1 (toUpperCase_empty minimum)). exact H. }
  assert (Hs : shouldLog (setLogLevel minimum) level =
               ((if (i =? -1)%Z then 1%Z else i) <=? j)%Z).
  { unfold shouldLog, setLogLevel. cbn [minLevel minLevelIndex].
    rewrite Ht. reflexivity. }
  repeat split.
  - intros Hi. rewrite Hs. apply Z.eqb_neq in Hi. rewrite Hi. reflexivity.
  - intros Hi. rewrite Hs, Hi. reflexivity.
  - intros Hj. rewrite Hs, Hj.
    destruct (indexOf_levels (Js.toUpperCase minimum)) as [H|H]; fold i in H.
    + rewrite H. reflexivity.
    + destruct (i =? -1)%Z; apply Z.leb_gt; lia.
Qed.

Lemma shouldLog_after_setLogLevel_witness :
  shouldLog (setLogLevel "debug") "security" = false /\
  shouldLog (setLogLevel "warn") "Error" = true /\
  shouldLog (setLogLevel "verbose") "debug" = false.
Proof.
  assert (H : "debug" <> "") by discriminate.
  assert (H1 : "warn" <> "") by discriminate.
  assert (H2 : "verbose" <> "") by discriminate.
  split; [|split].
  - apply (shouldLog_after_setLogLevel "debug" "security" H). reflexivity.
  - destruct (shouldLog_after_setLogLevel "warn" "Error" H1) as (Ha & _).
    rewrite Ha; [reflexivity | discriminate].
  - destruct (shouldLog_after_setLogLevel "verbose" "debug" H2) as (_ & Hb & _).
    rewrite Hb; reflexivity.
Defined.
End LevelFacts.

Section LevelCounts.
Import Logger.

Lemma sumCounts_app o1 o2 : sumCounts (o1 ++ o2) = sumCounts o1 + sumCounts o2.
Proof. unfold sumCounts. rewrite List.map_app, list_sum_app. reflexivity. Qed.

Lemma sumCounts_cons k c o : sumCounts ((k, c) :: o) = countOf c + sumCounts o.
Proof. reflexivity. Qed.

Lemma sumCounts_replaceOwn k n o :
  Js.getOwn k o = Some (Count n) ->
  sumCounts (Js.replaceOwn k (Count (n + 1)) o) = S (sumCounts o).
Proof.
  induction o as [|[k' c] o IH]; cbn [Js.getOwn Js.replaceOwn]; [discriminate|].
  destruct (String.eqb k' k).
  - intros H. inversion H; subst. rewrite !sumCounts_cons. cbn [countOf]. lia.
  - intros H. rewrite !sumCounts_cons, IH by exact H. lia.
Qed.

Lemma sumCounts_insertIndex n k c o :
  sumCounts (Js.insertIndex n k c o) = countOf c + sumCounts o.
Proof.
  induction o as [|[k' c'] o IH]; cbn [Js.insertIndex]; [reflexivity|].
  destruct (Js.arrayIndex k') as [n'|]; [destruct (n' <? n)%Z|];
    rewrite !sumCounts_cons; rewrite ?IH; lia.
Qed.

(** Counting a key that names no member of [Object.prototype] in an
    object of numbers adds one to the sum and keeps the object one of
    numbers. *)
Lemma bump_sum k o :
  Js.inherited k = false ->
  Forall (fun e => isNumber (snd e) = true) o ->
  sumCounts (bump k o) = S (sumCounts o) /\
  Forall (fun e => isNumber (snd e) = true) (bump k o).
Proof.
  intros Hi Hnum. pose proof (not_inherited_not_proto k Hi) as Hp.
  unfold bump. destruct (Js.getOwn k o) as [[n|]|] eqn:Hg.
  - split; [|apply assign_Forall; auto].
    unfold Js.assign. rewrite hasOwn_getOwn, Hg. apply sumCounts_replaceOwn; auto.
  - exfalso. apply getOwn_In in Hg. rewrite Forall_forall in Hnum.
    specialize (Hnum _ Hg). discriminate Hnum.
  - rewrite Hi. split; [|apply assign_Forall; auto].
    unfold Js.assign, Js.define. rewrite hasOwn_getOwn, Hg, Hp.
    destruct (Js.arrayIndex k).
    + rewrite sumCounts_insertIndex. reflexivity.
    + rewrite sumCounts_app. cbn. lia.
Qed.

Lemma fold_bump_sum ks :
  Forall (fun k => Js.inherited k = false) ks ->
  forall o,
    Forall (fun e => isNumber (snd e) = true) o ->
    sumCounts (fold_left (fun o x => bump x o) ks o) = sumCounts o + length ks.
Proof.
  induction 1 as [|k ks Hk _ IH]; intros o Ho; cbn [fold_left length]; [lia|].
  destruct (bump_sum k o Hk Ho) as [Hs Hn]. rewrite IH by exact Hn. lia.
Qed.

Lemma upperChar_noLower c : noLowerChar (Js.upperChar c) = true.
Proof. destruct c as [[] [] [] [] [] [] [] []]; reflexivity. Qed.

Lemma toUpperCase_noLower s : Regex.allChars noLowerChar (Js.toUpperCase s) = true.
Proof.
  induction s as [|c s IH]; [reflexivity|].
  cbn. rewrite upperChar_noLower. exact IH.
Qed.

Lemma toUpperCase_not_inherited s : Js.inherited (Js.toUpperCase s) = false.
Proof.
  pose proof (toUpperCase_noLower s) as H.
  unfold Js.inherited, includes, Js.prototypeMembers.
  apply not_true_is_false. intros Hex. apply existsb_exists in Hex.
  destruct Hex as (m & Hin & E). apply String.eqb_eq in E. rewrite E in H.
  cbn [In] in Hin.
  repeat (destruct Hin as [<-|Hin]; [discriminate H|]). exact Hin.
Qed.

(** X17.  Over entries whose levels name no member of [Object.prototype],
    [stats.byLevel] holds under every level the number of entries of
    that level and nothing under a level without entries, and its
    numbers add up to [stats.total].  The level of every entry that
    [log] makes is such a level, whatever level [log] was called
    with. *)
Theorem byLevel_counts_every_level logs :
  Forall (fun e => Js.inherited (level e) = false) logs ->
  (forall lv,
      Js.getOwn lv (byLevel (statistics logs)) =
      held (occurrences lv (List.map level logs))) /\
  sumCounts (byLevel (statistics logs)) = total (statistics logs) /\
  (forall env lv message data context l,
      Js.inherited (level (makeLogEntry env lv message data context l)) = false).
Proof.
  intros Hl.
  assert (Hb : byLevel (statistics logs) =
               fold_left (fun o x => bump x o) (List.map level logs) []).
  { pose proof (tally_folds logs) as Ht. unfold statistics.
    destruct (tally logs) as [bl em]. inversion Ht. reflexivity. }
  assert (Hk : Forall (fun k => Js.inherited k = false) (List.map level logs)).
  { apply Forall_map. exact Hl. }
  split; [|split].
  - intros lv. rewrite Hb.
    destruct (in_dec string_dec lv (List.map level logs)) as [Hin|Hin].
    + rewrite Forall_forall in Hk.
      apply (fold_bump_counts lv (Hk lv Hin) _ [] 0 eq_refl).
    + rewrite fold_bump_absent by auto.
      assert (H0 : occurrences lv (List.map level logs) = 0).
      { destruct (occurrences lv (List.map level logs)) eqn:E; auto.
        exfalso. apply Hin. apply occurrences_In. lia. }
      rewrite H0. reflexivity.
  - rewrite Hb, fold_bump_sum by (auto; constructor).
    destruct (statistics_fields logs) as (Ht & _). rewrite Ht.
    rewrite length_map. reflexivity.
  - intros. apply toUpperCase_not_inherited.
Qed.

Lemma byLevel_counts_every_level_witness :
  let logs := [entry1; entry2; errorLog "boom"] in
  Js.getOwn "ERROR" (byLevel (statistics logs)) = Some (Count 2) /\
  Js.getOwn "WARN" (byLevel (statistics logs)) = None /\
  sumCounts (byLevel (statistics logs)) = 3.
Proof.
  intros logs.
  assert (H : Forall (fun e => Js.inherited (level e) = false) logs)
    by (repeat constructor).
  destruct (byLevel_counts_every_level logs H) as (H1 & H2 & _).
  split; [apply (H1 "ERROR")|]. split; [apply (H1 "WARN") | exact H2].
Defined.
End LevelCounts.

(** * Reports on services: categories and popular services *)
Section MapFacts.
Import Logger ServiceReports.

Lemma mapGet_In k (m : JsMap) : mapGet k m = None <-> ~ In k (List.map fst m).
Proof.
  induction m as [|[k' v] m IH]; cbn; [tauto|].
  destruct (String.eqb k' k) eqn:E.
  - apply String.eqb_eq in E. subst. split; [discriminate|]. intros H. exfalso. auto.
  - apply String.eqb_neq in E. rewrite IH. tauto.
Qed.

Lemma keys_mapSet k v (m : JsMap) :
  List.map fst (mapSet k v m) =
  match mapGet k m with
  | Some _ => List.map fst m
  | None => List.map fst m ++ [k]
  end.
Proof.
  induction m as [|[k' v'] m IH]; cbn; [reflexivity|].
  destruct (String.eqb k' k); [reflexivity|].
  cbn. rewrite IH. destruct (mapGet k m); reflexivity.
Qed.

Lemma mapGet_mapSet_same k v (m : JsMap) : mapGet k (mapSet k v m) = Some v.
Proof.
  induction m as [|[k' v'] m IH]; cbn.
  - rewrite String.eqb_refl. reflexivity.
  - destruct (String.eqb k' k) eqn:E; cbn; rewrite E; auto.
Qed.

Lemma mapGet_mapSet_other k k' v (m : JsMap) :
  k <> k' -> mapGet k (mapSet k' v m) = mapGet k m.
Proof.
  intros Hne. induction m as [|[k0 v0] m IH]; cbn.
  - destruct (String.eqb k' k) eqn:E; [|reflexivity].
    apply String.eqb_eq in E. congruence.
  - destruct (String.eqb k0 k') eqn:E; cbn.
    + apply String.eqb_eq in E. subst k0.
      destruct (String.eqb k' k) eqn:E'; [|reflexivity].
      apply String.eqb_eq in E'. congruence.
    + rewrite IH. reflexivity.
Qed.

Lemma fold_left_through_map {A B C} (f : A -> B -> A) (g : C -> B) l :
  forall a, fold_left f (List.map g l) a = fold_left (fun a x => f a (g x)) l a.
Proof. induction l as [|x l IH]; intros a; cbn [fold_left List.map]; auto. Qed.

Lemma list_sum_cons x l : list_sum (x :: l) = x + list_sum l.
Proof. reflexivity. Qed.

Lemma sum_mapSet k v (m : JsMap) :
  list_sum (List.map snd (mapSet k v m)) + match mapGet k m with
                                            | Some n => n
                                            | None => 0
                                            end =
  list_sum (List.map snd m) + v.
Proof.
  induction m as [|[k' v'] m IH]; [cbn; lia|].
  cbn [mapSet mapGet]. destruct (String.eqb k' k).
  - cbn [List.map snd]. rewrite !list_sum_cons. lia.
  - cbn [List.map snd]. rewrite list_sum_cons. cbn [List.map snd] in IH.
    rewrite list_sum_cons. lia.
Qed.

Lemma mapGet_entry k v (m : JsMap) :
  NoDup (List.map fst m) -> In (k, v) m -> mapGet k m = Some v.
Proof.
  induction m as [|[k' v'] m IH]; cbn; intros Hnd Hin; [contradiction|].
  inversion Hnd; subst.
  destruct Hin as [E|Hin].
  - inversion E; subst. rewrite String.eqb_refl. reflexivity.
  - destruct (String.eqb k' k) eqn:E.
    + apply String.eqb_eq in E. subst. exfalso.
      apply (in_map fst) in Hin. auto.
    + apply IH; auto.
Qed.

Lemma mapGet_Some_In k v (m : JsMap) : mapGet k m = Some v -> In (k, v) m.
Proof.
  induction m as [|[k' v'] m IH]; cbn; [discriminate|].
  destruct (String.eqb k' k) eqn:E.
  - apply String.eqb_eq in E. intros H. inversion H; subst. auto.
  - auto.
Qed.

(** Counting keys in a [Map]: under each key the number of its
    occurrences, for any keys whatever. *)
Lemma fold_mapBump_counts k ks :
  forall m,
    match mapGet k (fold_left (fun m x => mapBump x m) ks m) with
    | Some n => n
    | None => 0
    end =
    match mapGet k m with
    | Some n => n
    | None => 0
    end + occurrences k ks.
Proof.
  induction ks as [|x ks IH]; intros m; cbn [fold_left].
  - unfold occurrences. cbn. lia.
  - rewrite IH, occurrences_cons. unfold mapBump.
    destruct (String.eqb x k) eqn:E.
    + apply String.eqb_eq in E. subst x. rewrite mapGet_mapSet_same. lia.
    + apply String.eqb_neq in E. rewrite mapGet_mapSet_other by congruence. lia.
Qed.

Lemma fold_mapBump_keys ks :
  firstSeenOrder ks
    (List.map fst (fold_left (fun m x => mapBump x m) ks [])).
Proof.
  induction ks as [|k ks IH] using rev_ind.
  - repeat split; simpl; try tauto; constructor.
  - destruct IH as (Hnd & Hin & Hsort).
    rewrite fold_left_app. cbn [fold_left]. unfold mapBump at 1.
    rewrite keys_mapSet.
    set (m := fold_left (fun m x => mapBump x m) ks []) in *.
    destruct (mapGet k m) as [n|] eqn:Hg.
    + assert (Ho : In k (List.map fst m)).
      { apply mapGet_Some_In in Hg. apply (in_map fst) in Hg. exact Hg. }
      repeat split; auto.
      * intros H. apply in_or_app. left. apply Hin. exact H.
      * intros H. apply in_app_or in H as [H|[<-|[]]]; [apply Hin|]; auto.
      * eapply StronglySorted_weaken; [|exact Hsort].
        intros a b Ha Hb Hab. apply Hin in Ha, Hb.
        rewrite !firstIndex_app_in; auto.
    + assert (Hnew : ~ In k ks).
      { intros H. apply Hin in H. apply mapGet_In in Hg. contradiction. }
      repeat split.
      * apply NoDup_app. repeat split; auto.
        -- constructor; [simpl; tauto | constructor].
        -- intros x Hx [<-|[]]. apply Hnew. apply Hin. exact Hx.
      * intros H. apply in_app_or in H as [H|[<-|[]]];
          apply in_or_app; [left; apply Hin; auto | right; simpl; auto].
      * intros H. apply in_app_or in H as [H|[<-|[]]];
          apply in_or_app; [left; apply Hin; auto | right; simpl; auto].
      * apply StronglySorted_snoc.
        -- eapply StronglySorted_weaken; [|exact Hsort].
           intros a b Ha Hb Hab. apply Hin in Ha, Hb.
           rewrite !firstIndex_app_in; auto.
        -- rewrite Forall_forall. intros y Hy. apply Hin in Hy.
           rewrite firstIndex_app_in, firstIndex_app_new; auto.
           apply firstIndex_lt; auto.
Qed.

Lemma fold_mapBump_sum ks :
  forall m,
    list_sum (List.map snd (fold_left (fun m x => mapBump x m) ks m)) =
    list_sum (List.map snd m) + length ks.
Proof.
  induction ks as [|k ks IH]; intros m; cbn [fold_left length]; [lia|].
  rewrite IH. unfold mapBump.
  pose proof (sum_mapSet k (match mapGet k m with Some n => n | None => 0 end + 1) m).
  lia.
Qed.

(** The entries of a [Map] that has counted the keys [ks]. *)
Lemma fold_mapBump_entries ks :
  let m := fold_left (fun m x => mapBump x m) ks [] in
  firstSeenOrder ks (List.map fst m) /\
  (forall e, In e m -> In (fst e) ks /\ snd e = occurrences (fst e) ks) /\
  (forall k, In k ks -> In (k, occurrences k ks) m).
Proof.
  intros m. pose proof (fold_mapBump_keys ks) as Hkeys. fold m in Hkeys.
  split; [exact Hkeys|]. destruct Hkeys as (Hnd & Hin & _).
  assert (Hget : forall k, In k ks -> mapGet k m = Some (occurrences k ks)).
  { intros k Hk. pose proof (fold_mapBump_counts k ks []) as Hc. fold m in Hc.
    cbn in Hc. destruct (mapGet k m) as [n|] eqn:Hg; [congruence|].
    apply mapGet_In in Hg. exfalso. apply Hg. apply Hin. exact Hk. }
  split.
  - intros [k n] He. cbn [fst snd].
    assert (Hk : In k ks) by (apply Hin; apply (in_map fst) in He; exact He).
    split; [exact Hk|].
    apply (mapGet_entry k n m Hnd) in He. rewrite (Hget k Hk) in He.
    inversion He. reflexivity.
  - intros k Hk. apply mapGet_Some_In. apply Hget. exact Hk.
Qed.
End MapFacts.

Section ReportFacts.
Import Applications Logger ServiceReports.
Variable getServices : M (list ServiceDoc).
Variable getApplications : M (list Application).

(** X18.  The categories of [getServiceCategories] are the categories of the
    services, each once and in the order in which the services show
    them first; each comes with the number of services that have it and
    with its display name, and the numbers add up to the number of
    services.  When the services cannot be read, the error is logged
    and thrown on. *)
Theorem getServiceCategories_counts w services w1 :
  getServices w = (Ok services, w1) ->
  let categories := List.map sd_category services in
  exists cats,
    getServiceCategories getServices w = (Ok cats, w1) /\
    firstSeenOrder categories (List.map cc_name cats) /\
    (forall c, In c cats ->
               cc_count c = occurrences (cc_name c) categories /\
               0 < cc_count c /\
               cc_displayName c = getCategoryDisplayName (cc_name c)) /\
    list_sum (List.map cc_count cats) = length services.
Proof.
  intros Hg categories.
  unfold getServiceCategories, tryCatch, bind. rewrite Hg.
  eexists. split; [reflexivity|].
  replace (fold_left (fun m service => mapBump (sd_category service) m) services [])
    with (fold_left (fun m x => mapBump x m) categories []).
  2:{ unfold categories. apply fold_left_through_map. }
  destruct (fold_mapBump_entries categories) as (Hkeys & Hent & _).
  set (m := fold_left (fun m x => mapBump x m) categories []) in *.
  split; [|split].
  - rewrite List.map_map. exact Hkeys.
  - intros c Hc. apply in_map_iff in Hc as (e & <- & He). cbn.
    destruct (Hent e He) as [Hin Hn]. split; [exact Hn|]. split; [|reflexivity].
    rewrite Hn. apply occurrences_In. exact Hin.
  - rewrite List.map_map. cbn [cc_count].
    change (fun x : string * nat => snd x) with (@snd string nat).
    unfold m. rewrite fold_mapBump_sum. cbn. unfold categories.
    rewrite length_map. reflexivity.
Qed.

Lemma toCounter_sort (m : JsMap) :
  List.map (fun e => (fst e, Count (snd e))) (Js.sort byApplicationsDescending m) =
  Js.sort byCountDescending (List.map (fun e => (fst e, Count (snd e))) m).
Proof.
  induction m as [|x m IH]; [reflexivity|].
  cbn [Js.sort fold_right List.map]. fold (Js.sort byApplicationsDescending m).
  fold (Js.sort byCountDescending (List.map (fun e => (fst e, Count (snd e))) m)).
  rewrite <- IH. generalize (Js.sort byApplicationsDescending m) as l.
  induction l as [|y l IHl]; [reflexivity|].
  cbn [Js.insertSorted List.map].
  change (byCountDescending (fst x, Count (snd x)) (fst y, Count (snd y)))
    with (byApplicationsDescending x y).
  destruct (byApplicationsDescending x y <=? 0)%Z; [reflexivity|].
  cbn [List.map]. rewrite IHl. reflexivity.
Qed.

(** X19.  The most applied-for services of [getServiceStatistics]: at most
    five services, each once, each with the number of applications that
    name it and the name of its document ("Unknown" without one), the
    one with more applications first and, among services with as many,
    the one applied for first first; a service that is left out ranks
    after all five.  The statistics also hold the numbers of services
    and of applications and, under every category that names no member
    of [Object.prototype], the number of services of that category.
    This holds for any ids and any categories of these kinds. *)
Theorem popularServices_ranked w services w1 apps w2 :
  getServices w = (Ok services, w1) ->
  getApplications w1 = (Ok apps, w2) ->
  let ids := List.map serviceId apps in
  exists stats w3,
    getServiceStatistics getServices getApplications w = (Ok stats, w3) /\
    totalServices stats = length services /\
    totalApplications stats = length apps /\
    length (popularServices stats) <= 5 /\
    NoDup (List.map ps_serviceId (popularServices stats)) /\
    (forall p, In p (popularServices stats) ->
               In (ps_serviceId p) ids /\
               ps_applicationCount p = occurrences (ps_serviceId p) ids /\
               ps_serviceName p = serviceNameOf services (ps_serviceId p)) /\
    StronglySorted (outranks ids) (popularServices stats) /\
    (forall id, In id ids ->
                ~ In id (List.map ps_serviceId (popularServices stats)) ->
                length (popularServices stats) = 5 /\
                forall p, In p (popularServices stats) ->
                          outranks ids p
                            (mkPopularService id (occurrences id ids)
                               (serviceNameOf services id))) /\
    (forall c, Js.inherited c = false ->
               Js.getOwn c (categoryCounts stats) =
               held (occurrences c (List.map sd_category services))).
Proof.
  intros Hs Ha ids.
  unfold getServiceStatistics, tryCatch, bind at 1. rewrite Hs.
  unfold bind at 1. rewrite Ha.
  unfold bind, logger_info, ret.
  eexists. eexists. split; [reflexivity|].
  cbn [totalServices totalApplications popularServices categoryCounts].
  split; [reflexivity|]. split; [reflexivity|].
  replace (fold_left (fun m app => mapBump (serviceId app) m) apps [])
    with (fold_left (fun m x => mapBump x m) ids []).
  2:{ unfold ids. apply fold_left_through_map. }
  replace (fold_left (fun o service => bump (sd_category service) o) services [])
    with (fold_left (fun o x => bump x o) (List.map sd_category services) []).
  2:{ apply fold_left_through_map. }
  destruct (fold_mapBump_entries ids) as ((Hnd & Hin & Hfs) & Hentries & Hall).
  set (m := fold_left (fun m x => mapBump x m) ids []) in *.
  set (sorted := Js.sort byApplicationsDescending m).
  assert (Hperm : Permutation sorted m) by apply sort_perm.
  assert (Hsorted : StronglySorted
                      (fun a b : string * nat =>
                         snd b < snd a \/
                         (snd a = snd b /\
                          firstIndex (fst a) ids < firstIndex (fst b) ids)) sorted).
  { apply (StronglySorted_unmap (fun e : string * nat => (fst e, Count (snd e)))
             (entryRanks ids)).
    unfold sorted. rewrite toCounter_sort. apply sort_ranks.
    apply (StronglySorted_map (fun e : string * nat => (fst e, Count (snd e)))
             (fun a b => firstIndex (fst a) ids < firstIndex (fst b) ids)).
    apply StronglySorted_unmap in Hfs. exact Hfs. }
  split; [rewrite length_map; apply firstn_le_length|].
  split.
  { rewrite List.map_map. cbn [ps_serviceId]. rewrite <- firstn_map.
    apply NoDup_firstn.
    apply (Permutation_NoDup (l := List.map fst m)); auto.
    apply Permutation_map, Permutation_sym, Hperm. }
  split.
  { intros p Hp. apply in_map_iff in Hp as (x & <- & Hx).
    apply firstn_In in Hx. apply (Permutation_in _ Hperm) in Hx.
    destruct (Hentries x Hx) as [H1 H2].
    cbn [ps_serviceId ps_applicationCount ps_serviceName]. auto. }
  split.
  { apply (StronglySorted_map
             (fun e : string * nat =>
                mkPopularService (fst e) (snd e) (serviceNameOf services (fst e)))
             (outranks ids)).
    rewrite <- (firstn_skipn 5 sorted) in Hsorted.
    apply StronglySorted_app_inv in Hsorted as [Hs' _]. exact Hs'. }
  split.
  { intros id Hid Hout.
    assert (Hm' : In (id, occurrences id ids) sorted)
      by (apply (Permutation_in _ (Permutation_sym Hperm)); auto).
    rewrite <- (firstn_skipn 5 sorted) in Hm', Hsorted.
    apply in_app_or in Hm' as [Hm'|Hm'].
    - exfalso. apply Hout. rewrite List.map_map. cbn [ps_serviceId].
      apply (in_map fst) in Hm'. exact Hm'.
    - apply StronglySorted_app_inv in Hsorted as [_ Hrank]. split.
      + rewrite length_map. apply firstn_length_le.
        destruct (Nat.le_gt_cases 5 (length sorted)) as [|Hlt]; auto.
        rewrite skipn_all2 in Hm' by lia. contradiction.
      + intros p Hp. apply in_map_iff in Hp as (x & <- & Hx).
        apply (Hrank x _ Hx Hm'). }
  intros c Hc. apply (fold_bump_counts c Hc _ [] 0 eq_refl).
Qed.
End ReportFacts.

Lemma getServiceCategories_counts_witness :
  exists cats,
    ServiceReports.getServiceCategories
      (Applications.ret
         [ServiceReports.mkServiceDoc "s1" "Birth Certificate" "d" "certificate";
          ServiceReports.mkServiceDoc "s2" "Trade License" "d" "license";
          ServiceReports.mkServiceDoc "s3" "Death Certificate" "d" "certificate"])
      Applications.sampleWorld = (Ok cats, Applications.sampleWorld) /\
    List.map ServiceReports.cc_name cats = ["certificate"; "license"] /\
    List.map ServiceReports.cc_count cats = [2; 1].
Proof.
  destruct (getServiceCategories_counts
              (Applications.ret
                 [ServiceReports.mkServiceDoc "s1" "Birth Certificate" "d" "certificate";
                  ServiceReports.mkServiceDoc "s2" "Trade License" "d" "license";
                  ServiceReports.mkServiceDoc "s3" "Death Certificate" "d" "certificate"])
              Applications.sampleWorld _ _ eq_refl) as (cats & H & _).
  exists cats. split; [exact H|].
  inversion H. split; reflexivity.
Defined.

Lemma popularServices_ranked_witness :
  exists stats w3,
    ServiceReports.getServiceStatistics
      (Applications.ret [ServiceReports.mkServiceDoc "svc1" "Birth Certificate" "d" "certificate"])
      (Applications.ret [Applications.sampleApplication])
      Applications.sampleWorld = (Ok stats, w3) /\
    ServiceReports.popularServices stats =
      [ServiceReports.mkPopularService "svc1" 1 "Birth Certificate"].
Proof.
  destruct (popularServices_ranked
              (Applications.ret [ServiceReports.mkServiceDoc "svc1" "Birth Certificate" "d" "certificate"])
              (Applications.ret [Applications.sampleApplication])
              Applications.sampleWorld _ _ _ _ eq_refl eq_refl)
    as (stats & w3 & H & _).
  exists stats, w3. split; [exact H|].
  inversion H. reflexivity.
Defined.

(** * The list of required documents *)
Section DocumentFacts.
Import ServiceReports.
Local Open Scope string_scope.
Local Arguments String.append : simpl nomatch.

Lemma split_nonempty sep s : split sep s <> [].
Proof.
  destruct s as [|c s]; cbn; [discriminate|].
  destruct (Ascii.eqb c sep); [discriminate|].
  destruct (split sep s); discriminate.
Qed.

Lemma split_no_sep sep s : Forall (fun x => hasChar sep x = false) (split sep s).
Proof.
  induction s as [|c s IH]; cbn.
  - repeat constructor.
  - destruct (Ascii.eqb c sep) eqn:E.
    + constructor; [reflexivity | exact IH].
    + destruct (split sep s) as [|x rest].
      * repeat constructor. cbn. rewrite E. reflexivity.
      * inversion IH; subst. constructor; auto. cbn. rewrite E. assumption.
Qed.

Lemma split_whole sep s : hasChar sep s = false -> split sep s = [s].
Proof.
  induction s as [|c s IH]; cbn; [reflexivity|].
  intros H. apply orb_false_iff in H as [H1 H2]. rewrite H1, (IH H2). reflexivity.
Qed.

Lemma split_append sep a b :
  hasChar sep a = false -> split sep (a ++ String sep b) = a :: split sep b.
Proof.
  induction a as [|c a IH]; cbn.
  - intros _. rewrite Ascii.eqb_refl. reflexivity.
  - intros H. apply orb_false_iff in H as [H1 H2]. rewrite H1, (IH H2). reflexivity.
Qed.

Lemma hasChar_trimStart c s : hasChar c s = false -> hasChar c (trimStart s) = false.
Proof.
  induction s as [|c' s IH]; cbn; [reflexivity|].
  intros H. destruct (Regex.isSpace c'); [|exact H].
  apply orb_false_iff in H as [_ H]. auto.
Qed.

Lemma hasChar_trimEnd c s : hasChar c s = false -> hasChar c (trimEnd s) = false.
Proof.
  induction s as [|c' s IH]; cbn; [reflexivity|].
  intros H. apply orb_false_iff in H as [H1 H2]. specialize (IH H2).
  destruct (trimEnd s) as [|c2 t].
  - destruct (Regex.isSpace c'); cbn; [reflexivity|]. rewrite H1. reflexivity.
  - cbn. rewrite H1. exact IH.
Qed.

Lemma trimStart_shape s :
  trimStart s = "" \/
  exists c t, trimStart s = String c t /\ Regex.isSpace c = false.
Proof.
  induction s as [|c s IH]; cbn; [left; reflexivity|].
  destruct (Regex.isSpace c) eqn:E; [exact IH|].
  right. exists c, s. auto.
Qed.

Lemma trimEnd_again s : trimEnd (trimEnd s) = trimEnd s.
Proof.
  induction s as [|c s IH]; cbn; [reflexivity|].
  destruct (trimEnd s) as [|c2 t] eqn:E.
  - destruct (Regex.isSpace c) eqn:Ec; cbn; [reflexivity|]. rewrite Ec. reflexivity.
  - cbn [trimEnd] in *. rewrite IH. reflexivity.
Qed.

Lemma trimEnd_first c t :
  Regex.isSpace c = false -> exists t', trimEnd (String c t) = String c t'.
Proof.
  intros H. cbn. destruct (trimEnd t); [rewrite H|]; eauto.
Qed.

Lemma trim_again s : trim (trim s) = trim s.
Proof.
  unfold trim. destruct (trimStart_shape s) as [->|(c & t & -> & Hc)].
  - reflexivity.
  - destruct (trimEnd_first c t Hc) as [t' Ht]. rewrite Ht.
    cbn [trimStart]. rewrite Hc. rewrite <- Ht. apply trimEnd_again.
Qed.

Lemma length_pos_not_empty s : (0 <? String.length s)%nat = negb (String.eqb s "").
Proof. destruct s; reflexivity. Qed.

Lemma space_is_space : Regex.isSpace " " = true.
Proof. reflexivity. Qed.

Lemma split_join docs d :
  Forall (fun x => hasChar "," x = false) (d :: docs) ->
  split "," (join ", " (d :: docs)) = d :: List.map (String " ") docs.
Proof.
  revert d. induction docs as [|d2 docs IH]; intros d H.
  - cbn [join List.map]. inversion H; subst. apply split_whole. assumption.
  - inversion H as [|? ? Hd Hrest]; subst.
    change (join ", " (d :: d2 :: docs))
      with (d ++ String "," (String " " (join ", " (d2 :: docs)))).
    rewrite split_append by exact Hd.
    cbn [split]. change (Ascii.eqb " " ",") with false. cbv iota.
    rewrite (IH d2 Hrest). reflexivity.
Qed.

Lemma join_not_empty d docs : d <> "" -> join ", " (d :: docs) <> "".
Proof.
  intros Hd. destruct docs as [|d2 docs]; cbn [join]; [exact Hd|].
  destruct d; [congruence | discriminate].
Qed.

(** X20.  What [parseDocuments] returns are names of documents: none is
    empty, none holds a comma, none begins or ends with white space.
    And a list of such names, written with ", " between them, is read
    back as it was. *)
Theorem parseDocuments_reads_names documentsString docs :
  Forall (fun d => documentName d = true) (parseDocuments documentsString) /\
  (Forall (fun d => documentName d = true) docs ->
   parseDocuments (Some (join ", " docs)) = docs).
Proof.
  split.
  - unfold parseDocuments. destruct documentsString as [s|]; [|constructor].
    destruct (negb (truthy s)); [constructor|].
    apply Forall_forall. intros d Hd. apply filter_In in Hd as [Hin Hlen].
    apply in_map_iff in Hin as (x & <- & Hx).
    pose proof (split_no_sep "," s) as Hns. rewrite Forall_forall in Hns.
    specialize (Hns x Hx).
    unfold documentName. rewrite length_pos_not_empty in Hlen. rewrite Hlen.
    unfold trim at 1. rewrite hasChar_trimEnd by (apply hasChar_trimStart; exact Hns).
    rewrite trim_again, String.eqb_refl. reflexivity.
  - intros Hdocs. destruct docs as [|d docs]; [reflexivity|].
    assert (Hparts : Forall (fun d => d <> "" /\ hasChar "," d = false /\ trim d = d)
                       (d :: docs)).
    { eapply Forall_impl; [|exact Hdocs]. intros x Hx. unfold documentName in Hx.
      apply andb_true_iff in Hx as [Hx H3]. apply andb_true_iff in Hx as [H1 H2].
      apply negb_true_iff in H1, H2. apply String.eqb_neq in H1.
      apply String.eqb_eq in H3. auto. }
    unfold parseDocuments.
    assert (Ht : truthy (join ", " (d :: docs)) = true).
    { unfold truthy. apply negb_true_iff. apply String.eqb_neq.
      apply join_not_empty. inversion Hparts; tauto. }
    rewrite Ht. cbn [negb].
    rewrite split_join
      by (eapply Forall_impl; [|exact Hparts]; cbv beta; tauto).
    cbn [List.map].
    assert (Htail : forall l,
               Forall (fun d => d <> "" /\ hasChar "," d = false /\ trim d = d) l ->
               List.filter (fun doc => (0 <? String.length doc)%nat)
                 (List.map trim (List.map (String " ") l)) = l).
    { induction l as [|x l IHl]; intros Hl; [reflexivity|].
      inversion Hl as [|? ? (Hx1 & _ & Hx3) Hl']; subst. cbn [List.map List.filter].
      assert (Hx : trim (String " " x) = x).
      { unfold trim. cbn [trimStart]. rewrite space_is_space. exact Hx3. }
      rewrite Hx, length_pos_not_empty.
      apply String.eqb_neq in Hx1. rewrite Hx1. cbn [negb]. rewrite IHl; auto. }
    inversion Hparts as [|? ? (Hd1 & _ & Hd3) Hrest]; subst.
    cbn [List.filter]. rewrite Hd3, length_pos_not_empty.
    apply String.eqb_neq in Hd1. rewrite Hd1. cbn [negb]. rewrite Htail; auto.
Qed.

Lemma parseDocuments_reads_names_witness :
  parseDocuments (Some "Aadhaar card, Proof of address, Photo") =
  ["Aadhaar card"; "Proof of address"; "Photo"].
Proof.
  apply (parseDocuments_reads_names None
           ["Aadhaar card"; "Proof of address"; "Photo"]).
  repeat constructor.
Defined.
End DocumentFacts.

(** * Which statuses a stored application can have *)
Section StatusFacts.
Import Applications.

(** X21.  [submitApplication], [updateApplicationStatus] and
    [cancelApplication] keep every stored application at one of the
    five listed statuses, whether they return or throw.
    [bulkUpdateStatus] does not: it checks no status, so with a
    signed-in caller and a store that accepts its calls, a bulk update
    of an existing application to a status outside the list leaves the
    application with that status. *)
Theorem single_writers_keep_statuses_listed w :
  validStored w ->
  (forall data r w', submitApplication data w = (r, w') -> validStored w') /\
  (forall id s c r w', updateApplicationStatus id s c w = (r, w') -> validStored w') /\
  (forall id reason r w', cancelApplication id reason w = (r, w') -> validStored w') /\
  (forall id a s c uid,
      applications w !! id = Some a ->
      currentUser w = Some uid ->
      storeAccepts 2 w = true ->
      includes validStatuses s = false ->
      exists r w',
        bulkUpdateStatus [id] s c w = (Ok r, w') /\
        success r = 1 /\
        option_map status (applications w' !! id) = Some s /\
        ~ validStored w').
Proof.
  intros Hv. repeat split.
  - intros data [id|e] w' H.
    + apply submitApplication_success in H.
      destruct H as (uid & service & _ & _ & _ & _ & Happs & _).
      intros id' a. rewrite Happs. destruct (string_dec id' id) as [->|Hne].
      * rewrite lookup_insert_eq. intros E; inversion E. reflexivity.
      * rewrite lookup_insert_ne by congruence. apply Hv.
    + apply submitApplication_throw in H. destruct H as [H _].
      intros id' a. rewrite H. apply Hv.
  - intros id s c [[]|e] w' H.
    + apply updateApplicationStatus_success in H.
      destruct H as (a0 & u & Hs & _ & _ & Happs).
      intros id' a. rewrite Happs. destruct (string_dec id' id) as [->|Hne].
      * rewrite lookup_insert_eq. intros E; inversion E. exact Hs.
      * rewrite lookup_insert_ne by congruence. apply Hv.
    + apply updateApplicationStatus_throw in H. destruct H as [H _].
      intros id' a. rewrite H. apply Hv.
  - intros id reason r w' H.
    apply cancelApplication_writes_nothing in H. destruct H as [H _].
    intros id' a. rewrite H. apply Hv.
  - intros id a s c uid Ha Hu Hf Hs.
    destruct (bulkUpdateStatus_effect [id] s c w uid Hu Hf) as (w' & Hb & _ & Hread).
    assert (Habs : absentIds w [id] = []).
    { unfold absentIds. cbn [List.filter]. rewrite Ha. reflexivity. }
    rewrite Habs in Hb. cbn [length List.map Nat.sub] in Hb.
    assert (Hr : applications w' !! id = Some (bulkUpdated s c w uid a)).
    { rewrite (Hread id), Ha. unfold includes. cbn [existsb].
      rewrite String.eqb_refl. reflexivity. }
    eexists. exists w'. split; [exact Hb|]. split; [reflexivity|].
    split; [rewrite Hr; reflexivity|].
    intros Hall. specialize (Hall id _ Hr).
    unfold bulkUpdated, bulkUpdateOf in Hall.
    cbn [status applyUpdate u_status] in Hall. congruence.
Qed.

Lemma single_writers_keep_statuses_listed_witness :
  validStored sampleWorld /\
  exists r w',
    bulkUpdateStatus ["app1"] "archived" "" sampleWorld = (Ok r, w') /\
    ~ validStored w'.
Proof.
  assert (H : validStored sampleWorld).
  { intros id a Ha. unfold sampleWorld in Ha. cbn [applications] in Ha.
    apply lookup_singleton_Some in Ha. destruct Ha as [_ <-]. reflexivity. }
  split; [exact H|].
  destruct (single_writers_keep_statuses_listed sampleWorld H) as (_ & _ & _ & Hb).
  destruct (Hb "app1" sampleApplication "archived" "" "user1")
    as (r & w' & H1 & _ & _ & H2); try reflexivity.
  exists r, w'. split; [exact H1 | exact H2].
Defined.
End StatusFacts.

(** * The context of a log entry *)
Section ContextFacts.
Import Logger.

Lemma getOwn_define_same {A} k (v : A) o : Js.getOwn k (Js.define k v o) = Some v.
Proof.
  unfold Js.define. destruct (Js.hasOwn k o) eqn:Ho.
  - apply getOwn_replaceOwn_same. exact Ho.
  - destruct (Js.arrayIndex k).
    + apply getOwn_insertIndex_same. exact Ho.
    + rewrite getOwn_app. rewrite hasOwn_getOwn in Ho.
      destruct (Js.getOwn k o); [discriminate|]. cbn. rewrite String.eqb_refl.
      reflexivity.
Qed.

Lemma getOwn_define_other {A} k k' (v : A) o :
  k <> k' -> Js.getOwn k (Js.define k' v o) = Js.getOwn k o.
Proof.
  intros Hne. unfold Js.define. destruct (Js.hasOwn k' o).
  - apply getOwn_replaceOwn_other. exact Hne.
  - destruct (Js.arrayIndex k').
    + apply getOwn_insertIndex_other. exact Hne.
    + rewrite getOwn_app. destruct (Js.getOwn k o); [reflexivity|]. cbn.
      destruct (String.eqb k' k) eqn:E; [|reflexivity].
      apply String.eqb_eq in E. congruence.
Qed.

Lemma getOwn_spread_over {A} k (extra : Js.props A) :
  NoDup (List.map fst extra) ->
  forall base,
    Js.getOwn k (fold_left (fun acc kv => Js.define (fst kv) (snd kv) acc) extra base) =
    match Js.getOwn k extra with
    | Some v => Some v
    | None => Js.getOwn k base
    end.
Proof.
  induction extra as [|[k' v] extra IH]; intros Hnd base; [reflexivity|].
  inversion Hnd as [|? ? Hnotin Hnd']; subst.
  cbn [fold_left fst snd Js.getOwn]. rewrite (IH Hnd').
  destruct (String.eqb k' k) eqn:E.
  - apply String.eqb_eq in E. subst k'.
    assert (Hnone : Js.getOwn k extra = None).
    { destruct (Js.getOwn k extra) eqn:Hg; [|reflexivity].
      exfalso. apply Hnotin. apply getOwn_In in Hg.
      apply (in_map fst) in Hg. exact Hg. }
    rewrite Hnone. apply getOwn_define_same.
  - apply String.eqb_neq in E. destruct (Js.getOwn k extra); [reflexivity|].
    apply getOwn_define_other. congruence.
Qed.

(** X22.  The context of a log entry holds the session id of the
    logger, the user agent and the URL, and over them what the caller
    passed as context: under each key of the caller's context its
    value, also under "sessionId", "userAgent" and "url", and under
    those three, when the caller's context does not have them, the
    logger's own values.  The context is stored as it is given: it is
    not sanitized. *)
Theorem log_context_merges env level message data context l k :
  NoDup (List.map fst context) ->
  Js.getOwn k (Logger.context (makeLogEntry env level message data context l)) =
  match Js.getOwn k context with
  | Some v => Some v
  | None =>
      Js.getOwn k [("sessionId", Js.Str (sessionId l));
                   ("userAgent", optionValue (navigatorUserAgent env));
                   ("url", optionValue (windowHref env))]
  end.
Proof.
  intros Hnd. unfold makeLogEntry. cbn [Logger.context]. unfold makeContext.
  apply getOwn_spread_over. exact Hnd.
Qed.

Lemma log_context_merges_witness :
  Js.getOwn "sessionId"
    (Logger.context
       (makeLogEntry env1 "info" "signed in" Js.Null
          [("sessionId", Js.Str "forged"); ("password", Js.Str "hunter2")]
          sampleLogger)) = Some (Js.Str "forged") /\
  Js.getOwn "password"
    (Logger.context
       (makeLogEntry env1 "info" "signed in" Js.Null
          [("sessionId", Js.Str "forged"); ("password", Js.Str "hunter2")]
          sampleLogger)) = Some (Js.Str "hunter2").
Proof.
  assert (Hnd : NoDup (List.map fst [("sessionId", Js.Str "forged");
                                     ("password", Js.Str "hunter2")])).
  { repeat constructor; cbn; intuition discriminate. }
  split.
  - apply (log_context_merges env1 "info" "signed in" Js.Null
             [("sessionId", Js.Str "forged"); ("password", Js.Str "hunter2")]
             sampleLogger "sessionId" Hnd).
  - apply (log_context_merges env1 "info" "signed in" Js.Null
             [("sessionId", Js.Str "forged"); ("password", Js.Str "hunter2")]
             sampleLogger "password" Hnd).
Defined.
End ContextFacts.

(** * Statistics on applications *)
Section ApplicationStatisticsFacts.
Import Applications Logger ApplicationReports.
Variable getAllApplications : M (list Application).

Lemma countApplication_folds apps :
  forall st,
    fold_left countApplication apps st =
    mkApplicationStatistics (as_total st)
      (fold_left (fun o x => bump x o) (List.map status apps) (byStatus st))
      (fold_left (fun o x => bump x o)
         (List.map (fun a => orElse (serviceName a) "Unknown") apps) (byService st))
      (fold_left (fun o x => bump x o)
         (List.map (fun a => monthKey (appliedAt a)) apps) (byMonth st))
      (fold_left (fun o x => bump x o)
         (List.map (fun a => orElse (priority a) "normal") apps)
         (priorityDistribution st)).
Proof.
  induction apps as [|a apps IH]; intros st; [destruct st; reflexivity|].
  cbn [fold_left List.map]. rewrite IH. reflexivity.
Qed.

Lemma listed_status_not_inherited s :
  includes validStatuses s = true -> Js.inherited s = false.
Proof.
  unfold includes, validStatuses. cbn [existsb]. intros H.
  repeat (apply orb_true_iff in H as [H|H];
          [apply String.eqb_eq in H; subst s; reflexivity|]).
  discriminate H.
Qed.

(** X23.  Over the applications that the query returns,
    [getApplicationStatistics] reports their number as the total and,
    under every key that names no member of [Object.prototype], the
    number of applications with that status in [byStatus], with that
    service name in [byService] (an application without a service name
    counting under "Unknown"), applied for in that month in [byMonth],
    and with that priority in [priorityDistribution] (an application
    without one counting as "normal").  When every application has one
    of the five listed statuses, the numbers of [byStatus] add up to
    the total. *)
Theorem getApplicationStatistics_counts w apps w1 :
  getAllApplications w = (Ok apps, w1) ->
  exists stats,
    getApplicationStatistics getAllApplications w = (Ok stats, w1) /\
    as_total stats = length apps /\
    (forall k,
        Js.inherited k = false ->
        Js.getOwn k (byStatus stats) =
          held (occurrences k (List.map status apps)) /\
        Js.getOwn k (byService stats) =
          held (occurrences k
                  (List.map (fun a => orElse (serviceName a) "Unknown") apps)) /\
        Js.getOwn k (byMonth stats) =
          held (occurrences k (List.map (fun a => monthKey (appliedAt a)) apps)) /\
        Js.getOwn k (priorityDistribution stats) =
          held (occurrences k
                  (List.map (fun a => orElse (priority a) "normal") apps))) /\
    (Forall (fun a => includes validStatuses (status a) = true) apps ->
     sumCounts (byStatus stats) = as_total stats).
Proof.
  intros Hq. unfold getApplicationStatistics, tryCatch, bind. rewrite Hq.
  eexists. split; [reflexivity|]. rewrite countApplication_folds.
  cbn [as_total byStatus byService byMonth priorityDistribution].
  split; [reflexivity|]. split.
  - intros k Hk. repeat split; apply (fold_bump_counts k Hk _ [] 0 eq_refl).
  - intros Hall. rewrite fold_bump_sum; [rewrite length_map; reflexivity| |constructor].
    apply Forall_map. eapply Forall_impl; [|exact Hall].
    intros a. apply listed_status_not_inherited.
Qed.
End ApplicationStatisticsFacts.

Lemma getApplicationStatistics_counts_witness :
  exists stats,
    ApplicationReports.getApplicationStatistics
      (Applications.ret [Applications.sampleApplication; Applications.sampleApplication])
      Applications.sampleWorld = (Ok stats, Applications.sampleWorld) /\
    Js.getOwn "pending" (ApplicationReports.byStatus stats) = Some (Logger.Count 2) /\
    Js.getOwn "2024-01" (ApplicationReports.byMonth stats) = Some (Logger.Count 2).
Proof.
  destruct (getApplicationStatistics_counts
              (Applications.ret [Applications.sampleApplication;
                                 Applications.sampleApplication])
              Applications.sampleWorld _ _ eq_refl) as (stats & H & _ & Hk & _).
  exists stats. split; [exact H|].
  destruct (Hk "pending" eq_refl) as (H1 & _).
  destruct (Hk "2024-01" eq_refl) as (_ & _ & H3 & _).
  split; [exact H1 | exact H3].
Defined.
